(** * Dance Companion: the mirrored-pose pipeline and its orchestration loop

    A shallow embedding of [utils/pose_visualizer.py], [utils/video_source.py],
    [utils/pose_detector.py], [dance_companion.py] and [app.py].

    - Python [float] is IEEE-754 binary64: Rocq's primitive [float], specified
      by [Prim2SF] and the operations of [SpecFloat].
    - Python [int] is [Z].
    - A [dict] is an insertion-ordered association list with unique keys.
    - NumPy arrays live in a heap of images addressed by locations, so that
      in-place drawing ([cv2.circle], [cv2.line]) and aliasing are visible.
    - Calls to OpenCV, MediaPipe and [print] are recorded in a trace. *)

From Stdlib Require Import ZArith Lia Floats.
From stdpp Require Import base list gmap strings.

#[local] Open Scope Z_scope.

(** ** Python exceptions and results *)

(** The exception classes the modelled code can meet.  All derive from
    [Exception] except [KeyboardInterrupt], which derives from
    [BaseException] only. *)
Inductive exn : Set :=
  | ValueError
  | OverflowError
  | KeyError
  | UnboundLocalError
  | ZeroDivisionError
  | Cv2Error
  | RuntimeError
  | KeyboardInterrupt.

#[global] Instance exn_eq_dec : EqDecision exn.
Proof. solve_decision. Defined.

Definition is_Exception (e : exn) : bool :=
  match e with
  | KeyboardInterrupt => false
  | _ => true
  end.

Inductive result (A : Type) : Type :=
  | Ok (a : A)
  | Raise (e : exn).
Arguments Ok {A} a.
Arguments Raise {A} e.

#[global] Instance result_ret : MRet result := @Ok.
#[global] Instance result_bind : MBind result := λ A B f r,
  match r with
  | Ok a => f a
  | Raise e => Raise e
  end.

(** ** Python floats and their conversions *)

Module PyFloat.

(** [float(n)] for an [int] [n]: the nearest binary64 value, ties to even;
    [OverflowError] when [n] is too large. *)
Definition float_of_int (n : Z) : result float :=
  match binary_normalize prec emax n 0 false with
  | S754_infinity _ => Raise OverflowError
  | sf => Ok (SF2Prim sf)
  end.

(** [int(f)]: truncation toward zero; [ValueError] on NaN and
    [OverflowError] on an infinity. *)
Definition trunc_sf (f : spec_float) : result Z :=
  match f with
  | S754_nan => Raise ValueError
  | S754_infinity _ => Raise OverflowError
  | S754_zero _ => Ok 0
  | S754_finite s m e => Ok (cond_Zopp s (Z.shiftl (Z.pos m) e))
  end.

Definition py_int (f : float) : result Z := trunc_sf (Prim2SF f).

(** [f * n] with [f] a [float] and [n] an [int]: [n] is converted first. *)
Definition mul_int (f : float) (n : Z) : result float :=
  nf ← float_of_int n; Ok (f * nf)%float.

(** [n - f] with [n] an [int] and [f] a [float]. *)
Definition int_sub (n : Z) (f : float) : result float :=
  nf ← float_of_int n; Ok (nf - f)%float.

(** [a / b] on two [int]s (true division).  Python rounds the exact
    quotient once; for operands below [2^53], which convert exactly, that
    is the binary64 quotient of the converted operands. *)
Definition int_truediv (a b : Z) : result float :=
  if decide (b = 0) then Raise ZeroDivisionError
  else af ← float_of_int a; bf ← float_of_int b; Ok (af / bf)%float.

(** [0 <= f <= 1] as Python evaluates it. *)
Definition normalized (f : float) : bool :=
  (0 <=? f)%float && (f <=? 1)%float.

End PyFloat.

(** ** Insertion-ordered dictionaries with integer keys *)

Module PyDict.

Definition t (V : Type) : Type := list (Z * V).

Definition empty {V} : t V := [].

(** [k in d] *)
Definition contains {V} (k : Z) (d : t V) : bool :=
  bool_decide (k ∈ d.*1).

Fixpoint get {V} (k : Z) (d : t V) : option V :=
  match d with
  | [] => None
  | (k', v) :: d' => if decide (k = k') then Some v else get k d'
  end.

(** [d[k]] *)
Definition getitem {V} (k : Z) (d : t V) : result V :=
  match get k d with
  | Some v => Ok v
  | None => Raise KeyError
  end.

(** [d[k] = v]: an existing key keeps its position, a new key goes last. *)
Fixpoint setitem {V} (k : Z) (v : V) (d : t V) : t V :=
  match d with
  | [] => [(k, v)]
  | (k', v') :: d' =>
      if decide (k = k') then (k, v) :: d' else (k', v') :: setitem k v d'
  end.

(** [d.keys()] and [d.values()], in insertion order. *)
Definition keys {V} (d : t V) : list Z := d.*1.
Definition values {V} (d : t V) : list V := d.*2.

End PyDict.

(** ** Landmarks and the visualizer's configuration *)

(** A MediaPipe [NormalizedLandmark]: fields [x], [y], [z], [visibility]. *)
Record landmark : Set := Landmark {
  lm_x : float;
  lm_y : float;
  lm_z : float;
  lm_visibility : float;
}.

(** A BGR colour and a pixel position [(x, y)]. *)
Abbreviation color := (Z * Z * Z)%type.
Abbreviation point := (Z * Z)%type.

(** The attributes set by [PoseVisualizer.__init__]. *)
Record PoseVisualizer : Set := {
  landmark_color : color;
  connection_color : color;
  circle_radius : Z;
  line_thickness : Z;
  offset_x : Z;
}.

(** The defaults of [PoseVisualizer.__init__]. *)
Definition default_visualizer : PoseVisualizer :=
  {| landmark_color := (255, 0, 0);
     connection_color := (0, 0, 255);
     circle_radius := 3;
     line_thickness := 2;
     offset_x := 150 |}.

(** The visualizer with no horizontal offset, as [--offset 0] gives it. *)
Definition zero_offset_visualizer : PoseVisualizer :=
  {| landmark_color := (255, 0, 0);
     connection_color := (0, 0, 255);
     circle_radius := 3;
     line_thickness := 2;
     offset_x := 0 |}.

(** ** [PoseVisualizer.create_mirrored_landmarks] *)

(** [int(c * n)] *)
Definition to_pixel (c : float) (n : Z) : result Z :=
  p ← PyFloat.mul_int c n; PyFloat.py_int p.

(** The position that one pass of the loop computes for [lm]: [x], [y],
    then [mirror_x]. *)
Definition mirror_point (self : PoseVisualizer) (h w : Z) (lm : landmark)
    : result point :=
  x ← to_pixel (lm_x lm) w;
  y ← to_pixel (lm_y lm) h;
  let mirror_x := w - x + offset_x self in
  Ok (mirror_x, y).

(** The [for idx, lm in enumerate(landmarks.landmark)] loop from index
    [idx] on, updating the dictionary [d]. *)
Fixpoint mirror_loop (self : PoseVisualizer) (h w : Z) (idx : Z)
    (lms : list landmark) (d : PyDict.t point) : result (PyDict.t point) :=
  match lms with
  | [] => Ok d
  | lm :: rest =>
      position ← mirror_point self h w lm;
      mirror_loop self h w (idx + 1) rest (PyDict.setitem idx position d)
  end.

Definition create_mirrored_landmarks (self : PoseVisualizer)
    (landmarks : list landmark) (frame_shape : Z * Z * Z)
    : result (PyDict.t point) :=
  let '(h, w, _) := frame_shape in
  mirror_loop self h w 0 landmarks PyDict.empty.

(** ** Images, the heap of arrays, and the trace of external calls *)

(** A NumPy [uint8] array of shape [(h, w, c)], stored row-major. *)
Record image : Set := Image {
  img_h : Z;
  img_w : Z;
  img_c : Z;
  img_data : list Z;
}.

(** [frame.shape] *)
Definition shape (f : image) : Z * Z * Z := (img_h f, img_w f, img_c f).

(** The array invariant: as many channel values as the shape says, each an
    unsigned byte. *)
Definition uint8_array (f : image) : Prop :=
  length (img_data f) = Z.to_nat (img_h f * img_w f * img_c f)
  ∧ Forall (λ v, 0 ≤ v ≤ 255) (img_data f).

(** [np.zeros_like(f)] as a value. *)
Definition zeros_like (f : image) : image :=
  {| img_h := img_h f; img_w := img_w f; img_c := img_c f;
     img_data := replicate (Z.to_nat (img_h f * img_w f * img_c f)) 0 |}.

(** OpenCV's [saturate_cast<uchar>] on an [int]. *)
Definition saturate_cast_u8 (v : Z) : Z :=
  if decide (0 ≤ v ≤ 255) then v else if decide (0 < v) then 255 else 0.

(** The array that [cv2.add] produces from two [uint8] arrays of one shape. *)
Definition add_images (a b : image) : image :=
  {| img_h := img_h a; img_w := img_w a; img_c := img_c a;
     img_data := zip_with (λ x y, saturate_cast_u8 (x + y))
                   (img_data a) (img_data b) |}.

(** A value that fits a C [int]. *)
Definition c_int (n : Z) : Prop := -2147483648 ≤ n ≤ 2147483647.

#[global] Instance c_int_dec n : Decision (c_int n).
Proof. unfold c_int. apply _. Defined.

(** An outcome that is an exception deriving from [Exception]. *)
Definition rejected {A} (r : result A) : Prop :=
  ∃ e, r = Raise e ∧ is_Exception e = true.

(** A [uint8] array with pixels and a pixel format of two to four
    channels, as a capture delivers it. *)
Definition color_frame (f : image) : Prop :=
  0 < img_h f ∧ 0 < img_w f ∧ 1 < img_c f ≤ 4 ∧ uint8_array f.

(** OpenCV's functions, which the repository calls and does not define.
    [cv2.circle(img, center, radius, color, thickness)] and
    [cv2.line(img, pt1, pt2, color, thickness)] draw in place and clip to
    the array: each is a function from the array before the call to the
    array after it, or to the exception with which OpenCV rejects the
    arguments.  [cv2.add(a, b)] is a function to the array it returns, or
    to its exception.  What is assumed of them:
    - a drawing call that OpenCV accepts keeps the shape and the element
      type of the array;
    - a negative radius, a line thickness that is not positive, and a
      coordinate that does not fit a C [int] are rejected;
    - on two [uint8] arrays of one shape, with pixels and with two to four
      channels, [cv2.add] returns their saturating sum.
    Nothing is assumed about which other arguments OpenCV accepts, nor
    about [cv2.add] on other arrays. *)
Class OpenCV : Type := {
  raster_circle : image → point → Z → color → Z → result image;
  raster_line : image → point → point → color → Z → result image;
  cv_add : image → image → result image;
  raster_circle_shape img p r col t img' :
    raster_circle img p r col t = Ok img' → shape img' = shape img;
  raster_circle_uint8 img p r col t img' :
    raster_circle img p r col t = Ok img' →
    uint8_array img → uint8_array img';
  raster_line_shape img p q col t img' :
    raster_line img p q col t = Ok img' → shape img' = shape img;
  raster_line_uint8 img p q col t img' :
    raster_line img p q col t = Ok img' →
    uint8_array img → uint8_array img';
  raster_circle_radius img p r col t :
    r < 0 → rejected (raster_circle img p r col t);
  raster_circle_center img p r col t :
    ¬ (c_int p.1 ∧ c_int p.2) → rejected (raster_circle img p r col t);
  raster_line_thickness img p q col t :
    t ≤ 0 → rejected (raster_line img p q col t);
  raster_line_points img p q col t :
    ¬ (c_int p.1 ∧ c_int p.2 ∧ c_int q.1 ∧ c_int q.2) →
    rejected (raster_line img p q col t);
  cv_add_saturating a b :
    shape a = shape b → color_frame a → uint8_array b →
    cv_add a b = Ok (add_images a b);
}.

Definition loc : Set := positive.

Inductive message : Set :=
  | MsgError (e : exn)          (* f"Error: {e}" *)
  | MsgClosed.                  (* "Dance Companion closed." *)

#[global] Instance message_eq_dec : EqDecision message.
Proof. solve_decision. Defined.

(** Calls that leave the repository's code, in the order they are made. *)
Inductive event : Set :=
  | EvVideoCapture
  | EvPoseInit
  | EvNamedWindow (name : string)
  | EvRead
  | EvDetect (frame : loc)
  | EvCircle (canvas : loc) (center : point) (radius : Z) (col : color)
      (thickness : Z)
  | EvLine (canvas : loc) (pt1 pt2 : point) (col : color) (thickness : Z)
  | EvImshow (name : string) (img : loc)
  | EvWaitKey (delay : Z)
  | EvRelease
  | EvDestroyAllWindows
  | EvPrint (msg : message).

#[global] Instance event_eq_dec : EqDecision event.
Proof. solve_decision. Defined.

(** The program state: the arrays alive, the calls made so far, and whether
    the variable [video_source] is bound. *)
Record state : Type := State {
  heap : gmap loc image;
  trace : list event;
  video_source : bool;
}.

Definition initial_state : state :=
  {| heap := ∅; trace := []; video_source := false |}.

(** Computations that read and write the state and may raise. *)
Definition M (A : Type) : Type := state → result A * state.

#[global] Instance M_ret : MRet M := λ A a s, (Ok a, s).
#[global] Instance M_bind : MBind M := λ A B f m s,
  match m s with
  | (Ok a, s') => f a s'
  | (Raise e, s') => (Raise e, s')
  end.

Definition lift {A} (r : result A) : M A := λ s, (r, s).

Definition log (e : event) : M unit := λ s,
  (Ok (), {| heap := heap s; trace := trace s ++ [e];
             video_source := video_source s |}).

(** A new array: it gets a location no live array has. *)
Definition alloc (img : image) : M loc := λ s,
  let l := fresh (dom (heap s)) in
  (Ok l, {| heap := <[l := img]> (heap s); trace := trace s;
            video_source := video_source s |}).

(** Reading through a reference.  References in Python always point to a
    live object; a dangling location is reported as [RuntimeError]. *)
Definition load (l : loc) : M image := λ s,
  match heap s !! l with
  | Some img => (Ok img, s)
  | None => (Raise RuntimeError, s)
  end.

(** In-place update of the array at [l]. *)
Definition modify (l : loc) (f : image → image) : M unit := λ s,
  match heap s !! l with
  | Some img =>
      (Ok (), {| heap := <[l := f img]> (heap s); trace := trace s;
                 video_source := video_source s |})
  | None => (Raise RuntimeError, s)
  end.

(** [for a in l: f(a)] *)
Fixpoint for_each {A} (f : A → M unit) (l : list A) : M unit :=
  match l with
  | [] => mret ()
  | a :: l' => f a ≫= λ _, for_each f l'
  end.

(** ** The OpenCV and NumPy calls of [pose_visualizer.py] *)

Section Visualizer.
Context `{OpenCV}.

(** [np.zeros_like(frame)]: a new array. *)
Definition np_zeros_like (frame : loc) : M loc :=
  img ← load frame; alloc (zeros_like img).

(** [cv2.circle(canvas, center, radius, color, thickness)]: the call is
    made, and the array is updated in place unless OpenCV rejects it. *)
Definition cv2_circle (canvas : loc) (center : point) (radius : Z)
    (col : color) (thickness : Z) : M unit :=
  log (EvCircle canvas center radius col thickness) ≫= λ _,
  img ← load canvas;
  drawn ← lift (raster_circle img center radius col thickness);
  modify canvas (λ _, drawn).

(** [cv2.line(canvas, pt1, pt2, color, thickness)] *)
Definition cv2_line (canvas : loc) (pt1 pt2 : point) (col : color)
    (thickness : Z) : M unit :=
  log (EvLine canvas pt1 pt2 col thickness) ≫= λ _,
  img ← load canvas;
  drawn ← lift (raster_line img pt1 pt2 col thickness);
  modify canvas (λ _, drawn).

(** [cv2.add(a, b)]: what OpenCV returns is a new array. *)
Definition cv2_add (a b : loc) : M loc :=
  ia ← load a;
  ib ← load b;
  sum ← lift (cv_add ia ib);
  alloc sum.

(** *** [PoseVisualizer.draw_mirrored_pose] *)

(** The body of [for connection in connections]. *)
Definition draw_connection (self : PoseVisualizer) (replica : loc)
    (mirrored_landmarks : PyDict.t point) (connection : Z * Z) : M unit :=
  let '(start_idx, end_idx) := connection in
  if PyDict.contains start_idx mirrored_landmarks
     && PyDict.contains end_idx mirrored_landmarks
  then
    pt1 ← lift (PyDict.getitem start_idx mirrored_landmarks);
    pt2 ← lift (PyDict.getitem end_idx mirrored_landmarks);
    cv2_line replica pt1 pt2 (connection_color self) (line_thickness self)
  else mret ().

Definition draw_mirrored_pose (self : PoseVisualizer) (frame : loc)
    (mirrored_landmarks : PyDict.t point) (connections : list (Z * Z))
    : M loc :=
  replica ← np_zeros_like frame;
  for_each
    (λ position,
       cv2_circle replica position (circle_radius self)
         (landmark_color self) (-1))
    (PyDict.values mirrored_landmarks) ≫= λ _,
  for_each (draw_connection self replica mirrored_landmarks)
    connections ≫= λ _,
  mret replica.

(** *** [PoseVisualizer.create_composite] *)

Definition create_composite (self : PoseVisualizer) (frame replica : loc)
    : M loc :=
  cv2_add frame replica.

(** ** The orchestration loops of [dance_companion.py] and [app.py] *)

(** What the world outside does during one pass of the loop: what
    [read_frame] returns ([Some] frame for [(True, frame)], [None] for
    [(False, _)]), what [detect_landmarks(frame).pose_landmarks] is, and
    what [cv2.imshow] and [cv2.waitKey(30)] do.  Each may raise. *)
Record iteration : Type := {
  it_read : result (option image);
  it_detect : result (option (list landmark));
  it_imshow : result unit;
  it_waitKey : result Z;
}.

(** One run of the program: whether the capture opens, what constructing
    the detector and the window does, the passes of the loop (after the
    last one the stream is exhausted and [read_frame] returns
    [(False, None)]), and MediaPipe's [POSE_CONNECTIONS]. *)
Record world : Type := {
  source_opens : bool;
  detector_init : result unit;
  window_init : result unit;
  stream : list iteration;
  pose_connections : list (Z * Z);
}.

(** The assignment [video_source = ...]. *)
Definition bind_video_source : M unit := λ s,
  (Ok (), {| heap := heap s; trace := trace s; video_source := true |}).

(** [video_source = VideoSource(source)]: the constructor raises
    [ValueError] when the capture is not opened, and then nothing is
    assigned. *)
Definition VideoSource_init (w : world) : M unit :=
  log EvVideoCapture ≫= λ _,
  if source_opens w then bind_video_source else lift (Raise ValueError).

(** [PoseDetector()] *)
Definition PoseDetector_init (w : world) : M unit :=
  log EvPoseInit ≫= λ _, lift (detector_init w).

(** [video_source.release()]: the variable must be bound. *)
Definition release : M unit := λ s,
  if video_source s then log EvRelease s
  else (Raise UnboundLocalError, s).

Definition imshow (name : string) (img : loc) (r : result unit) : M unit :=
  log (EvImshow name img) ≫= λ _, lift r.

(** [ord('q')] *)
Definition ord_q : Z := 113.

(** The [while True] loop, which both scripts share up to the window
    name: one pass per element of the stream, and a final [read_frame]
    that finds it exhausted. *)
Fixpoint processing_loop (pose_visualizer : PoseVisualizer)
    (connections : list (Z * Z)) (window_name : string)
    (its : list iteration) : M unit :=
  match its with
  | [] => log EvRead
  | it :: rest =>
      log EvRead ≫= λ _,
      r ← lift (it_read it);
      match r with
      | None => mret ()
      | Some img =>
          frame ← alloc img;
          log (EvDetect frame) ≫= λ _,
          pose_landmarks ← lift (it_detect it);
          match pose_landmarks with
          | Some landmarks =>
              f ← load frame;
              mirrored_landmarks ←
                lift (create_mirrored_landmarks pose_visualizer landmarks
                        (shape f));
              replica ← draw_mirrored_pose pose_visualizer frame
                          mirrored_landmarks connections;
              composite ← create_composite pose_visualizer frame replica;
              imshow window_name composite (it_imshow it)
          | None => imshow window_name frame (it_imshow it)
          end ≫= λ _,
          log (EvWaitKey 30) ≫= λ _,
          key ← lift (it_waitKey it);
          if decide (Z.land key 255 = ord_q) then mret ()
          else processing_loop pose_visualizer connections window_name rest
      end
  end.

(** [try: body  except Exception as e: handler(e)] *)
Definition try_except {A} (body : M A) (handler : exn → M A) : M A := λ s,
  match body s with
  | (Raise e, s') => if is_Exception e then handler e s' else (Raise e, s')
  | ok => ok
  end.

(** [try: body  finally: cleanup]: an exception of the cleanup replaces
    the outcome of the body. *)
Definition try_finally {A} (body : M A) (cleanup : M unit) : M A := λ s,
  let '(r, s') := body s in
  match cleanup s' with
  | (Ok _, s'') => (r, s'')
  | (Raise e, s'') => (Raise e, s'')
  end.

(** The command-line options [--offset], [--radius], [--thickness]. *)
Record arguments : Set := {
  arg_offset : Z;
  arg_radius : Z;
  arg_thickness : Z;
}.

(** The body of the [try] block of [main]. *)
Definition main_body (args : arguments) (w : world) : M unit :=
  VideoSource_init w ≫= λ _,
  PoseDetector_init w ≫= λ _,
  let pose_visualizer :=
    {| landmark_color := landmark_color default_visualizer;
       connection_color := connection_color default_visualizer;
       circle_radius := arg_radius args;
       line_thickness := arg_thickness args;
       offset_x := arg_offset args |} in
  let window_name := "Dance Companion - Pose Mirroring"%string in
  log (EvNamedWindow window_name) ≫= λ _,
  lift (window_init w) ≫= λ _,
  processing_loop pose_visualizer (pose_connections w) window_name
    (stream w).

(** [main] of [dance_companion.py], after the arguments are parsed. *)
Definition main (args : arguments) (w : world) : M unit :=
  try_finally
    (try_except (main_body args w) (λ e, log (EvPrint (MsgError e))))
    (release ≫= λ _,
     log EvDestroyAllWindows ≫= λ _,
     log (EvPrint MsgClosed)).

(** The module body of [app.py]. *)
Definition app_py (w : world) : M unit :=
  PoseDetector_init w ≫= λ _,
  VideoSource_init w ≫= λ _,
  processing_loop default_visualizer (pose_connections w)
    "Video with Replicated Landmarks Overlay"%string (stream w) ≫= λ _,
  release ≫= λ _,
  log EvDestroyAllWindows.

End Visualizer.

(** How often a call occurs in a trace. *)
Definition count_event (P : event → bool) (tr : list event) : nat :=
  length (filter (λ e, P e = true) tr).

Definition is_release (e : event) : bool :=
  match e with EvRelease => true | _ => false end.
Definition is_detect (e : event) : bool :=
  match e with EvDetect _ => true | _ => false end.
Definition is_circle (e : event) : bool :=
  match e with EvCircle _ _ _ _ _ => true | _ => false end.
Definition is_line (e : event) : bool :=
  match e with EvLine _ _ _ _ _ => true | _ => false end.

(** ** The specification's wording, for comparison with the code *)

(** The x-coordinate as the contract of the mirror transform words it,
    [round(w - xn*w) + dx], with truncation toward zero as the rounding. *)
Definition contract_mirror_x (self : PoseVisualizer) (w : Z) (xn : float)
    : result Z :=
  p ← PyFloat.mul_int xn w;
  d ← PyFloat.int_sub w p;
  t ← PyFloat.py_int d;
  Ok (t + offset_x self).

(** Renormalising a pixel x-coordinate: dividing it by the frame width. *)
Definition renormalize (x w : Z) : result float := PyFloat.int_truediv x w.

(** ** An instance of OpenCV to run the pipeline on concrete inputs *)

(** Writes the colour [col], cast to [uint8], at [p] when [p] is inside a
    three-channel array, and nothing otherwise. *)
Definition put_pixel (img : image) (p : point) (col : color) : image :=
  {| img_h := img_h img; img_w := img_w img; img_c := img_c img;
     img_data :=
       if decide (0 ≤ p.1 < img_w img ∧ 0 ≤ p.2 < img_h img ∧ img_c img = 3)
       then
         let i := Z.to_nat ((p.2 * img_w img + p.1) * 3) in
         <[i := saturate_cast_u8 col.1.1]>
           (<[S i := saturate_cast_u8 col.1.2]>
              (<[S (S i) := saturate_cast_u8 col.2]> (img_data img)))
       else img_data img |}.

(** [put_pixel] keeps the length of the data and writes bytes. *)
Ltac put_pixel_bytes :=
  unfold uint8_array, put_pixel; simpl; intros [? ?];
  repeat case_decide; rewrite ?length_insert; (split; [done|]);
  repeat apply Forall_insert; try done;
  unfold saturate_cast_u8; repeat case_decide; lia.

(** The coarsest drawing that clips: a circle marks its centre, a line its
    two end points; the arguments OpenCV is known to reject are rejected,
    and [cv2.add] adds arrays of one shape. *)
Definition endpoint_rasterizer : OpenCV.
Proof.
  refine
    {| raster_circle img p r col _ :=
         if decide (0 ≤ r ∧ c_int p.1 ∧ c_int p.2)
         then Ok (put_pixel img p col) else Raise Cv2Error;
       raster_line img p q col t :=
         if decide (0 < t ∧ c_int p.1 ∧ c_int p.2 ∧ c_int q.1 ∧ c_int q.2)
         then Ok (put_pixel (put_pixel img p col) q col)
         else Raise Cv2Error;
       cv_add a b :=
         if decide (shape a = shape b) then Ok (add_images a b)
         else Raise Cv2Error |}.
  - intros img p r col t img'. case_decide; [|done]. by intros [= <-].
  - intros img p r col t img'. case_decide; [|done]. intros [= <-].
    put_pixel_bytes.
  - intros img p q col t img'. case_decide; [|done]. by intros [= <-].
  - intros img p q col t img'. case_decide; [|done]. intros [= <-].
    put_pixel_bytes.
  - intros img p r col t Hr. rewrite decide_False by lia. by exists Cv2Error.
  - intros img p r col t Hp. rewrite decide_False by tauto.
    by exists Cv2Error.
  - intros img p q col t Ht. rewrite decide_False by lia. by exists Cv2Error.
  - intros img p q col t Hp. rewrite decide_False by tauto.
    by exists Cv2Error.
  - intros a b Hshape _ _. by rewrite decide_True.
Defined.

(** ** Inputs for running the renderer *)

(** A black frame of two by two pixels. *)
Definition blank_frame : image :=
  {| img_h := 2; img_w := 2; img_c := 3; img_data := replicate 12 0 |}.

(** A frame of two by two pixels with bright and dark channels. *)
Definition bright_frame : image :=
  {| img_h := 2; img_w := 2; img_c := 3;
     img_data := [200; 10; 255; 0; 128; 127; 1; 2; 3; 250; 251; 252] |}.

(** A canvas of the same shape with some channels drawn. *)
Definition sample_canvas : image :=
  {| img_h := 2; img_w := 2; img_c := 3;
     img_data := [100; 0; 0; 255; 128; 128; 0; 0; 0; 5; 5; 5] |}.

(** A state in which [read_frame] has delivered [img] at location [1]. *)
Definition state_with_frame (img : image) : state :=
  {| heap := {[1%positive := img]}; trace := []; video_source := true |}.

(** A state holding a frame at [1] and a canvas at [2]. *)
Definition state_with_frame_and_canvas (f c : image) : state :=
  {| heap := <[2%positive := c]> {[1%positive := f]}; trace := [];
     video_source := true |}.

(** ** Runs of the program *)

(** A computation that does not call [release] and leaves the variable
    [video_source] as it is. *)
Definition quiet {A} (m : M A) : Prop :=
  ∀ s, video_source (m s).2 = video_source s
       ∧ ∃ tr, trace (m s).2 = trace s ++ tr
               ∧ Forall (λ e, is_release e = false) tr.

(** The calls of the shutdown path of [main]. *)
Definition shutdown_calls : list event :=
  [EvRelease; EvDestroyAllWindows; EvPrint MsgClosed].

(** The source opens and is exhausted at the first [read_frame]. *)
Definition exhausted_world : world :=
  {| source_opens := true;
     detector_init := Ok ();
     window_init := Ok ();
     stream := [];
     pose_connections := [(0, 1)] |}.

(** The source delivers one frame, on which detection raises. *)
Definition failing_detection_world : world :=
  {| source_opens := true;
     detector_init := Ok ();
     window_init := Ok ();
     stream := [ {| it_read := Ok (Some blank_frame);
                    it_detect := Raise RuntimeError;
                    it_imshow := Ok ();
                    it_waitKey := Ok (-1) |} ];
     pose_connections := [(0, 1)] |}.

(** The source cannot be opened. *)
Definition closed_source_world : world :=
  {| source_opens := false;
     detector_init := Ok ();
     window_init := Ok ();
     stream := [];
     pose_connections := [(0, 1)] |}.

(** The source delivers one frame, and the wait for a key is interrupted
    from the keyboard. *)
Definition interrupted_world : world :=
  {| source_opens := true;
     detector_init := Ok ();
     window_init := Ok ();
     stream := [ {| it_read := Ok (Some blank_frame);
                    it_detect := Ok None;
                    it_imshow := Ok ();
                    it_waitKey := Raise KeyboardInterrupt |} ];
     pose_connections := [(0, 1)] |}.

(** The defaults of the command line. *)
Definition default_arguments : arguments :=
  {| arg_offset := 150; arg_radius := 3; arg_thickness := 2 |}.

(** ** What the renderer is expected to draw *)

(** The end points of the connections whose two indices are both keys of
    the mirrored map, in the topology's order; a connection with a missing
    end point contributes nothing. *)
Definition connection_ends (mirrored_landmarks : PyDict.t point)
    (connections : list (Z * Z)) : list (point * point) :=
  omap (λ '(a, b),
          match PyDict.get a mirrored_landmarks,
                PyDict.get b mirrored_landmarks with
          | Some p, Some q => Some (p, q)
          | _, _ => None
          end) connections.

(** One filled circle per entry of the map, in the map's order. *)
Definition circle_calls (self : PoseVisualizer) (canvas : loc)
    (mirrored_landmarks : PyDict.t point) : list event :=
  (λ p, EvCircle canvas p (circle_radius self) (landmark_color self) (-1))
    <$> PyDict.values mirrored_landmarks.

(** One line per connection with both end points present. *)
Definition line_calls (self : PoseVisualizer) (canvas : loc)
    (mirrored_landmarks : PyDict.t point) (connections : list (Z * Z))
    : list event :=
  (λ '(p, q),
     EvLine canvas p q (connection_color self) (line_thickness self))
    <$> connection_ends mirrored_landmarks connections.

(** All drawing calls the renderer asks for, in its order. *)
Definition draw_calls (self : PoseVisualizer) (canvas : loc)
    (mirrored_landmarks : PyDict.t point) (connections : list (Z * Z))
    : list event :=
  circle_calls self canvas mirrored_landmarks
    ++ line_calls self canvas mirrored_landmarks connections.

(** What OpenCV answers to the drawing call [e] on the array [img]. *)
Definition apply_draw `{OpenCV} (img : image) (e : event) : result image :=
  match e with
  | EvCircle _ center radius col thickness =>
      raster_circle img center radius col thickness
  | EvLine _ pt1 pt2 col thickness =>
      raster_line img pt1 pt2 col thickness
  | _ => Ok img
  end.

(** Drawing calls made in turn on one array, up to the first that OpenCV
    rejects: the exception if there is one, the array as the calls leave
    it, and the calls made, the rejected one included. *)
Record painting : Type := Painting {
  rejection : option exn;
  painted : image;
  calls_made : list event;
}.

Fixpoint paint `{OpenCV} (img : image) (calls : list event) : painting :=
  match calls with
  | [] => {| rejection := None; painted := img; calls_made := [] |}
  | e :: rest =>
      match apply_draw img e with
      | Ok img' =>
          let p := paint img' rest in
          {| rejection := rejection p; painted := painted p;
             calls_made := e :: calls_made p |}
      | Raise x =>
          {| rejection := Some x; painted := img; calls_made := [e] |}
      end
  end.

(** The outcome of a computation that returns [a] unless [r] holds an
    exception. *)
Definition outcome_of {A} (r : option exn) (a : A) : result A :=
  match r with
  | None => Ok a
  | Some e => Raise e
  end.

(** OpenCV accepts every circle and every line that the renderer asks
    for, on any canvas of the frame's shape. *)
Definition drawable `{OpenCV} (self : PoseVisualizer) (f : image)
    (mirrored_landmarks : PyDict.t point) (connections : list (Z * Z))
    : Prop :=
  ∀ img canvas e,
    shape img = shape f →
    e ∈ draw_calls self canvas mirrored_landmarks connections →
    ∃ img', apply_draw img e = Ok img'.

(** The array a drawing call writes to. *)
Definition draw_target (e : event) : option loc :=
  match e with
  | EvCircle canvas _ _ _ _ => Some canvas
  | EvLine canvas _ _ _ _ => Some canvas
  | _ => None
  end.

(** ** Well-formed inputs *)

(** A keypoint of the data model: both coordinates in [[0, 1]]. *)
Definition normalized_landmark (lm : landmark) : Prop :=
  PyFloat.normalized (lm_x lm) = true ∧ PyFloat.normalized (lm_y lm) = true.

(** Frame dimensions that convert to [float] without rounding. *)
Definition exact_dimension (n : Z) : Prop := 0 ≤ n < 2 ^ 53.

(** ** Auxiliary predicates on binary64 values *)

(** A shifted mantissa that lost no non-zero bit. *)
Definition shr_exact (mrs : shr_record) : Prop :=
  shr_r mrs = false ∧ shr_s mrs = false.

(** [L <= f * n <= K] for a non-negative finite [f] and integers. *)
Definition sf_between (f : spec_float) (n L K : Z) : Prop :=
  match f with
  | S754_zero _ => L ≤ 0 ≤ K
  | S754_finite false m e =>
      e ≤ 0 ∧ L * 2 ^ (- e) ≤ Z.pos m * n ≤ K * 2 ^ (- e)
  | _ => False
  end.

(** ** Notions for the properties of the mirror transform *)

(** [f <$> r]: [f] applied to the value returned; an exception passes
    through. *)
#[global] Instance result_fmap : FMap result := λ A B f r,
  match r with
  | Ok a => Ok (f a)
  | Raise e => Raise e
  end.

(** The map [d] with every position moved [k] pixels to the right. *)
Definition shift_x (k : Z) (d : PyDict.t point) : PyDict.t point :=
  (λ kv, (kv.1, (kv.2.1 + k, kv.2.2))) <$> d.

(** Two landmarks at one place of the frame. *)
Definition same_position (a b : landmark) : Prop :=
  lm_x a = lm_x b ∧ lm_y a = lm_y b.

(** A coordinate that is NaN or an infinity. *)
Definition non_finite (f : float) : Prop :=
  f = nan ∨ f = infinity ∨ f = neg_infinity.

(** ** Notions for the runs of the loop *)

Definition is_read (e : event) : bool :=
  match e with EvRead => true | _ => false end.
Definition is_imshow (e : event) : bool :=
  match e with EvImshow _ _ => true | _ => false end.
Definition is_waitKey (e : event) : bool :=
  match e with EvWaitKey _ => true | _ => false end.

Definition is_draw (e : event) : bool := is_circle e || is_line e.

(** The arrays handed to the detector, in the order of the calls. *)
Definition detected_arrays (tr : list event) : list loc :=
  omap (λ e, match e with EvDetect frame => Some frame | _ => None end) tr.

(** The state after the calls [tr] have been made. *)
Definition record (tr : list event) (s : state) : state :=
  {| heap := heap s; trace := trace s ++ tr;
     video_source := video_source s |}.

(** The state after the array [img] has been stored at [l]. *)
Definition store (l : loc) (img : image) (s : state) : state :=
  {| heap := <[l := img]> (heap s); trace := trace s;
     video_source := video_source s |}.

(** What the renderer does to its canvas [canvas] for a frame [f]. *)
Definition rendering `{OpenCV} (self : PoseVisualizer) (f : image)
    (canvas : loc) (mirrored_landmarks : PyDict.t point)
    (connections : list (Z * Z)) : painting :=
  paint (zeros_like f) (draw_calls self canvas mirrored_landmarks connections).

(** The calls one run of the loop may make, pass by pass: a pass reads,
    detects, draws, shows in the loop's window and waits for a key, and
    only the last pass may stop early, after any of its calls. *)
Inductive loop_calls (window_name : string) : list event → Prop :=
  | calls_read_only :
      loop_calls window_name [EvRead]
  | calls_until_draw frame draws :
      Forall (λ e, is_draw e = true) draws →
      loop_calls window_name ([EvRead; EvDetect frame] ++ draws)
  | calls_until_imshow frame draws shown :
      Forall (λ e, is_draw e = true) draws →
      loop_calls window_name
        ([EvRead; EvDetect frame] ++ draws ++ [EvImshow window_name shown])
  | calls_until_waitKey frame draws shown :
      Forall (λ e, is_draw e = true) draws →
      loop_calls window_name
        ([EvRead; EvDetect frame] ++ draws
           ++ [EvImshow window_name shown; EvWaitKey 30])
  | calls_full_pass frame draws shown tr :
      Forall (λ e, is_draw e = true) draws →
      loop_calls window_name tr →
      loop_calls window_name
        ([EvRead; EvDetect frame] ++ draws
           ++ [EvImshow window_name shown; EvWaitKey 30] ++ tr).

(** The end of a pass in closed form, from [cv2.imshow] on: [shown] is
    the array displayed and [k] the rest of the loop. *)
Definition pass_end (window_name : string) (it : iteration) (k : M unit)
    (shown : loc) (s : state) : result unit * state :=
  match it_imshow it with
  | Raise e => (Raise e, record [EvImshow window_name shown] s)
  | Ok _ =>
      let s' := record [EvWaitKey 30]
                  (record [EvImshow window_name shown] s) in
      match it_waitKey it with
      | Raise e => (Raise e, s')
      | Ok key =>
          if decide (Z.land key 255 = ord_q) then (Ok (), s') else k s'
      end
  end.

(** A pass on which nothing fails and no [q] is pressed: a frame is read,
    and either no pose is found, or the frame is a colour frame, the
    transform returns a map and OpenCV accepts the drawing calls for it;
    [imshow] and [waitKey] return. *)
Definition smooth_pass `{OpenCV} (self : PoseVisualizer)
    (connections : list (Z * Z)) (it : iteration) : Prop :=
  ∃ img key,
    it_read it = Ok (Some img)
    ∧ (it_detect it = Ok None
       ∨ ∃ lms ml, it_detect it = Ok (Some lms)
           ∧ create_mirrored_landmarks self lms (shape img) = Ok ml
           ∧ color_frame img
           ∧ drawable self img ml connections)
    ∧ it_imshow it = Ok ()
    ∧ it_waitKey it = Ok key
    ∧ Z.land key 255 ≠ ord_q.

(** The calls of the loop keep step: no key is awaited without a display,
    nothing is displayed without a detection, nothing is detected without
    a frame read, and at most one read is not followed by a detection. *)
Definition calls_keep_step (tr : list event) : Prop :=
  (count_event is_waitKey tr ≤ count_event is_imshow tr
   ∧ count_event is_imshow tr ≤ count_event is_detect tr
   ∧ count_event is_detect tr ≤ count_event is_read tr
   ∧ count_event is_read tr ≤ count_event is_detect tr + 1)%nat.

(** A stream of two frames: a pose is found on the first and none on the
    second; no key is pressed. *)
Definition two_frame_stream : list iteration :=
  [ {| it_read := Ok (Some blank_frame);
       it_detect := Ok (Some [Landmark 0.5 0.5 0 1]);
       it_imshow := Ok ();
       it_waitKey := Ok (-1) |};
    {| it_read := Ok (Some bright_frame);
       it_detect := Ok None;
       it_imshow := Ok ();
       it_waitKey := Ok (-1) |} ].

(** A pass on which [waitKey] reports [q] with a modifier bit set above
    the low byte. *)
Definition q_pass : iteration :=
  {| it_read := Ok (Some blank_frame);
     it_detect := Ok None;
     it_imshow := Ok ();
     it_waitKey := Ok (113 + 256) |}.

(** ** Notions for the runs of the two scripts *)

(** The visualizer that [main] builds from the command line. *)
Definition visualizer_of_arguments (args : arguments) : PoseVisualizer :=
  {| landmark_color := landmark_color default_visualizer;
     connection_color := connection_color default_visualizer;
     circle_radius := arg_radius args;
     line_thickness := arg_thickness args;
     offset_x := arg_offset args |}.

(** The window names of the two scripts. *)
Definition main_window : string := "Dance Companion - Pose Mirroring".
Definition app_window : string := "Video with Replicated Landmarks Overlay".

(** A source on whose first frame [q] is pressed. *)
Definition q_world : world :=
  {| source_opens := true;
     detector_init := Ok ();
     window_init := Ok ();
     stream := [q_pass];
     pose_connections := [(0, 1)] |}.

(** A source that opens and delivers [two_frame_stream]. *)
Definition two_frame_world : world :=
  {| source_opens := true;
     detector_init := Ok ();
     window_init := Ok ();
     stream := two_frame_stream;
     pose_connections := [(0, 1)] |}.


(** The command line with [--thickness 0]. *)
Definition zero_thickness_arguments : arguments :=
  {| arg_offset := 150; arg_radius := 3; arg_thickness := 0 |}.

(** A source whose first frame gives a landmark with a NaN coordinate. *)
Definition nan_landmark_world : world :=
  {| source_opens := true;
     detector_init := Ok ();
     window_init := Ok ();
     stream := [ {| it_read := Ok (Some blank_frame);
                    it_detect := Ok (Some [Landmark 0.5 nan 0 1]);
                    it_imshow := Ok ();
                    it_waitKey := Ok (-1) |} ];
     pose_connections := [(0, 1)] |}.

(** * Properties *)

(** ** Binary64 arithmetic on pixel coordinates

    The facts about rounding that the pipeline needs, derived from the
    bit-level specification of the operations. *)

Module Binary64.

Abbreviation fexp := (SpecFloat.fexp prec emax).
Abbreviation dig := SpecFloat.Zdigits2.

Lemma dig_pos_size p : digits2_pos p = Pos.size p.
Proof. induction p; simpl; congruence. Qed.

Lemma dig_nonneg m : 0 ≤ dig m.
Proof. destruct m; simpl; lia. Qed.

Lemma dig_bounds m : 0 < m → 2 ^ (dig m - 1) ≤ m < 2 ^ dig m.
Proof.
  destruct m as [|p|p]; try lia. intros _. simpl. rewrite dig_pos_size.
  pose proof (Pos.size_gt p) as Hgt. pose proof (Pos.size_le p) as Hle.
  assert (Z.pos p < Z.pos (2 ^ Pos.size p)) as Hgt' by lia.
  assert (Z.pos (2 ^ Pos.size p) ≤ Z.pos p~0) as Hle' by lia.
  rewrite Pos2Z.inj_pow in Hgt', Hle'.
  replace (Z.pos (Pos.size p)) with (Z.succ (Z.pos (Pos.size p) - 1)) in Hle' by lia.
  rewrite Z.pow_succ_r in Hle' by lia. lia.
Qed.

Lemma dig_le_of_lt m k : 0 ≤ m → 0 ≤ k → m < 2 ^ k → dig m ≤ k.
Proof.
  intros Hm Hk Hlt. destruct (decide (m = 0)) as [->|]; [simpl; lia|].
  pose proof (dig_bounds m ltac:(lia)) as [Hlo _].
  destruct (Z_lt_le_dec k (dig m)) as [Hc|]; [|lia].
  assert (2 ^ k ≤ 2 ^ (dig m - 1)) by (apply Z.pow_le_mono_r; lia). lia.
Qed.

Lemma dig_ge_of_le m k : 0 ≤ k → 2 ^ k ≤ m → k + 1 ≤ dig m.
Proof.
  intros Hk Hle.
  assert (0 < m) as Hm by (pose proof (Z.pow_pos_nonneg 2 k); lia).
  pose proof (dig_bounds m Hm) as [_ Hhi].
  destruct (Z_lt_le_dec (dig m) (k + 1)) as [Hc|]; [|lia].
  assert (2 ^ dig m ≤ 2 ^ k) by (apply Z.pow_le_mono_r; lia). lia.
Qed.

(** *** Shifting a mantissa right *)

Lemma shr_1_spec mrs :
  0 ≤ shr_m mrs →
  shr_m (shr_1 mrs) = shr_m mrs / 2
  ∧ ((2 | shr_m mrs) → shr_exact mrs → shr_exact (shr_1 mrs)).
Proof.
  destruct mrs as [m r s]; simpl. intros Hm. unfold shr_exact; simpl.
  destruct m as [|[p|p|]|p]; simpl; try lia.
  - split; [done|]. by intros _ [-> ->].
  - split; [rewrite Pos2Z.inj_xI; rewrite Z.mul_comm, Z.div_add_l by lia; done|].
    intros [k Hk]. lia.
  - split; [rewrite Pos2Z.inj_xO; rewrite Z.mul_comm, Z.div_mul by lia; done|].
    by intros _ [-> ->].
  - split; [done|]. intros [k Hk]. lia.
Qed.

Lemma iter_pos_shr p : ∀ mrs,
  0 ≤ shr_m mrs →
  shr_m (SpecFloat.iter_pos shr_1 p mrs) = shr_m mrs / 2 ^ Z.pos p
  ∧ ((2 ^ Z.pos p | shr_m mrs) → shr_exact mrs →
     shr_exact (SpecFloat.iter_pos shr_1 p mrs)).
Proof.
  induction p as [p IH|p IH|]; intros mrs Hm; simpl.
  - destruct (shr_1_spec mrs Hm) as [H1 E1].
    assert (0 ≤ shr_m (shr_1 mrs)) as Hm1 by (rewrite H1; apply Z.div_pos; lia).
    destruct (IH _ Hm1) as [H2 E2].
    assert (0 ≤ shr_m (SpecFloat.iter_pos shr_1 p (shr_1 mrs))) as Hm2
      by (rewrite H2; apply Z.div_pos; [lia|apply Z.pow_pos_nonneg; lia]).
    destruct (IH _ Hm2) as [H3 E3].
    assert (0 < 2 ^ Z.pos p) as Hpp by (apply Z.pow_pos_nonneg; lia).
    assert (2 ^ Z.pos p~1 = 2 * (2 ^ Z.pos p * 2 ^ Z.pos p)) as Hpow.
    { replace (Z.pos p~1) with (1 + (Z.pos p + Z.pos p)) by lia.
      rewrite !Z.pow_add_r by lia. lia. }
    split.
    + rewrite H3, H2, H1, Hpow. rewrite !Z.div_div by lia. done.
    + rewrite Hpow. intros [k Hk] Hex.
      assert (shr_m (shr_1 mrs) = k * (2 ^ Z.pos p * 2 ^ Z.pos p)) as Hk1.
      { rewrite H1, Hk. replace (k * (2 * (2 ^ Z.pos p * 2 ^ Z.pos p)))
          with ((k * (2 ^ Z.pos p * 2 ^ Z.pos p)) * 2) by lia.
        by rewrite Z.div_mul by lia. }
      apply E3.
      * rewrite H2, Hk1. exists k.
        rewrite Z.mul_assoc. by rewrite Z.div_mul by lia.
      * apply E2; [rewrite Hk1; exists (k * 2 ^ Z.pos p); lia|].
        apply E1; [rewrite Hk; exists (k * (2 ^ Z.pos p * 2 ^ Z.pos p)); lia|done].
  - destruct (IH _ Hm) as [H2 E2].
    assert (0 < 2 ^ Z.pos p) as Hpp by (apply Z.pow_pos_nonneg; lia).
    assert (0 ≤ shr_m (SpecFloat.iter_pos shr_1 p mrs)) as Hm2
      by (rewrite H2; apply Z.div_pos; lia).
    destruct (IH _ Hm2) as [H3 E3].
    assert (2 ^ Z.pos p~0 = 2 ^ Z.pos p * 2 ^ Z.pos p) as Hpow.
    { replace (Z.pos p~0) with (Z.pos p + Z.pos p) by lia.
      rewrite Z.pow_add_r by lia. done. }
    split.
    + rewrite H3, H2, Hpow. rewrite !Z.div_div by lia. done.
    + rewrite Hpow. intros [k Hk] Hex.
      apply E3.
      * rewrite H2, Hk. exists k. rewrite Z.mul_assoc. by rewrite Z.div_mul by lia.
      * apply E2; [rewrite Hk; exists (k * 2 ^ Z.pos p); lia|done].
  - destruct (shr_1_spec mrs Hm) as [H1 E1]. split; [done|].
    intros Hd. apply E1. by rewrite Z.pow_1_r in Hd.
Qed.

Lemma loc_of_shr_record_of_loc m l :
  loc_of_shr_record (shr_record_of_loc m l) = l.
Proof. by destruct l as [|[]]. Qed.

Lemma shr_record_of_loc_m m l : shr_m (shr_record_of_loc m l) = m.
Proof. by destruct l as [|[]]. Qed.

Lemma shr_exact_loc mrs : shr_exact mrs → loc_of_shr_record mrs = loc_Exact.
Proof. destruct mrs as [m r s]. by intros [Hr Hs]; simpl in *; subst. Qed.

Lemma shr_fexp_spec m e l :
  0 ≤ m →
  let n := Z.max 0 (fexp (dig m + e) - e) in
  ∃ mrs, shr_fexp prec emax m e l = (mrs, e + n)
    ∧ shr_m mrs = m / 2 ^ n
    ∧ ((2 ^ n | m) → l = loc_Exact → loc_of_shr_record mrs = loc_Exact).
Proof.
  intros Hm n. unfold shr_fexp, shr. subst n.
  destruct (fexp (dig m + e) - e) as [|p|p] eqn:Hn.
  - exists (shr_record_of_loc m l). rewrite shr_record_of_loc_m.
    rewrite Z.max_l by lia. rewrite Z.add_0_r, Z.pow_0_r, Z.div_1_r.
    split_and!; [done..|]. intros _ ->. done.
  - rewrite Z.max_r by lia.
    destruct (iter_pos_shr p (shr_record_of_loc m l)) as [H1 E1].
    { by rewrite shr_record_of_loc_m. }
    rewrite shr_record_of_loc_m in H1, E1.
    eexists; split_and!; [done|done|].
    intros Hd ->. apply shr_exact_loc, E1; done.
  - exists (shr_record_of_loc m l). rewrite shr_record_of_loc_m.
    rewrite Z.max_l by lia. rewrite Z.add_0_r, Z.pow_0_r, Z.div_1_r.
    split_and!; [done..|]. intros _ ->. done.
Qed.

Lemma round_nearest_even_spec mx lx :
  mx ≤ round_nearest_even mx lx ≤ mx + 1
  ∧ (lx = loc_Exact → round_nearest_even mx lx = mx).
Proof.
  unfold round_nearest_even. destruct lx as [|[]]; try destruct (Z.even mx);
    split; try lia; done.
Qed.

(** What [binary_round_aux] computes on a non-negative mantissa: the
    mantissa is cut to the exponent [e1], moved up by at most one unit,
    and renormalised. *)
Lemma binary_round_aux_spec s M E l :
  0 ≤ M →
  let n := Z.max 0 (fexp (dig M + E) - E) in
  let e1 := E + n in
  ∃ M1, M / 2 ^ n ≤ M1 ≤ M / 2 ^ n + 1
    ∧ ((2 ^ n | M) → l = loc_Exact → M1 = M / 2 ^ n)
    ∧ let n2 := Z.max 0 (fexp (dig M1 + e1) - e1) in
      match binary_round_aux prec emax s M E l with
      | S754_zero s' => s' = s ∧ M1 / 2 ^ n2 = 0
      | S754_finite s' m2 e2 =>
          s' = s ∧ e2 = e1 + n2 ∧ Z.pos m2 = M1 / 2 ^ n2 ∧ e2 ≤ emax - prec
      | S754_infinity s' => s' = s ∧ emax - prec < e1 + n2
      | S754_nan => False
      end.
Proof.
  intros HM n e1. unfold binary_round_aux.
  destruct (shr_fexp_spec M E l HM) as (mrs & -> & Hm & Hex).
  fold n in Hm, Hex. fold e1.
  set (M1 := round_nearest_even (shr_m mrs) (loc_of_shr_record mrs)).
  destruct (round_nearest_even_spec (shr_m mrs) (loc_of_shr_record mrs))
    as [Hb Hx]. fold M1 in Hb, Hx. rewrite Hm in Hb, Hx.
  assert (0 ≤ M / 2 ^ n) as Hq.
  { apply Z.div_pos; [done|]. apply Z.pow_pos_nonneg; lia. }
  assert (0 ≤ M1) as HM1 by lia.
  destruct (shr_fexp_spec M1 e1 loc_Exact HM1) as (mrs2 & Heq2 & Hm2 & _).
  unfold e1, n in Heq2. rewrite Heq2. fold n. fold e1.
  exists M1. split_and!; [lia|lia|by auto|]. simpl.
  rewrite Hm2.
  assert (0 ≤ M1 / 2 ^ Z.max 0 (fexp (dig M1 + e1) - e1)) as Hq2.
  { apply Z.div_pos; [done|]. apply Z.pow_pos_nonneg; lia. }
  destruct (M1 / 2 ^ Z.max 0 (fexp (dig M1 + e1) - e1)) as [|m2|m2] eqn:Heq;
    [done| |lia].
  destruct (Z.leb_spec (e1 + Z.max 0 (fexp (dig M1 + e1) - e1)) (emax - prec));
    split_and!; done || lia.
Qed.

Lemma fexp_le_0 z : z ≤ 53 → fexp z ≤ 0.
Proof. unfold SpecFloat.fexp, SpecFloat.emin, prec, emax. lia. Qed.

Lemma shiftl_nonpos a e : e ≤ 0 → Z.shiftl a e = a / 2 ^ (- e).
Proof.
  intros He. rewrite <- (Z.opp_involutive e) at 1.
  rewrite Z.shiftl_opp_r. apply Z.shiftr_div_pow2. lia.
Qed.

(** Rounding an exact value that lies between two integers below [2^53]
    gives a value between them: so does its truncation. *)
Lemma round_int_bounds M E L K :
  0 ≤ M → E ≤ 0 → 0 ≤ L → K < 2 ^ 53 →
  L * 2 ^ (- E) ≤ M ≤ K * 2 ^ (- E) →
  ∃ p, PyFloat.trunc_sf (binary_round_aux prec emax false M E loc_Exact) = Ok p
       ∧ L ≤ p ≤ K.
Proof.
  intros HM HE HL HK [Hlo Hhi].
  destruct (binary_round_aux_spec false M E loc_Exact HM)
    as (M1 & Hb & Hx & Hres).
  set (n := Z.max 0 (fexp (dig M + E) - E)) in *.
  set (e1 := E + n) in *.
  assert (0 < 2 ^ (- E)) as HpE by (apply Z.pow_pos_nonneg; lia).
  assert (dig M + E ≤ 53) as Hd.
  { assert (dig M ≤ 53 - E); [|lia]. apply dig_le_of_lt; [lia..|].
    replace (53 - E) with (53 + - E) by lia. rewrite Z.pow_add_r by lia. nia. }
  pose proof (fexp_le_0 _ Hd) as Hf.
  assert (0 ≤ n ∧ e1 ≤ 0) as [Hn He1] by (unfold e1, n; lia).
  set (A := 2 ^ n) in *. set (B := 2 ^ (- e1)).
  assert (0 < A) as HA by (apply Z.pow_pos_nonneg; lia).
  assert (0 < B) as HB by (apply Z.pow_pos_nonneg; lia).
  assert (2 ^ (- E) = A * B) as HAB.
  { unfold A, B. rewrite <- Z.pow_add_r by lia. f_equal. unfold e1. lia. }
  rewrite HAB in Hlo, Hhi.
  assert (L * B ≤ M / A) as Hlo'.
  { apply Z.div_le_lower_bound; [done|]. lia. }
  assert (M1 ≤ K * B) as Hhi'.
  { destruct (decide (M mod A = 0)) as [Hmod|Hmod].
    - rewrite Hx; [|by apply Z.mod_divide; [lia|]|done].
      apply Z.div_le_upper_bound; [done|]. lia.
    - pose proof (Z.div_mod M A ltac:(lia)) as Hdm.
      pose proof (Z.mod_pos_bound M A HA) as Hmb.
      assert (M / A < K * B) by nia. lia. }
  assert (dig M1 + e1 ≤ 53) as Hd1.
  { assert (dig M1 ≤ 53 - e1); [|lia]. apply dig_le_of_lt; [lia..|].
    replace (53 - e1) with (53 + - e1) by lia. rewrite Z.pow_add_r by lia.
    fold B. nia. }
  pose proof (fexp_le_0 _ Hd1) as Hf1.
  cbv zeta in Hres.
  set (n2 := Z.max 0 (fexp (dig M1 + e1) - e1)) in *.
  assert (0 ≤ n2 ∧ e1 + n2 ≤ 0) as [Hn2 He2] by (unfold n2; lia).
  set (C := 2 ^ n2) in *. 
  assert (0 < C) as HC by (apply Z.pow_pos_nonneg; lia).
  assert (B = C * 2 ^ (- (e1 + n2))) as HCD.
  { unfold B, C. rewrite <- Z.pow_add_r by lia. f_equal. lia. }
  assert (0 < 2 ^ (- (e1 + n2))) as HD by (apply Z.pow_pos_nonneg; lia).
  assert (L ≤ M1 / B ≤ K) as Hfin.
  { split; [apply Z.div_le_lower_bound; lia|].
    apply Z.div_le_upper_bound; lia. }
  destruct (binary_round_aux prec emax false M E loc_Exact)
    as [s'|s'| |s' m2 e2]; simpl.
  - exists 0. split; [done|]. destruct Hres as [_ Hz].
    assert (M1 / B = 0); [|lia].
    rewrite HCD, <- Z.div_div, Hz by lia. apply Z.div_0_l. lia.
  - destruct Hres as [_ Hres]. unfold emax, prec in Hres. lia.
  - done.
  - destruct Hres as (-> & -> & -> & _). eexists; split; [done|]. simpl.
    rewrite shiftl_nonpos by lia. rewrite Z.div_div by lia.
    rewrite <- HCD. done.
Qed.

Lemma pos_iter_xO p d : Z.pos (Pos.iter xO p d) = Z.pos p * 2 ^ Z.pos d.
Proof.
  rewrite <- Z.shiftl_mul_pow2 by lia. simpl.
  apply (Pos.iter_swap_gen _ _ Z.pos xO (Z.mul 2)). done.
Qed.

Lemma dig_mono a b : 0 ≤ a ≤ b → dig a ≤ dig b.
Proof.
  intros [Ha Hab]. destruct (decide (b = 0)) as [->|Hb].
  - by replace a with 0 by lia.
  - apply dig_le_of_lt; [done|apply dig_nonneg|].
    pose proof (dig_bounds b ltac:(lia)). lia.
Qed.

Lemma dig_unique m d : 0 < d → 2 ^ (d - 1) ≤ m < 2 ^ d → dig m = d.
Proof.
  intros Hd [Hlo Hhi].
  assert (0 < m) by (pose proof (Z.pow_pos_nonneg 2 (d - 1)); lia).
  pose proof (dig_le_of_lt m d ltac:(lia) ltac:(lia) Hhi).
  pose proof (dig_ge_of_le m (d - 1) ltac:(lia) Hlo). lia.
Qed.

(** The binary64 value of an integer below [2^53]: exact, with a full
    53-bit mantissa. *)
Lemma binary_normalize_int n :
  0 < n < 2 ^ 53 →
  ∃ m e, binary_normalize prec emax n 0 false = S754_finite false m e
    ∧ e = dig n - 53 ∧ -52 ≤ e ≤ 0
    ∧ Z.pos m = n * 2 ^ (- e) ∧ 2 ^ 52 ≤ Z.pos m < 2 ^ 53.
Proof.
  intros [Hn0 Hn]. destruct n as [|p|p]; try lia.
  pose proof (dig_bounds (Z.pos p) Hn0) as [Hlo Hhi].
  assert (1 ≤ dig (Z.pos p) ≤ 53) as Hd.
  { split; [simpl; lia|]. apply dig_le_of_lt; lia. }
  simpl in Hd, Hlo, Hhi.
  unfold binary_normalize, binary_round.
  assert (∃ mz, shl_align p 0 (fexp (Z.pos (digits2_pos p) + 0))
                = (mz, Z.pos (digits2_pos p) - 53)
            ∧ Z.pos mz = Z.pos p * 2 ^ (53 - Z.pos (digits2_pos p)))
    as (mz & -> & Hmz).
  { unfold shl_align, SpecFloat.fexp, SpecFloat.emin, prec, emax.
    rewrite Z.add_0_r, Z.sub_0_r, Z.max_l by lia.
    destruct (Z.pos (digits2_pos p) - 53) as [|d|d] eqn:Hd'; try lia.
    - exists p. split; [done|]. replace (53 - Z.pos (digits2_pos p)) with 0 by lia.
      lia.
    - exists (Pos.iter xO p d). split; [done|]. rewrite pos_iter_xO.
      do 2 f_equal. lia. }
  set (e := Z.pos (digits2_pos p) - 53) in *.
  assert (2 ^ 52 ≤ Z.pos mz < 2 ^ 53) as Hmzb.
  { rewrite Hmz. replace (53 - Z.pos (digits2_pos p)) with (- e) by (unfold e; lia).
    assert (0 < 2 ^ (- e)) by (apply Z.pow_pos_nonneg; unfold e; lia).
    assert (2 ^ 52 = 2 ^ (Z.pos (digits2_pos p) - 1) * 2 ^ (- e)) as ->.
    { rewrite <- Z.pow_add_r by (unfold e; lia). f_equal. unfold e; lia. }
    assert (2 ^ 53 = 2 ^ Z.pos (digits2_pos p) * 2 ^ (- e)) as ->.
    { rewrite <- Z.pow_add_r by (unfold e; lia). f_equal. unfold e; lia. }
    nia. }
  assert (dig (Z.pos mz) = 53) as Hdz by (apply dig_unique; [lia|done]).
  destruct (binary_round_aux_spec false (Z.pos mz) e loc_Exact ltac:(lia))
    as (M1 & Hb & Hx & Hres).
  rewrite Hdz in *.
  assert (fexp (53 + e) = e) as Hfe.
  { unfold SpecFloat.fexp, SpecFloat.emin, prec, emax. unfold e. lia. }
  rewrite Hfe, Z.sub_diag, Z.max_id, Z.pow_0_r, Z.div_1_r, Z.add_0_r in *.
  assert (M1 = Z.pos mz) as -> by (apply Hx; [apply Z.divide_1_l|done]).
  cbv zeta in Hres. rewrite Hdz, Hfe, Z.sub_diag, Z.max_id, Z.pow_0_r,
    Z.div_1_r, Z.add_0_r in Hres.
  destruct (binary_round_aux prec emax false (Z.pos mz) e loc_Exact)
    as [s'|s'| |s' m2 e2].
  - lia.
  - unfold emax, prec, e in Hres. lia.
  - done.
  - destruct Hres as (-> & -> & Hm2 & _). exists m2, e.
    split_and!; try done; try (unfold e; lia).
    rewrite Hm2, Hmz. do 2 f_equal. unfold e. lia.
Qed.

Lemma float_of_int_spec n :
  0 ≤ n < 2 ^ 53 →
  ∃ f, PyFloat.float_of_int n = Ok f
    ∧ (n = 0 → Prim2SF f = S754_zero false)
    ∧ (0 < n → ∃ m e, Prim2SF f = S754_finite false m e
         ∧ e = dig n - 53 ∧ -52 ≤ e ≤ 0
         ∧ Z.pos m = n * 2 ^ (- e) ∧ 2 ^ 52 ≤ Z.pos m < 2 ^ 53).
Proof.
  intros [Hn0 Hn]. unfold PyFloat.float_of_int.
  destruct (decide (n = 0)) as [->|Hnz].
  - eexists; split_and!; [done|done|lia].
  - destruct (binary_normalize_int n ltac:(lia))
      as (m & e & -> & He & Heb & Hm & Hmb).
    eexists; split_and!; [done|done|]. intros _. exists m, e.
    split_and!; try lia. apply Prim2SF_SF2Prim. simpl.
    unfold bounded, canonical_mantissa.
    change (Z.pos (digits2_pos m)) with (dig (Z.pos m)).
    rewrite (dig_unique (Z.pos m) 53) by (done || lia).
    apply andb_true_intro. split.
    + apply Z.eqb_eq. unfold SpecFloat.fexp, SpecFloat.emin, prec, emax. lia.
    + apply Z.leb_le. unfold prec, emax. lia.
Qed.

Lemma to_pixel_between x n L K :
  0 ≤ n < 2 ^ 53 → 0 ≤ L → K < 2 ^ 53 →
  sf_between (Prim2SF x) n L K →
  ∃ p, to_pixel x n = Ok p ∧ L ≤ p ≤ K.
Proof.
  intros Hn HL HK Hx. unfold to_pixel, PyFloat.mul_int.
  destruct (float_of_int_spec n Hn) as (f & -> & Hz & Hpos). simpl.
  unfold PyFloat.py_int. rewrite mul_spec. unfold SF64mul.
  destruct (Prim2SF x) as [sx|sx| |[] mx ex]; simpl in Hx; try done.
  - destruct (decide (n = 0)) as [->|Hnz].
    + rewrite Hz by done. simpl. by exists 0.
    + destruct Hpos as (m & e & -> & _); [lia|]. simpl. by exists 0.
  - destruct Hx as [Hex Hx]. destruct (decide (n = 0)) as [->|Hnz].
    + rewrite Hz by done. simpl. exists 0. split; [done|].
      assert (0 < 2 ^ (- ex)) by (apply Z.pow_pos_nonneg; lia). nia.
    + destruct Hpos as (m & e & -> & _ & He & Hm & _); [lia|]. simpl.
      rewrite Pos2Z.inj_mul.
      assert (0 < 2 ^ (- ex)) by (apply Z.pow_pos_nonneg; lia).
      assert (0 < 2 ^ (- e)) by (apply Z.pow_pos_nonneg; lia).
      apply round_int_bounds; [lia|lia|done|done|].
      replace (- (ex + e)) with (- ex + - e) by lia.
      rewrite Z.pow_add_r by lia. rewrite Hm.
      clear Hn HK Hz. generalize dependent (2 ^ (- ex)).
      generalize dependent (2 ^ (- e)). intros B _ HB A HA HAx.
      replace (Z.pos mx * (n * B)) with (Z.pos mx * n * B) by lia.
      rewrite !Z.mul_assoc. split; apply Z.mul_le_mono_nonneg_r; lia.
Qed.

Lemma Prim2SF_zero : Prim2SF 0 = S754_zero false.
Proof. vm_compute. reflexivity. Qed.

Lemma Prim2SF_one : Prim2SF 1 = S754_finite false 4503599627370496 (-52).
Proof. vm_compute. reflexivity. Qed.

Lemma SFleb_zero_finite s m e :
  SFleb (S754_zero false) (S754_finite s m e) = negb s.
Proof. by destruct s. Qed.

Lemma SFleb_finite_pos m1 e1 m2 e2 :
  SFleb (S754_finite false m1 e1) (S754_finite false m2 e2)
  = match e1 ?= e2 with
    | Lt => true
    | Gt => false
    | Eq => match Pos.compare_cont Eq m1 m2 with Gt => false | _ => true end
    end.
Proof. unfold SFleb, SFcompare. by destruct (e1 ?= e2). Qed.

Lemma SFleb_one_mantissa m e :
  valid_binary (S754_finite false m e) = true →
  SFleb (S754_finite false m e) (S754_finite false 4503599627370496 (-52))
    = true →
  e ≤ 0 ∧ Z.pos m ≤ 2 ^ (- e).
Proof.
  intros Hv H1. rewrite SFleb_finite_pos in H1.
  simpl in Hv. unfold bounded, canonical_mantissa in Hv.
  apply andb_prop in Hv as [Hc _]. apply Z.eqb_eq in Hc.
  change (Z.pos (digits2_pos m)) with (dig (Z.pos m)) in Hc.
  pose proof (dig_bounds (Z.pos m) ltac:(lia)) as [_ Hhi].
  destruct (Z.compare_spec e (-52)) as [->|Hlt|Hgt]; [| |discriminate H1].
  - split; [lia|]. rewrite Pos.compare_cont_spec in H1.
    rewrite Pos2Z.inj_compare in H1.
    replace (2 ^ (- -52)) with 4503599627370496 by (vm_compute; reflexivity).
    destruct (Z.compare_spec (Z.pos m) 4503599627370496)
      as [Heq|Hlt|Hgt]; [lia|lia|discriminate H1].
  - split; [lia|].
    assert (dig (Z.pos m) ≤ 53) as Hd.
    { revert Hc. unfold SpecFloat.fexp, SpecFloat.emin, prec, emax. lia. }
    assert (2 ^ dig (Z.pos m) ≤ 2 ^ (- e))
      by (apply Z.pow_le_mono_r; lia). lia.
Qed.

Lemma normalized_between x n :
  0 ≤ n → PyFloat.normalized x = true → sf_between (Prim2SF x) n 0 n.
Proof.
  intros Hn. unfold PyFloat.normalized. rewrite andb_true_iff.
  rewrite !leb_spec. intros [H0 H1].
  pose proof (Prim2SF_valid x) as Hv.
  rewrite Prim2SF_zero in H0. rewrite Prim2SF_one in H1.
  destruct (Prim2SF x) as [sx|sx| |sx mx ex]; simpl.
  - lia.
  - destruct sx; discriminate.
  - discriminate.
  - destruct sx; [by rewrite SFleb_zero_finite in H0|].
    destruct (SFleb_one_mantissa mx ex Hv H1) as [He Hm].
    split; [done|]. nia.
Qed.

Lemma to_pixel_normalized x n :
  0 ≤ n < 2 ^ 53 → PyFloat.normalized x = true →
  ∃ p, to_pixel x n = Ok p ∧ 0 ≤ p ≤ n.
Proof.
  intros Hn Hx. apply to_pixel_between; [done|done|lia|].
  apply normalized_between; [lia|done].
Qed.

Lemma div_eucl_div_mod a b : Z.div_eucl a b = (a / b, a mod b).
Proof. unfold Z.div, Z.modulo. by destruct (Z.div_eucl a b). Qed.

(** The quotient of two full 53-bit mantissas, as [SFdiv] prepares it. *)
Lemma SFdiv_core_binary_normal mm em mw ew :
  2 ^ 52 ≤ Z.pos mm < 2 ^ 53 → 2 ^ 52 ≤ Z.pos mw < 2 ^ 53 →
  -52 ≤ em - ew ≤ 52 →
  SFdiv_core_binary prec emax (Z.pos mm) em (Z.pos mw) ew
  = (Z.pos mm * 2 ^ 53 / Z.pos mw, em - ew - 53,
     new_location (Z.pos mw) ((Z.pos mm * 2 ^ 53) mod Z.pos mw)).
Proof.
  intros Hmm Hmw He. unfold SFdiv_core_binary.
  rewrite (dig_unique (Z.pos mm) 53), (dig_unique (Z.pos mw) 53)
    by (done || lia).
  assert (fexp (53 + em - (53 + ew)) = em - ew - 53) as ->.
  { unfold SpecFloat.fexp, SpecFloat.emin, prec, emax. lia. }
  rewrite Z.min_l by lia.
  replace (em - ew - (em - ew - 53)) with 53 by lia.
  rewrite Z.shiftl_mul_pow2 by lia.
  by rewrite div_eucl_div_mod.
Qed.

(** The arithmetic behind [m / w * w]: cutting the quotient of the
    mantissas to 53 bits moves [m / w * w] by at most [w * 2^-52]. *)
Lemma div_round_arith m w a b n M1 :
  0 < m ≤ w → w ≤ 2 ^ 52 → 0 ≤ b ≤ a → 0 ≤ n ≤ 1 →
  let q := m * 2 ^ a * 2 ^ 53 / (w * 2 ^ b) in
  q / 2 ^ n ≤ M1 ≤ q / 2 ^ n + 1 →
  let P := 2 ^ (53 + a - b - n) in
  Z.max 0 (m - 1) * P ≤ M1 * w ≤ (m + 1) * P.
Proof.
  intros Hm Hw Hab Hn q HM1 P.
  set (A := 2 ^ a) in *. set (B := 2 ^ b) in *. set (N := 2 ^ n) in *.
  assert (0 < A) as HA by (apply Z.pow_pos_nonneg; lia).
  assert (0 < B) as HB by (apply Z.pow_pos_nonneg; lia).
  assert (0 < N) as HN by (apply Z.pow_pos_nonneg; lia).
  assert (0 < P) as HP by (apply Z.pow_pos_nonneg; lia).
  assert (P * (N * B) = 2 ^ 53 * A) as HPNB.
  { unfold P, N, B, A. rewrite <- !Z.pow_add_r by lia. f_equal. lia. }
  assert (2 ^ 52 ≤ P) as HP52 by (apply Z.pow_le_mono_r; lia).
  set (M' := q / N) in *.
  assert (0 < w * B) as HD by nia.
  pose proof (Z.div_mod (m * A * 2 ^ 53) (w * B) ltac:(lia)) as Hq.
  pose proof (Z.mod_pos_bound (m * A * 2 ^ 53) (w * B) HD) as Hqr.
  fold q in Hq.
  pose proof (Z.div_mod q N ltac:(lia)) as HM'.
  pose proof (Z.mod_pos_bound q N HN) as HM'r.
  fold M' in HM'.
  set (Y := N * B) in *.
  assert (0 < Y) as HY by (unfold Y; nia).
  assert (m * A * 2 ^ 53 = m * P * Y) as HX by lia.
  assert (M' * w * Y ≤ m * P * Y) as Hup.
  { rewrite <- HX. unfold Y. nia. }
  assert (m * P * Y < (M' + 1) * w * Y) as Hlo.
  { rewrite <- HX. unfold Y.
    assert (q + 1 ≤ (M' + 1) * N) by nia.
    assert (m * A * 2 ^ 53 < (q + 1) * (w * B)) by nia.
    assert ((q + 1) * (w * B) ≤ (M' + 1) * N * (w * B)) by nia. lia. }
  apply Z.mul_le_mono_pos_r in Hup; [|done].
  apply Z.mul_lt_mono_pos_r in Hlo; [|done].
  assert (0 ≤ q) as Hq0 by (apply Z.div_pos; nia).
  assert (0 ≤ M') as HM0 by (apply Z.div_pos; lia).
  split; [|nia].
  destruct (Z.max_spec 0 (m - 1)) as [[_ ->]|[_ ->]]; nia.
Qed.

(** [m / w] for integers [0 <= m <= w <= 2^52]: a finite float [r] with
    [m - 1 <= r * w <= m + 1]. *)
Lemma int_truediv_between m w :
  0 ≤ m ≤ w → 0 < w ≤ 2 ^ 52 →
  ∃ r, PyFloat.int_truediv m w = Ok r
       ∧ sf_between (Prim2SF r) w (Z.max 0 (m - 1)) (m + 1).
Proof.
  intros Hm Hw. unfold PyFloat.int_truediv.
  destruct (decide (w = 0)) as [|_]; [lia|].
  assert (2 ^ 52 < 2 ^ 53) as H5253 by (apply Z.pow_lt_mono_r; lia).
  destruct (float_of_int_spec m ltac:(lia)) as (fm & -> & Hmz & Hmpos).
  destruct (float_of_int_spec w ltac:(lia)) as (fw & -> & _ & Hwpos).
  simpl. eexists; split; [done|]. rewrite div_spec. unfold SF64div.
  destruct Hwpos as (mw & ew & -> & Hew & Hewb & Hmw & Hmwb); [lia|].
  destruct (decide (m = 0)) as [->|Hmnz].
  { rewrite Hmz by done. simpl. lia. }
  destruct Hmpos as (mm & em & -> & Hem & Hemb & Hmm & Hmmb); [lia|].
  assert (em ≤ ew) as Hee.
  { pose proof (dig_mono m w ltac:(lia)). lia. }
  unfold SFdiv. rewrite SFdiv_core_binary_normal by (done || lia).
  remember (Z.pos mm * 2 ^ 53 / Z.pos mw) as q eqn:Hqdef.
  generalize (new_location (Z.pos mw) ((Z.pos mm * 2 ^ 53) mod Z.pos mw)).
  intros l. simpl xorb.
  assert (2 ^ 52 ≤ q < 2 ^ 54) as Hq.
  { rewrite Hqdef. split.
    - apply Z.div_le_lower_bound; [lia|]. nia.
    - apply Z.div_lt_upper_bound; [lia|].
      replace (2 ^ 54) with (2 * 2 ^ 53) by (vm_compute; reflexivity). nia. }
  destruct (binary_round_aux_spec false q (em - ew - 53) l ltac:(lia))
    as (M1 & Hb & _ & Hres). cbv zeta in Hres.
  assert (53 ≤ dig q ≤ 54) as Hdq.
  { split; [apply (dig_ge_of_le q 52); lia|apply dig_le_of_lt; lia]. }
  assert (fexp (dig q + (em - ew - 53)) - (em - ew - 53) = dig q - 53) as Hn.
  { unfold SpecFloat.fexp, SpecFloat.emin, prec, emax. lia. }
  rewrite Hn in Hb, Hres.
  rewrite (Z.max_r 0 (dig q - 53)) in Hb, Hres by lia.
  remember (dig q - 53) as n eqn:Hndef.
  pose proof (dig_bounds q ltac:(lia)) as Hqb.
  assert (0 < 2 ^ n) as HN by (apply Z.pow_pos_nonneg; lia).
  assert (2 ^ 52 ≤ q / 2 ^ n < 2 ^ 53) as HM'.
  { replace (dig q - 1) with (52 + n) in Hqb by lia.
    replace (dig q) with (53 + n) in Hqb by lia.
    rewrite !Z.pow_add_r in Hqb by lia. split.
    - apply Z.div_le_lower_bound; lia.
    - apply Z.div_lt_upper_bound; lia. }
  remember (em - ew - 53 + n) as e1 eqn:He1def.
  assert (Z.max 0 (m - 1) * 2 ^ (- e1) ≤ M1 * w ≤ (m + 1) * 2 ^ (- e1))
    as Hbetween.
  { replace (- e1) with (53 + (- em) - (- ew) - n) by lia.
    apply (div_round_arith m w (- em) (- ew) n M1); [lia..|].
    replace (m * 2 ^ (- em) * 2 ^ 53 / (w * 2 ^ (- ew))) with q; [done|].
    by rewrite Hqdef, Hmm, Hmw. }
  assert (∃ n2, Z.max 0 (fexp (dig M1 + e1) - e1) = n2 ∧ 0 ≤ n2 ≤ 1
                ∧ M1 / 2 ^ n2 * 2 ^ n2 = M1) as (n2 & Hn2 & Hn2b & Hexact).
  { destruct (decide (M1 = 2 ^ 53)) as [->|Hne].
    - exists 1. rewrite (dig_unique (2 ^ 53) 54) by (vm_compute; done).
      split_and!; [|lia|lia|vm_compute; reflexivity].
      unfold SpecFloat.fexp, SpecFloat.emin, prec, emax. lia.
    - exists 0. rewrite (dig_unique M1 53) by lia.
      split_and!; [|lia|lia|rewrite Z.pow_0_r, Z.div_1_r; lia].
      unfold SpecFloat.fexp, SpecFloat.emin, prec, emax. lia. }
  rewrite Hn2 in Hres.
  assert (0 < 2 ^ n2) as HN2 by (apply Z.pow_pos_nonneg; lia).
  assert (e1 + n2 ≤ 0) as He2 by lia.
  destruct (binary_round_aux prec emax false q (em - ew - 53) l)
    as [s'|s'| |s' m2 e2]; simpl.
  - destruct Hres as [_ Hz]. rewrite Hz in Hexact. lia.
  - destruct Hres as [_ Hinf]. unfold emax, prec in Hinf. lia.
  - done.
  - destruct Hres as (-> & -> & Hm2 & _). split; [lia|].
    rewrite Hm2.
    assert (2 ^ (- e1) = 2 ^ (- (e1 + n2)) * 2 ^ n2) as HP.
    { rewrite <- Z.pow_add_r by lia. f_equal. lia. }
    rewrite HP in Hbetween. rewrite <- Hexact in Hbetween at 1 2.
    clear - Hbetween HN2.
    split; apply (Z.mul_le_mono_pos_r _ _ (2 ^ n2)); [done|lia|done|lia].
Qed.

End Binary64.

(** ** Dictionaries *)

Module PyDictFacts.

Lemma setitem_fresh {V} k (v : V) d :
  k ∉ PyDict.keys d → PyDict.setitem k v d = d ++ [(k, v)].
Proof.
  unfold PyDict.keys. induction d as [|[k' v'] d IH]; intros Hk; simpl.
  - done.
  - rewrite fmap_cons, not_elem_of_cons in Hk. destruct Hk as [Hne Hk].
    simpl in Hne. rewrite decide_False by done. by rewrite IH.
Qed.

Lemma contains_get {V} k (d : PyDict.t V) :
  PyDict.contains k d = true ↔ is_Some (PyDict.get k d).
Proof.
  unfold PyDict.contains. rewrite bool_decide_eq_true.
  induction d as [|[k' v'] d IH]; simpl.
  - rewrite elem_of_nil. split; [done|]. by intros [? ?].
  - rewrite elem_of_cons. simpl. case_decide as Hk.
    + split; [by eauto|]. by left.
    + rewrite <- IH. split; [by intros [?|?]|by right].
Qed.

Lemma getitem_contains {V} k (d : PyDict.t V) :
  PyDict.contains k d = true → ∃ v, PyDict.getitem k d = Ok v
                                   ∧ PyDict.get k d = Some v.
Proof.
  rewrite contains_get. intros [v Hv]. exists v.
  unfold PyDict.getitem. by rewrite Hv.
Qed.

(** The dictionary filled by [enumerate] from [start] on. *)
Lemma keys_zip_seqZ {V} start (vs : list V) :
  PyDict.keys (zip (seqZ start (Z.of_nat (length vs))) vs)
  = seqZ start (Z.of_nat (length vs)).
Proof.
  unfold PyDict.keys. apply fst_zip. rewrite length_seqZ. lia.
Qed.

Lemma get_zip_seqZ {V} (vs : list V) : ∀ start i v,
  vs !! i = Some v →
  PyDict.get (start + Z.of_nat i)
    (zip (seqZ start (Z.of_nat (length vs))) vs) = Some v.
Proof.
  induction vs as [|v0 vs IH]; intros start i v Hi; [done|].
  rewrite seqZ_cons by (simpl; lia). simpl zip. simpl PyDict.get.
  destruct i as [|i]; simpl in Hi.
  - rewrite decide_True by lia. done.
  - rewrite decide_False by lia.
    replace (Z.pred (Z.of_nat (S (length vs))))
      with (Z.of_nat (length vs)) by lia.
    replace (start + Z.of_nat (S i)) with (Z.succ start + Z.of_nat i) by lia.
    by apply IH.
Qed.

End PyDictFacts.

(** ** The mirror transform *)

(** The loop adds, after the entries it was given, one entry per landmark,
    under consecutive indices; it raises exactly when a coordinate does not
    convert. *)
Lemma mirror_loop_spec self h w lms : ∀ idx d r,
  Forall (λ k, k < idx) (PyDict.keys d) →
  mirror_loop self h w idx lms d = Ok r ↔
  ∃ pts, Forall2 (λ lm pt, mirror_point self h w lm = Ok pt) lms pts
         ∧ r = d ++ zip (seqZ idx (Z.of_nat (length pts))) pts.
Proof.
  induction lms as [|lm lms IH]; intros idx d r Hd; simpl.
  - split.
    + intros [= <-]. exists []. split; [constructor|]. by rewrite app_nil_r.
    + intros (pts & Hpts & ->). apply Forall2_nil_inv_l in Hpts as ->.
      by rewrite app_nil_r.
  - destruct (mirror_point self h w lm) as [pt|e] eqn:Hpt; simpl.
    + assert (idx ∉ PyDict.keys d) as Hfresh.
      { intros Hin. rewrite Forall_forall in Hd. specialize (Hd _ Hin). lia. }
      rewrite PyDictFacts.setitem_fresh by done.
      rewrite IH.
      2:{ unfold PyDict.keys in *. rewrite fmap_app, Forall_app. split.
          - eapply Forall_impl; [done|]. simpl. lia.
          - repeat constructor. simpl. lia. }
      split.
      * intros (pts & Hpts & ->). exists (pt :: pts). split; [by constructor|].
        rewrite (seqZ_cons idx) by (simpl; lia). simpl zip.
        replace (Z.pred (Z.of_nat (S (length pts))))
          with (Z.of_nat (length pts)) by lia.
        by rewrite <- app_assoc, Z.add_1_r.
      * intros (pts & Hpts & ->).
        apply Forall2_cons_inv_l in Hpts as (pt' & pts' & Hpt' & Hpts' & ->).
        rewrite Hpt in Hpt'. injection Hpt' as <-.
        exists pts'. split; [done|].
        rewrite (seqZ_cons idx) by (simpl; lia). simpl zip.
        replace (Z.pred (Z.of_nat (S (length pts'))))
          with (Z.of_nat (length pts')) by lia.
        by rewrite <- app_assoc, Z.add_1_r.
    + split; [done|]. intros (pts & Hpts & _).
      apply Forall2_cons_inv_l in Hpts as (pt' & pts' & Hpt' & _).
      congruence.
Qed.

(** The transform returns a map exactly when every coordinate product
    converts to an integer, and the map is then the list of the reflected
    pixels under the indices [0, 1, ...]. *)
Lemma create_mirrored_landmarks_spec self landmarks h w c d :
  create_mirrored_landmarks self landmarks (h, w, c) = Ok d ↔
  ∃ pts,
    Forall2 (λ lm pt, ∃ px py,
               to_pixel (lm_x lm) w = Ok px ∧ to_pixel (lm_y lm) h = Ok py
               ∧ pt = (w - px + offset_x self, py)) landmarks pts
    ∧ d = zip (seqZ 0 (Z.of_nat (length pts))) pts.
Proof.
  unfold create_mirrored_landmarks, PyDict.empty.
  rewrite mirror_loop_spec by constructor. simpl.
  assert (∀ lm pt, mirror_point self h w lm = Ok pt ↔
                   ∃ px py, to_pixel (lm_x lm) w = Ok px
                            ∧ to_pixel (lm_y lm) h = Ok py
                            ∧ pt = (w - px + offset_x self, py)) as Hpt.
  { intros lm pt. unfold mirror_point.
    destruct (to_pixel (lm_x lm) w) as [px|]; simpl.
    - destruct (to_pixel (lm_y lm) h) as [py|]; simpl.
      + split; [intros [= <-]; eauto|].
        by intros (? & ? & [= <-] & [= <-] & ->).
      + split; [done|]. by intros (? & ? & _ & ? & _).
    - split; [done|]. by intros (? & ? & ? & _). }
  split; intros (pts & Hpts & ->); exists pts; (split; [|done]);
    (eapply Forall2_impl; [done|]); intros lm pt; by rewrite Hpt.
Qed.

(** C2 (as amended).  Whenever the transform returns a map, the map holds
    under each landmark's index [idx] the entry
    [(w - trunc(xn*w) + dx, trunc(yn*h))]: the truncation applies to [xn*w]
    before the reflection, not to [w - xn*w].  It returns a map exactly when
    every coordinate product converts to an integer. *)
Theorem mirror_entry_truncates_then_reflects self landmarks h w c :
  (∀ d idx lm,
     create_mirrored_landmarks self landmarks (h, w, c) = Ok d →
     landmarks !! idx = Some lm →
     ∃ px py,
       to_pixel (lm_x lm) w = Ok px ∧ to_pixel (lm_y lm) h = Ok py
       ∧ PyDict.get (Z.of_nat idx) d = Some (w - px + offset_x self, py))
  ∧ ((∃ d, create_mirrored_landmarks self landmarks (h, w, c) = Ok d) ↔
     Forall (λ lm, ∃ px py, to_pixel (lm_x lm) w = Ok px
                            ∧ to_pixel (lm_y lm) h = Ok py) landmarks).
Proof.
  split.
  - intros d idx lm Hd Hidx.
    apply create_mirrored_landmarks_spec in Hd as (pts & Hpts & ->).
    destruct (Forall2_lookup_l _ _ _ _ _ Hpts Hidx)
      as (pt & Hpt & px & py & Hpx & Hpy & ->).
    exists px, py. split_and!; [done|done|].
    by apply (PyDictFacts.get_zip_seqZ pts 0 idx).
  - split.
    + intros (d & Hd).
      apply create_mirrored_landmarks_spec in Hd as (pts & Hpts & _).
      apply Forall2_Forall_l with (Q := λ lm, ∃ px py,
        to_pixel (lm_x lm) w = Ok px ∧ to_pixel (lm_y lm) h = Ok py)
        in Hpts; [done|].
      apply Forall_true. intros pt lm (px & py & ? & ? & _). eauto.
    + intros Hall.
      assert (Forall (λ lm, ∃ pt, ∃ px py,
                to_pixel (lm_x lm) w = Ok px ∧ to_pixel (lm_y lm) h = Ok py
                ∧ pt = (w - px + offset_x self, py)) landmarks) as Hall'.
      { eapply Forall_impl; [exact Hall|]. intros lm (px & py & ? & ?).
        eexists. exists px, py. done. }
      apply Forall_exists_Forall2_l in Hall' as (pts & Hpts).
      eexists. apply create_mirrored_landmarks_spec. by exists pts.
Qed.

Lemma mirror_entry_truncates_then_reflects_witness :
  ∃ px py,
    to_pixel 0.5 3 = Ok px ∧ to_pixel 0.5 3 = Ok py
    ∧ PyDict.get 0 [(0, (2, 1))]
      = Some (3 - px + offset_x zero_offset_visualizer, py).
Proof.
  apply (proj1 (mirror_entry_truncates_then_reflects zero_offset_visualizer
                  [Landmark 0.5 0.5 0 1] 3 3 3)
           [(0, (2, 1))] 0%nat (Landmark 0.5 0.5 0 1)).
  - vm_compute. reflexivity.
  - reflexivity.
Defined.

(** With normalized keypoints and exact frame dimensions every pass of the
    loop succeeds, and the pixel coordinates stay inside the frame. *)
Lemma create_mirrored_landmarks_normalized self landmarks h w c :
  Forall normalized_landmark landmarks →
  exact_dimension h → exact_dimension w →
  ∃ pts,
    Forall2 (λ lm pt, ∃ px py,
               to_pixel (lm_x lm) w = Ok px ∧ to_pixel (lm_y lm) h = Ok py
               ∧ 0 ≤ px ≤ w ∧ 0 ≤ py ≤ h
               ∧ pt = (w - px + offset_x self, py)) landmarks pts
    ∧ create_mirrored_landmarks self landmarks (h, w, c)
      = Ok (zip (seqZ 0 (Z.of_nat (length pts))) pts).
Proof.
  intros Hn Hh Hw.
  assert (Forall (λ lm, ∃ pt, ∃ px py,
            to_pixel (lm_x lm) w = Ok px ∧ to_pixel (lm_y lm) h = Ok py
            ∧ 0 ≤ px ≤ w ∧ 0 ≤ py ≤ h
            ∧ pt = (w - px + offset_x self, py)) landmarks) as Hall.
  { eapply Forall_impl; [exact Hn|]. intros lm [Hx Hy].
    destruct (Binary64.to_pixel_normalized _ w Hw Hx) as (px & Hpx & Hpxb).
    destruct (Binary64.to_pixel_normalized _ h Hh Hy) as (py & Hpy & Hpyb).
    eexists. exists px, py. done. }
  apply Forall_exists_Forall2_l in Hall as (pts & Hpts).
  exists pts. split; [done|].
  apply create_mirrored_landmarks_spec. exists pts. split; [|done].
  eapply Forall2_impl; [done|]. simpl.
  intros lm pt (px & py & ? & ? & _ & _ & ?). eauto.
Qed.

(** C1.  For normalized keypoints and frame dimensions [(h, w)] (below
    [2^53], so exact as floats), the transform maps the index of each
    landmark to
    [(w - pixel_x + dx, pixel_y)] with [pixel_x = trunc(xn*w)] and
    [pixel_y = trunc(yn*h)]: y is the pixel row unchanged, and x is stored
    as computed, also when it lies at or beyond [w] or below [0]. *)
Theorem mirror_maps_index_to_reflected_pixel self landmarks h w c idx lm :
  Forall normalized_landmark landmarks →
  exact_dimension h → exact_dimension w →
  landmarks !! idx = Some lm →
  ∃ d px py,
    create_mirrored_landmarks self landmarks (h, w, c) = Ok d
    ∧ to_pixel (lm_x lm) w = Ok px ∧ to_pixel (lm_y lm) h = Ok py
    ∧ 0 ≤ px ≤ w ∧ 0 ≤ py ≤ h
    ∧ PyDict.get (Z.of_nat idx) d = Some (w - px + offset_x self, py)
    ∧ (px ≤ offset_x self → w ≤ w - px + offset_x self)
    ∧ (offset_x self < px - w → w - px + offset_x self < 0).
Proof.
  intros Hn Hh Hw Hidx.
  destruct (create_mirrored_landmarks_normalized self landmarks h w c Hn Hh Hw)
    as (pts & Hpts & ->).
  destruct (Forall2_lookup_l _ _ _ _ _ Hpts Hidx)
    as (pt & Hpt & px & py & Hpx & Hpy & Hpxb & Hpyb & ->).
  eexists _, px, py. split_and!; try done; try lia.
  by apply (PyDictFacts.get_zip_seqZ pts 0 idx).
Qed.

Lemma mirror_maps_index_to_reflected_pixel_witness :
  ∃ d, create_mirrored_landmarks default_visualizer
         [Landmark 0.5 0.5 0 1; Landmark 0.25 1 0 1] (100, 100, 3) = Ok d
       ∧ PyDict.get 1 d = Some (225, 100).
Proof.
  destruct (mirror_maps_index_to_reflected_pixel default_visualizer
              [Landmark 0.5 0.5 0 1; Landmark 0.25 1 0 1] 100 100 3 1%nat
              (Landmark 0.25 1 0 1))
    as (d & px & py & Hd & Hpx & Hpy & _ & _ & Hget & _).
  - repeat constructor.
  - unfold exact_dimension. lia.
  - unfold exact_dimension. lia.
  - reflexivity.
  - exists d. split; [exact Hd|].
    assert (to_pixel 0.25 100 = Ok 25) as H25 by (vm_compute; reflexivity).
    assert (to_pixel 1 100 = Ok 100) as H100 by (vm_compute; reflexivity).
    simpl in Hpx, Hpy. rewrite H25 in Hpx. rewrite H100 in Hpy.
    injection Hpx as <-. injection Hpy as <-. exact Hget.
Defined.

(** C8.  Whenever the transform produces a map, the map has exactly one
    entry for every index of the input: its keys are [0, 1, ..., n-1] in
    order, each once, so the key set is the input's index set.  For the
    keypoints of the data model (coordinates in [[0, 1]]) it does produce
    a map. *)
Theorem mirrored_keys_are_input_indices self landmarks h w c :
  (∀ d, create_mirrored_landmarks self landmarks (h, w, c) = Ok d →
        PyDict.keys d = seqZ 0 (Z.of_nat (length landmarks))
        ∧ NoDup (PyDict.keys d)
        ∧ length d = length landmarks
        ∧ ∀ idx, is_Some (landmarks !! idx)
                 ↔ is_Some (PyDict.get (Z.of_nat idx) d))
  ∧ (Forall normalized_landmark landmarks →
     exact_dimension h → exact_dimension w →
     ∃ d, create_mirrored_landmarks self landmarks (h, w, c) = Ok d).
Proof.
  split.
  - intros d Hd. apply create_mirrored_landmarks_spec in Hd
      as (pts & Hpts & ->).
    pose proof (Forall2_length _ _ _ Hpts) as Hlen.
    rewrite PyDictFacts.keys_zip_seqZ, Hlen.
    split_and!; [done|apply NoDup_seqZ| |].
    + rewrite length_zip, length_seqZ. lia.
    + intros idx. rewrite <- PyDictFacts.contains_get.
      unfold PyDict.contains. rewrite bool_decide_eq_true.
      fold (PyDict.keys (zip (seqZ 0 (Z.of_nat (length pts))) pts)).
      rewrite PyDictFacts.keys_zip_seqZ, elem_of_seqZ, lookup_lt_is_Some. lia.
  - intros Hn Hh Hw.
    destruct (create_mirrored_landmarks_normalized self landmarks h w c
                Hn Hh Hw) as (pts & _ & Hd).
    by eexists.
Qed.

Lemma mirrored_keys_are_input_indices_witness :
  ∃ d, create_mirrored_landmarks default_visualizer
         [Landmark 0.5 0.5 0 1; Landmark 0.25 1 0 1] (100, 100, 3) = Ok d
       ∧ PyDict.keys d = [0; 1]
       ∧ NoDup (PyDict.keys d).
Proof.
  destruct (mirrored_keys_are_input_indices default_visualizer
              [Landmark 0.5 0.5 0 1; Landmark 0.25 1 0 1] 100 100 3)
    as [Hkeys Htotal].
  destruct Htotal as (d & Hd).
  - repeat constructor.
  - unfold exact_dimension. lia.
  - unfold exact_dimension. lia.
  - destruct (Hkeys d Hd) as (Hk & Hnd & _).
    exists d. split_and!; [exact Hd|exact Hk|exact Hnd].
Defined.

(** C2 (as stated) fails.  On a frame three pixels wide a landmark at
    [xn = 0.5] gets [x = 3 - trunc(1.5) = 2], while the contract's
    [round(w - xn*w) + dx] is [trunc(1.5) = 1]. *)
Lemma contract_formula_counterexample :
  ∃ d sx,
    create_mirrored_landmarks zero_offset_visualizer
      [Landmark 0.5 0.5 0 1] (3, 3, 3) = Ok d
    ∧ PyDict.get 0 d = Some (2, 1)
    ∧ contract_mirror_x zero_offset_visualizer 3 0.5 = Ok sx
    ∧ PyDict.get 0 d ≠ Some (sx, 1).
Proof.
  exists [(0, (2, 1))], 1. split_and!.
  - vm_compute. reflexivity.
  - reflexivity.
  - vm_compute. reflexivity.
  - simpl. congruence.
Qed.

(** One landmark gives a one-entry map. *)
Lemma create_mirrored_landmarks_single self lm h w c px py :
  to_pixel (lm_x lm) w = Ok px → to_pixel (lm_y lm) h = Ok py →
  create_mirrored_landmarks self [lm] (h, w, c)
  = Ok [(0, (w - px + offset_x self, py))].
Proof.
  intros Hpx Hpy. unfold create_mirrored_landmarks. simpl.
  unfold mirror_point. rewrite Hpx. simpl. rewrite Hpy. done.
Qed.

(** C7.  With [dx = 0] and a frame width [0 < w <= 2^52], mirroring a
    normalized x-coordinate, dividing the resulting pixel x by [w], and
    mirroring again returns the original pixel x up to one pixel. *)
Theorem mirror_twice_within_one_pixel self lm h w c :
  offset_x self = 0 →
  normalized_landmark lm →
  exact_dimension h → 0 < w ≤ 2 ^ 52 →
  ∃ px py mx xn' mx2,
    to_pixel (lm_x lm) w = Ok px
    ∧ create_mirrored_landmarks self [lm] (h, w, c) = Ok [(0, (mx, py))]
    ∧ renormalize mx w = Ok xn'
    ∧ create_mirrored_landmarks self
        [Landmark xn' (lm_y lm) (lm_z lm) (lm_visibility lm)] (h, w, c)
      = Ok [(0, (mx2, py))]
    ∧ px - 1 ≤ mx2 ≤ px + 1.
Proof.
  intros Hdx [Hx Hy] Hh Hw.
  assert (2 ^ 52 < 2 ^ 53) as H5253 by (apply Z.pow_lt_mono_r; lia).
  assert (exact_dimension w) as Hw' by (unfold exact_dimension; lia).
  destruct (Binary64.to_pixel_normalized _ w Hw' Hx) as (px & Hpx & Hpxb).
  destruct (Binary64.to_pixel_normalized _ h Hh Hy) as (py & Hpy & Hpyb).
  destruct (Binary64.int_truediv_between (w - px) w ltac:(lia) Hw)
    as (r & Hr & Hrb).
  destruct (Binary64.to_pixel_between r w (Z.max 0 (w - px - 1)) (w - px + 1))
    as (p2 & Hp2 & Hp2b); [done|lia|lia|done|].
  exists px, py, (w - px), r, (w - p2). split_and!; [done| |done| |lia|lia].
  - rewrite (create_mirrored_landmarks_single self lm h w c px py) by done.
    rewrite Hdx. do 4 f_equal. lia.
  - rewrite (create_mirrored_landmarks_single self _ h w c p2 py) by done.
    rewrite Hdx. do 4 f_equal. lia.
Qed.

Lemma mirror_twice_within_one_pixel_witness :
  ∃ px py mx xn' mx2,
    to_pixel 0.984375 49 = Ok px
    ∧ create_mirrored_landmarks zero_offset_visualizer
        [Landmark 0.984375 0.5 0 1] (49, 49, 3) = Ok [(0, (mx, py))]
    ∧ renormalize mx 49 = Ok xn'
    ∧ create_mirrored_landmarks zero_offset_visualizer
        [Landmark xn' 0.5 0 1] (49, 49, 3) = Ok [(0, (mx2, py))]
    ∧ px - 1 ≤ mx2 ≤ px + 1.
Proof.
  apply (mirror_twice_within_one_pixel zero_offset_visualizer
           (Landmark 0.984375 0.5 0 1) 49 49 3).
  - reflexivity.
  - split; reflexivity.
  - unfold exact_dimension. lia.
  - lia.
Defined.

(** The tolerance in C7 is needed: on a frame 49 pixels wide the pixel
    [x = 48] comes back as [49], because [1/49 * 49] rounds below [1]. *)
Lemma mirror_twice_not_exact :
  ∃ xn',
    create_mirrored_landmarks zero_offset_visualizer
      [Landmark 0.984375 0.5 0 1] (49, 49, 3) = Ok [(0, (1, 24))]
    ∧ to_pixel 0.984375 49 = Ok 48
    ∧ renormalize 1 49 = Ok xn'
    ∧ create_mirrored_landmarks zero_offset_visualizer
        [Landmark xn' 0.5 0 1] (49, 49, 3) = Ok [(0, (49, 24))].
Proof.
  eexists. split_and!.
  - vm_compute. reflexivity.
  - vm_compute. reflexivity.
  - vm_compute. reflexivity.
  - vm_compute. reflexivity.
Qed.

(** ** Running a computation step by step *)

Lemma state_eta s :
  {| heap := heap s; trace := trace s; video_source := video_source s |} = s.
Proof. by destruct s. Qed.

Lemma bind_run {A B} (m : M A) (f : A → M B) s :
  (m ≫= f) s
  = match m s with
    | (Ok a, s') => f a s'
    | (Raise e, s') => (Raise e, s')
    end.
Proof. done. Qed.

Lemma log_run e s : log e s = (Ok (), record [e] s).
Proof. done. Qed.

Lemma alloc_run img s :
  alloc img s
  = (Ok (fresh (dom (heap s))), store (fresh (dom (heap s))) img s).
Proof. done. Qed.

Lemma fresh_loc_unused (s : state) : heap s !! fresh (dom (heap s)) = None.
Proof. apply not_elem_of_dom, is_fresh. Qed.

Lemma insert_fresh_subseteq (m : gmap loc image) img :
  m ⊆ <[fresh (dom m) := img]> m.
Proof. apply insert_subseteq, not_elem_of_dom, is_fresh. Qed.

(** ** Drawing calls on one array *)

Section Painting.
Context `{OpenCV}.

Lemma apply_draw_shape img e img' :
  apply_draw img e = Ok img' → shape img' = shape img.
Proof.
  destruct e; simpl; try (by intros [= <-]).
  - apply raster_circle_shape.
  - apply raster_line_shape.
Qed.

Lemma apply_draw_uint8 img e img' :
  apply_draw img e = Ok img' → uint8_array img → uint8_array img'.
Proof.
  destruct e; simpl; try (by intros [= <-]).
  - apply raster_circle_uint8.
  - apply raster_line_uint8.
Qed.

Lemma paint_app calls1 calls2 : ∀ img,
  paint img (calls1 ++ calls2)
  = match rejection (paint img calls1) with
    | Some x => paint img calls1
    | None =>
        let p := paint (painted (paint img calls1)) calls2 in
        {| rejection := rejection p; painted := painted p;
           calls_made := calls_made (paint img calls1) ++ calls_made p |}
    end.
Proof.
  induction calls1 as [|e calls1 IH]; intros img; simpl.
  - by destruct (paint img calls2).
  - destruct (apply_draw img e) as [img'|x]; simpl; [|done].
    rewrite IH.
    destruct (rejection (paint img' calls1)) eqn:E; simpl; by rewrite ?E.
Qed.

Lemma paint_shape calls : ∀ img,
  shape (painted (paint img calls)) = shape img.
Proof.
  induction calls as [|e calls IH]; intros img; simpl; [done|].
  destruct (apply_draw img e) as [img'|x] eqn:He; simpl; [|done].
  rewrite IH. by eapply apply_draw_shape.
Qed.

Lemma paint_uint8 calls : ∀ img,
  uint8_array img → uint8_array (painted (paint img calls)).
Proof.
  induction calls as [|e calls IH]; intros img Hu; simpl; [done|].
  destruct (apply_draw img e) as [img'|x] eqn:He; simpl; [|done].
  apply IH. by eapply apply_draw_uint8.
Qed.

(** The calls made are the calls asked for, up to the rejected one. *)
Lemma paint_prefix calls : ∀ img,
  calls_made (paint img calls) `prefix_of` calls.
Proof.
  induction calls as [|e calls IH]; intros img; simpl; [done|].
  destruct (apply_draw img e) as [img'|x]; simpl.
  - apply prefix_cons, IH.
  - by exists calls.
Qed.

Lemma paint_accepted calls : ∀ img,
  rejection (paint img calls) = None → calls_made (paint img calls) = calls.
Proof.
  induction calls as [|e calls IH]; intros img; simpl; [done|].
  destruct (apply_draw img e) as [img'|x]; simpl; [|done].
  intros Hr. by rewrite IH.
Qed.

(** An exception is OpenCV's answer to the last call made. *)
Lemma paint_rejected calls : ∀ img x,
  rejection (paint img calls) = Some x →
  ∃ before last img0,
    calls_made (paint img calls) = before ++ [last]
    ∧ shape img0 = shape img
    ∧ apply_draw img0 last = Raise x.
Proof.
  induction calls as [|e calls IH]; intros img x; simpl; [done|].
  destruct (apply_draw img e) as [img'|x'] eqn:He; simpl.
  - intros Hr. destruct (IH img' x Hr) as (before & last & img0 & -> & Hs & Hx).
    exists (e :: before), last, img0. split_and!; [done| |done].
    rewrite Hs. by eapply apply_draw_shape.
  - intros [= ->]. by exists [], e, img.
Qed.

(** When OpenCV accepts each call on every array of this shape, all calls
    are made. *)
Lemma paint_all_accepted calls : ∀ img,
  (∀ img0 e, shape img0 = shape img → e ∈ calls →
             ∃ img', apply_draw img0 e = Ok img') →
  rejection (paint img calls) = None.
Proof.
  induction calls as [|e calls IH]; intros img Hok; simpl; [done|].
  destruct (Hok img e eq_refl (list_elem_of_here _ _)) as [img' He].
  rewrite He. simpl. apply IH. intros img0 e' Hs Hin.
  apply Hok; [|by apply list_elem_of_further].
  rewrite Hs. by eapply apply_draw_shape.
Qed.

End Painting.

(** ** The renderer and the compositor *)

Section Rendering.
Context `{OpenCV}.

#[local] Arguments draw_connection : simpl never.

Lemma cv2_circle_run replica p r col t s img :
  heap s !! replica = Some img →
  cv2_circle replica p r col t s
  = match raster_circle img p r col t with
    | Ok img' =>
        (Ok (), store replica img' (record [EvCircle replica p r col t] s))
    | Raise x => (Raise x, record [EvCircle replica p r col t] s)
    end.
Proof.
  intros Hs. unfold cv2_circle. rewrite bind_run, log_run. cbv beta iota.
  rewrite bind_run. unfold load at 1. simpl heap. rewrite Hs. cbv beta iota.
  rewrite bind_run. unfold lift at 1.
  destruct (raster_circle img p r col t) as [img'|x]; [|done].
  cbv beta iota. unfold modify. simpl heap. by rewrite Hs.
Qed.

Lemma cv2_line_run replica p q col t s img :
  heap s !! replica = Some img →
  cv2_line replica p q col t s
  = match raster_line img p q col t with
    | Ok img' =>
        (Ok (), store replica img' (record [EvLine replica p q col t] s))
    | Raise x => (Raise x, record [EvLine replica p q col t] s)
    end.
Proof.
  intros Hs. unfold cv2_line. rewrite bind_run, log_run. cbv beta iota.
  rewrite bind_run. unfold load at 1. simpl heap. rewrite Hs. cbv beta iota.
  rewrite bind_run. unfold lift at 1.
  destruct (raster_line img p q col t) as [img'|x]; [|done].
  cbv beta iota. unfold modify. simpl heap. by rewrite Hs.
Qed.

(** The state in which a painting of the array at [replica] ends. *)
Lemma painted_state_nil replica img s :
  heap s !! replica = Some img →
  store replica img (record [] s) = s.
Proof.
  intros Hs. unfold store, record. simpl.
  rewrite insert_id by done. rewrite app_nil_r. apply state_eta.
Qed.

Lemma for_each_circles self replica positions : ∀ s img,
  heap s !! replica = Some img →
  for_each
    (λ position,
       cv2_circle replica position (circle_radius self)
         (landmark_color self) (-1)) positions s
  = let p := paint img
               ((λ p, EvCircle replica p (circle_radius self)
                        (landmark_color self) (-1)) <$> positions) in
    (outcome_of (rejection p) (),
     store replica (painted p) (record (calls_made p) s)).
Proof.
  induction positions as [|p ps IH]; intros s img Hs.
  - simpl. by rewrite painted_state_nil.
  - cbn [for_each fmap list_fmap paint apply_draw].
    rewrite bind_run, (cv2_circle_run _ _ _ _ _ _ img) by done.
    destruct (raster_circle img p (circle_radius self) (landmark_color self)
                (-1)) as [img'|x]; simpl.
    + erewrite IH; [|apply lookup_insert_eq]. simpl.
      unfold store, record. simpl.
      by rewrite insert_insert_eq, <- app_assoc.
    + unfold store, record. simpl. by rewrite insert_id.
Qed.

Lemma draw_connection_spec self replica ml a b s :
  draw_connection self replica ml (a, b) s
  = match PyDict.get a ml, PyDict.get b ml with
    | Some p, Some q =>
        cv2_line replica p q (connection_color self) (line_thickness self) s
    | _, _ => (Ok (), s)
    end.
Proof.
  unfold draw_connection.
  destruct (PyDict.contains a ml) eqn:Ha; simpl.
  - destruct (PyDict.contains b ml) eqn:Hb; simpl.
    + destruct (PyDictFacts.getitem_contains _ _ Ha) as (p & Hp & ->).
      destruct (PyDictFacts.getitem_contains _ _ Hb) as (q & Hq & ->).
      unfold mbind, M_bind, lift. by rewrite Hp, Hq.
    + assert (PyDict.get b ml = None) as ->.
      { apply eq_None_not_Some. rewrite <- PyDictFacts.contains_get.
        by rewrite Hb. }
      by destruct (PyDict.get a ml).
  - assert (PyDict.get a ml = None) as ->.
    { apply eq_None_not_Some. rewrite <- PyDictFacts.contains_get.
      by rewrite Ha. }
    done.
Qed.

Lemma for_each_connections self replica ml connections : ∀ s img,
  heap s !! replica = Some img →
  for_each (draw_connection self replica ml) connections s
  = let p := paint img (line_calls self replica ml connections) in
    (outcome_of (rejection p) (),
     store replica (painted p) (record (calls_made p) s)).
Proof.
  unfold line_calls.
  induction connections as [|[a b] cs IH]; intros s img Hs.
  - simpl. by rewrite painted_state_nil.
  - cbn [for_each]. rewrite bind_run, draw_connection_spec.
    unfold connection_ends in *. cbn [omap list_omap].
    destruct (PyDict.get a ml) as [p|]; [destruct (PyDict.get b ml) as [q|]|].
    + cbn [fmap list_fmap paint apply_draw].
      rewrite (cv2_line_run _ _ _ _ _ _ img) by done.
      destruct (raster_line img p q (connection_color self)
                  (line_thickness self)) as [img'|x]; simpl.
      * erewrite IH; [|apply lookup_insert_eq]. simpl.
        unfold store, record. simpl.
        by rewrite insert_insert_eq, <- app_assoc.
      * unfold store, record. simpl. by rewrite insert_id.
    + by apply IH.
    + by apply IH.
Qed.

(** What [draw_mirrored_pose] does to the state, in full: the canvas is a
    new array, and the calls are made on it up to the first that OpenCV
    rejects. *)
Lemma draw_mirrored_pose_spec self frame ml connections s f :
  heap s !! frame = Some f →
  let replica := fresh (dom (heap s)) in
  let p := rendering self f replica ml connections in
  draw_mirrored_pose self frame ml connections s
  = (outcome_of (rejection p) replica,
     store replica (painted p) (record (calls_made p) s)).
Proof.
  intros Hf replica p. unfold draw_mirrored_pose, np_zeros_like.
  rewrite bind_run, bind_run. unfold load at 1. rewrite Hf. cbv beta iota.
  rewrite alloc_run. cbv beta iota. fold replica.
  rewrite bind_run.
  rewrite (for_each_circles self replica _ _ (zeros_like f))
    by apply lookup_insert_eq.
  cbv zeta. unfold p, rendering, draw_calls. rewrite paint_app.
  fold (circle_calls self replica ml).
  set (pc := paint (zeros_like f) (circle_calls self replica ml)).
  destruct (rejection pc) as [x|] eqn:Hx; simpl.
  - rewrite Hx. simpl. unfold store, record. simpl.
    by rewrite insert_insert_eq.
  - rewrite bind_run.
    rewrite (for_each_connections self replica ml connections _ (painted pc))
      by apply lookup_insert_eq.
    cbv zeta.
    set (pl := paint (painted pc) (line_calls self replica ml connections)).
    destruct (rejection pl) as [x|]; simpl;
      unfold store, record; simpl;
      by rewrite !insert_insert_eq, <- app_assoc.
Qed.

Lemma create_composite_run self a b s ia ib :
  heap s !! a = Some ia → heap s !! b = Some ib →
  create_composite self a b s
  = match cv_add ia ib with
    | Ok sum => (Ok (fresh (dom (heap s))), store (fresh (dom (heap s))) sum s)
    | Raise x => (Raise x, s)
    end.
Proof.
  intros Ha Hb. unfold create_composite, cv2_add.
  rewrite bind_run. unfold load at 1. rewrite Ha. cbv beta iota.
  rewrite bind_run. unfold load at 1. rewrite Hb. cbv beta iota.
  rewrite bind_run. unfold lift at 1.
  by destruct (cv_add ia ib).
Qed.

Lemma create_composite_spec self a b s ia ib :
  heap s !! a = Some ia → heap s !! b = Some ib →
  shape ia = shape ib → color_frame ia → uint8_array ib →
  create_composite self a b s
  = (Ok (fresh (dom (heap s))),
     store (fresh (dom (heap s))) (add_images ia ib) s).
Proof.
  intros Ha Hb Hshape Hia Hib.
  rewrite (create_composite_run self a b s ia ib) by done.
  by rewrite cv_add_saturating.
Qed.

End Rendering.

(** ** What the renderer asks OpenCV to draw *)

Lemma get_Some_values {V} k (d : PyDict.t V) v :
  PyDict.get k d = Some v → v ∈ PyDict.values d.
Proof.
  unfold PyDict.values. induction d as [|[k' v'] d IH]; simpl; [done|].
  case_decide.
  - intros [= ->]. apply list_elem_of_here.
  - intros Hv. apply list_elem_of_further. by apply IH.
Qed.

Lemma circle_calls_are_circles self replica ml :
  Forall (λ e, is_circle e = true) (circle_calls self replica ml)
  ∧ Forall (λ e, is_line e = false) (circle_calls self replica ml).
Proof. unfold circle_calls. split; apply Forall_fmap, Forall_true; done. Qed.

Lemma line_calls_are_lines self replica ml connections :
  Forall (λ e, is_line e = true) (line_calls self replica ml connections)
  ∧ Forall (λ e, is_circle e = false)
      (line_calls self replica ml connections).
Proof.
  unfold line_calls. split; apply Forall_fmap, Forall_true; by intros [p q].
Qed.

Lemma draw_calls_target self replica ml connections :
  Forall (λ e, draw_target e = Some replica)
    (draw_calls self replica ml connections).
Proof.
  apply Forall_app. unfold circle_calls, line_calls.
  split; apply Forall_fmap, Forall_true; [done|by intros [p q]].
Qed.

Lemma draw_calls_are_draws self replica ml connections :
  Forall (λ e, is_draw e = true) (draw_calls self replica ml connections).
Proof.
  apply Forall_app. unfold circle_calls, line_calls.
  split; apply Forall_fmap, Forall_true; [done|by intros [p q]].
Qed.

Lemma length_connection_ends ml connections :
  length (connection_ends ml connections)
  = length (filter (λ c, PyDict.contains c.1 ml && PyDict.contains c.2 ml
                         = true) connections).
Proof.
  unfold connection_ends. induction connections as [|[a b] cs IH]; [done|].
  rewrite filter_cons. simpl.
  destruct (PyDict.contains a ml) eqn:Ha; simpl.
  - destruct (PyDict.contains b ml) eqn:Hb; simpl.
    + destruct (PyDictFacts.getitem_contains _ _ Ha) as (p & _ & ->).
      destruct (PyDictFacts.getitem_contains _ _ Hb) as (q & _ & ->).
      simpl. f_equal. apply IH.
    + assert (PyDict.get b ml = None) as ->.
      { apply eq_None_not_Some. rewrite <- PyDictFacts.contains_get.
        by rewrite Hb. }
      destruct (PyDict.get a ml); apply IH.
  - assert (PyDict.get a ml = None) as ->.
    { apply eq_None_not_Some. rewrite <- PyDictFacts.contains_get.
      by rewrite Ha. }
    apply IH.
Qed.

(** A line is asked for exactly the pairs with both end points in the
    map. *)
Lemma line_calls_spec self replica ml connections :
  (∀ a b p q, (a, b) ∈ connections →
     PyDict.get a ml = Some p → PyDict.get b ml = Some q →
     EvLine replica p q (connection_color self) (line_thickness self)
       ∈ line_calls self replica ml connections)
  ∧ (∀ e, e ∈ line_calls self replica ml connections →
       ∃ a b p q, (a, b) ∈ connections
         ∧ PyDict.contains a ml = true ∧ PyDict.contains b ml = true
         ∧ PyDict.get a ml = Some p ∧ PyDict.get b ml = Some q
         ∧ e = EvLine replica p q (connection_color self)
                 (line_thickness self))
  ∧ length (line_calls self replica ml connections)
    = length (filter (λ c, PyDict.contains c.1 ml
                           && PyDict.contains c.2 ml = true) connections).
Proof.
  split_and!.
  - intros a b p q Hab Hp Hq. unfold line_calls.
    apply (list_elem_of_fmap_2' _ _ (p, q)); [|done].
    apply list_elem_of_omap. exists (a, b). split; [done|].
    by rewrite Hp, Hq.
  - intros e He. unfold line_calls in He.
    apply list_elem_of_fmap in He as ([p q] & -> & Hpq).
    apply list_elem_of_omap in Hpq as ([a b] & Hab & Hget).
    destruct (PyDict.get a ml) as [p'|] eqn:Hp; [|done].
    destruct (PyDict.get b ml) as [q'|] eqn:Hq; [|done].
    injection Hget as -> ->. exists a, b, p, q.
    split_and!; try done; apply PyDictFacts.contains_get; by eexists.
  - unfold line_calls. rewrite length_fmap. apply length_connection_ends.
Qed.

(** Once a line has been asked for, all circles have. *)
Lemma circles_precede_lines self replica ml connections made e :
  made `prefix_of` draw_calls self replica ml connections →
  e ∈ made → is_line e = true →
  circle_calls self replica ml `prefix_of` made.
Proof.
  intros Hmade He Hline.
  destruct (prefix_weak_total made (circle_calls self replica ml)
              (draw_calls self replica ml connections))
    as [Hshort|Hlong]; [done|by apply prefix_app_r| |done].
  destruct Hshort as [k Hk].
  destruct (circle_calls_are_circles self replica ml) as [_ Hnl].
  rewrite Hk, Forall_app in Hnl. destruct Hnl as [Hnl _].
  rewrite Forall_forall in Hnl. specialize (Hnl e He). congruence.
Qed.

Section RenderingClaims.
Context `{OpenCV}.

(** The outcome of the renderer, however OpenCV answers. *)
Lemma draw_mirrored_pose_outcome self frame ml connections s f :
  heap s !! frame = Some f →
  let replica := fresh (dom (heap s)) in
  let p := rendering self f replica ml connections in
  draw_mirrored_pose self frame ml connections s
  = (outcome_of (rejection p) replica,
     store replica (painted p) (record (calls_made p) s))
  ∧ calls_made p `prefix_of` draw_calls self replica ml connections
  ∧ shape (painted p) = shape f
  ∧ uint8_array (painted p)
  ∧ (∀ x, rejection p = Some x →
       ∃ before last img,
         calls_made p = before ++ [last] ∧ shape img = shape f
         ∧ apply_draw img last = Raise x)
  ∧ (rejection p = None →
     calls_made p = draw_calls self replica ml connections)
  ∧ (drawable self f ml connections → rejection p = None).
Proof.
  intros Hf replica p. split_and!.
  - by apply draw_mirrored_pose_spec.
  - apply paint_prefix.
  - unfold p, rendering. by rewrite paint_shape.
  - apply paint_uint8. split; simpl.
    + by rewrite length_replicate.
    + apply Forall_replicate. lia.
  - intros x Hx. apply paint_rejected in Hx
      as (before & last & img & Hmade & Hs & Hlast).
    by exists before, last, img.
  - apply paint_accepted.
  - intros Hok. apply paint_all_accepted. intros img e Hs He.
    by apply (Hok img replica e).
Qed.

(** C5.  The renderer asks OpenCV for one filled circle per entry of the
    map and then for the lines, and a line is asked for a pair [(a, b)] of
    the topology exactly when both [a] and [b] are keys of the map.  The
    calls are made in this order up to the first that OpenCV rejects, so
    every circle is drawn before any line.  A pair with a missing end
    point gives no call and no error: an exception of the renderer is
    always OpenCV's answer to the last call made.  When OpenCV accepts the
    calls, all of them are made and the canvas is returned. *)
Theorem renderer_draws_line_iff_both_endpoints self frame ml connections
    s f :
  heap s !! frame = Some f →
  let replica := fresh (dom (heap s)) in
  ∃ r s' made,
    draw_mirrored_pose self frame ml connections s = (r, s')
    ∧ trace s' = trace s ++ made
    ∧ made `prefix_of` circle_calls self replica ml
                         ++ line_calls self replica ml connections
    ∧ Forall (λ e, is_circle e = true) (circle_calls self replica ml)
    ∧ Forall (λ e, is_line e = true)
        (line_calls self replica ml connections)
    ∧ (∀ e, e ∈ made → is_line e = true →
         circle_calls self replica ml `prefix_of` made)
    ∧ (∀ a b p q, (a, b) ∈ connections →
         PyDict.get a ml = Some p → PyDict.get b ml = Some q →
         EvLine replica p q (connection_color self) (line_thickness self)
           ∈ line_calls self replica ml connections)
    ∧ (∀ e, e ∈ line_calls self replica ml connections →
         ∃ a b p q, (a, b) ∈ connections
           ∧ PyDict.contains a ml = true ∧ PyDict.contains b ml = true
           ∧ PyDict.get a ml = Some p ∧ PyDict.get b ml = Some q
           ∧ e = EvLine replica p q (connection_color self)
                   (line_thickness self))
    ∧ length (line_calls self replica ml connections)
      = length (filter (λ c, PyDict.contains c.1 ml
                             && PyDict.contains c.2 ml = true) connections)
    ∧ (∀ x, r = Raise x →
         ∃ before last img,
           made = before ++ [last] ∧ shape img = shape f
           ∧ apply_draw img last = Raise x)
    ∧ (∀ l, r = Ok l →
         l = replica
         ∧ made = circle_calls self replica ml
                    ++ line_calls self replica ml connections)
    ∧ (drawable self f ml connections →
       r = Ok replica
       ∧ made = circle_calls self replica ml
                  ++ line_calls self replica ml connections).
Proof.
  intros Hf replica.
  destruct (draw_mirrored_pose_outcome self frame ml connections s f Hf)
    as (Hrun & Hprefix & _ & _ & Hrej & Hacc & Hok).
  fold replica in Hrun, Hprefix, Hrej, Hacc, Hok.
  set (p := rendering self f replica ml connections) in *.
  destruct (line_calls_spec self replica ml connections)
    as (Hin & Hfrom & Hlen).
  eexists _, _, (calls_made p). split; [exact Hrun|].
  split_and!; try done.
  - apply circle_calls_are_circles.
  - apply line_calls_are_lines.
  - intros e He Hline. by eapply circles_precede_lines.
  - intros x Hx. apply Hrej. by destruct (rejection p) as [y|]; simplify_eq/=.
  - intros l Hl. destruct (rejection p) as [y|] eqn:Hy; simplify_eq/=.
    split; [done|]. by apply Hacc.
  - intros Hd. rewrite (Hok Hd). split; [done|]. apply Hacc, Hok, Hd.
Qed.

(** C10.  [draw_mirrored_pose] leaves the input frame, and every other
    array alive before the call, unchanged, whether OpenCV accepts the
    drawing calls or rejects one: it allocates a new array of the frame's
    shape, zero-initialised, every circle and line call writes to that
    array, and what the call returns is that array's location.  When
    OpenCV accepts the calls, the call returns, and the array holds all
    circles and lines. *)
Theorem draw_mirrored_pose_leaves_frame_unchanged self frame ml connections
    s f :
  heap s !! frame = Some f →
  let replica := fresh (dom (heap s)) in
  ∃ r s' canvas,
    draw_mirrored_pose self frame ml connections s = (r, s')
    ∧ heap s !! replica = None
    ∧ replica ≠ frame
    ∧ heap s' !! frame = Some f
    ∧ (∀ l, l ≠ replica → heap s' !! l = heap s !! l)
    ∧ heap s' !! replica = Some canvas
    ∧ shape canvas = shape f
    ∧ canvas = painted (paint (zeros_like f)
                          (drop (length (trace s)) (trace s')))
    ∧ Forall (λ v, v = 0) (img_data (zeros_like f))
    ∧ Forall (λ e, draw_target e = Some replica)
        (drop (length (trace s)) (trace s'))
    ∧ (∀ l, r = Ok l → l = replica)
    ∧ (drawable self f ml connections →
       r = Ok replica
       ∧ canvas = painted (rendering self f replica ml connections)
       ∧ drop (length (trace s)) (trace s')
         = draw_calls self replica ml connections).
Proof.
  intros Hf replica. pose proof (fresh_loc_unused s) as Hfresh.
  fold replica in Hfresh.
  assert (replica ≠ frame) as Hne by congruence.
  destruct (draw_mirrored_pose_outcome self frame ml connections s f Hf)
    as (Hrun & Hprefix & Hshape & _ & _ & Hacc & Hok).
  fold replica in Hrun, Hprefix, Hshape, Hacc, Hok.
  set (p := rendering self f replica ml connections) in *.
  eexists _, _, (painted p). split; [exact Hrun|].
  cbn [store record heap trace]. rewrite drop_app_length.
  split_and!; try done.
  - by rewrite lookup_insert_ne.
  - intros l Hl. by rewrite lookup_insert_ne.
  - apply lookup_insert_eq.
  - unfold p, rendering.
    set (calls := draw_calls self replica ml connections).
    clear. generalize (zeros_like f). clearbody calls.
    induction calls as [|e calls IH]; intros img; simpl; [done|].
    destruct (apply_draw img e) as [img'|x] eqn:He; simpl.
    + rewrite He. simpl. apply IH.
    + by rewrite He.
  - apply Forall_replicate. done.
  - destruct Hprefix as [k Hk].
    pose proof (draw_calls_target self replica ml connections) as Ht.
    rewrite Hk, Forall_app in Ht. apply Ht.
  - intros l Hl. by destruct (rejection p); simplify_eq/=.
  - intros Hd. rewrite (Hok Hd). split_and!; [done|done|].
    apply Hacc, Hok, Hd.
Qed.

End RenderingClaims.

(** The instance accepts a drawing call when the radius is not negative,
    the thickness is positive and the positions fit a C [int]. *)
Lemma endpoint_rasterizer_drawable self f ml connections :
  0 ≤ circle_radius self → 0 < line_thickness self →
  Forall (λ p, c_int p.1 ∧ c_int p.2) (PyDict.values ml) →
  drawable (H := endpoint_rasterizer) self f ml connections.
Proof.
  intros Hr Ht Hpos img canvas e _ He. rewrite Forall_forall in Hpos.
  unfold draw_calls in He. apply elem_of_app in He as [He|He].
  - unfold circle_calls in He.
    apply list_elem_of_fmap in He as (p & -> & Hp). simpl.
    rewrite decide_True; [by eexists|]. specialize (Hpos p Hp). tauto.
  - destruct (line_calls_spec self canvas ml connections) as (_ & Hfrom & _).
    destruct (Hfrom e He) as (a & b & p & q & _ & _ & _ & Hp & Hq & ->).
    simpl. pose proof (Hpos p (get_Some_values _ _ _ Hp)).
    pose proof (Hpos q (get_Some_values _ _ _ Hq)).
    rewrite decide_True; [by eexists|]. tauto.
Qed.

Lemma renderer_draws_line_iff_both_endpoints_witness :
  ∃ replica s',
    draw_mirrored_pose (H := endpoint_rasterizer) default_visualizer
      1%positive [(0, (0, 0)); (1, (1, 1))] [(0, 1); (1, 5)]
      (state_with_frame blank_frame) = (Ok replica, s')
    ∧ length (line_calls default_visualizer replica
                [(0, (0, 0)); (1, (1, 1))] [(0, 1); (1, 5)]) = 1%nat
    ∧ length (trace s') = 3%nat.
Proof.
  destruct (renderer_draws_line_iff_both_endpoints
              (H := endpoint_rasterizer) default_visualizer 1%positive
              [(0, (0, 0)); (1, (1, 1))] [(0, 1); (1, 5)]
              (state_with_frame blank_frame) blank_frame)
    as (r & s' & made & Hrun & Htr & _ & _ & _ & _ & _ & _ & Hlen & _ & _
        & Hok).
  - apply lookup_singleton_eq.
  - destruct Hok as [-> ->].
    + apply endpoint_rasterizer_drawable; [done|done|].
      repeat constructor; done.
    + eexists _, s'. split_and!; [exact Hrun|by rewrite Hlen|].
      rewrite Htr. reflexivity.
Defined.

Lemma draw_mirrored_pose_leaves_frame_unchanged_witness :
  ∃ r s',
    draw_mirrored_pose (H := endpoint_rasterizer) default_visualizer
      1%positive [(0, (0, 0)); (1, (1, 1))] [(0, 1); (1, 5)]
      (state_with_frame blank_frame) = (r, s')
    ∧ fresh (dom (heap (state_with_frame blank_frame))) ≠ 1%positive
    ∧ heap s' !! 1%positive = Some blank_frame.
Proof.
  destruct (draw_mirrored_pose_leaves_frame_unchanged
              (H := endpoint_rasterizer) default_visualizer 1%positive
              [(0, (0, 0)); (1, (1, 1))] [(0, 1); (1, 5)]
              (state_with_frame blank_frame) blank_frame)
    as (r & s' & canvas & Hrun & _ & Hne & Hframe & _).
  - apply lookup_singleton_eq.
  - exists r, s'. split_and!; [exact Hrun|exact Hne|exact Hframe].
Defined.

(** ** The compositor *)

Lemma saturate_cast_u8_range v : 0 ≤ saturate_cast_u8 v ≤ 255.
Proof. unfold saturate_cast_u8. repeat case_decide; lia. Qed.

Lemma saturate_cast_u8_min a b :
  0 ≤ a ≤ 255 → 0 ≤ b ≤ 255 → saturate_cast_u8 (a + b) = Z.min 255 (a + b).
Proof. intros Ha Hb. unfold saturate_cast_u8. repeat case_decide; lia. Qed.

Lemma add_images_comm a b : shape a = shape b → add_images a b = add_images b a.
Proof.
  unfold shape, add_images. intros [= -> -> ->]. f_equal.
  rewrite <- zip_with_flip. apply zip_with_ext; [|done..].
  intros x y. unfold flip. by rewrite Z.add_comm.
Qed.

Lemma add_images_zeros f : uint8_array f → add_images f (zeros_like f) = f.
Proof.
  intros [Hlen Hbytes]. unfold add_images, zeros_like. destruct f as [h w c data].
  simpl in *. f_equal. rewrite zip_with_replicate_r_eq by done.
  rewrite <- (list_fmap_id data) at 2. apply Forall_fmap_ext.
  eapply Forall_impl; [exact Hbytes|]. intros v Hv. unfold flip. simpl.
  rewrite Z.add_0_r. unfold saturate_cast_u8. by rewrite decide_True.
Qed.

Lemma zeros_like_uint8 f : uint8_array (zeros_like f).
Proof.
  split; simpl; [by rewrite length_replicate|]. apply Forall_replicate. lia.
Qed.

Lemma color_frame_same_shape f c :
  shape f = shape c → color_frame f → uint8_array c → color_frame c.
Proof.
  unfold shape, color_frame. intros [= Hh Hw Hc] (? & ? & ? & _) Hu.
  rewrite <- Hh, <- Hw, <- Hc. done.
Qed.

Section CompositorClaims.
Context `{OpenCV}.

(** C4.  For a frame and a canvas of one shape, both [uint8], with pixels
    and a pixel format of two to four channels, the compositor returns a
    new array whose every channel is
    [min(255, frame_channel + canvas_channel)]; swapping the arguments gives
    the same result; no array alive before the call is modified and no
    call is recorded. *)
Theorem composite_is_saturating_add self frame canvas s f c :
  heap s !! frame = Some f → heap s !! canvas = Some c →
  shape f = shape c → color_frame f → uint8_array c →
  ∃ out s' o,
    create_composite self frame canvas s = (Ok out, s')
    ∧ heap s !! out = None
    ∧ heap s' = <[out := o]> (heap s)
    ∧ heap s' !! frame = Some f ∧ heap s' !! canvas = Some c
    ∧ trace s' = trace s
    ∧ shape o = shape f
    ∧ length (img_data o) = length (img_data f)
    ∧ (∀ i x y, img_data f !! i = Some x → img_data c !! i = Some y →
         img_data o !! i = Some (Z.min 255 (x + y)))
    ∧ create_composite self canvas frame s = (Ok out, s').
Proof.
  intros Hf Hc Hshape Hcf Hcu.
  pose proof Hcf as (_ & _ & _ & Hflen & Hfb). destruct Hcu as [Hclen Hcb].
  pose proof (fresh_loc_unused s) as Hfresh.
  rewrite (create_composite_spec self frame canvas s f c) by done.
  rewrite (create_composite_spec self canvas frame s c f);
    [|done|done|done|by eapply color_frame_same_shape|done].
  eexists _, _, _. split; [done|]. simpl. split_and!.
  - done.
  - done.
  - rewrite lookup_insert_ne; [done|congruence].
  - rewrite lookup_insert_ne; [done|congruence].
  - done.
  - done.
  - unfold add_images. simpl. rewrite length_zip_with_l_eq; [done|].
    rewrite Hflen, Hclen. unfold shape in Hshape. by injection Hshape as -> -> ->.
  - intros i x y Hx Hy. unfold add_images. simpl.
    rewrite lookup_zip_with, Hx, Hy. simpl. f_equal.
    apply saturate_cast_u8_min.
    + by apply (Forall_lookup_1 _ _ _ _ Hfb Hx).
    + by apply (Forall_lookup_1 _ _ _ _ Hcb Hy).
  - by rewrite (add_images_comm c f).
Qed.

(** C6.  An empty keypoint set gives an empty map without error; the
    renderer then makes no drawing call and returns an all-zero canvas of
    the frame's shape; compositing that canvas with the frame, a colour
    frame with pixels, gives an array equal to the frame. *)
Theorem empty_keypoints_give_the_original_frame self frame connections
    s f :
  heap s !! frame = Some f → color_frame f →
  create_mirrored_landmarks self [] (shape f) = Ok PyDict.empty
  ∧ ∃ replica s1 out s2,
      draw_mirrored_pose self frame PyDict.empty connections s
      = (Ok replica, s1)
      ∧ trace s1 = trace s
      ∧ heap s1 !! replica = Some (zeros_like f)
      ∧ shape (zeros_like f) = shape f
      ∧ Forall (λ v, v = 0) (img_data (zeros_like f))
      ∧ create_composite self frame replica s1 = (Ok out, s2)
      ∧ heap s2 !! out = Some f
      ∧ heap s2 !! frame = Some f.
Proof.
  intros Hf Hcf. split; [done|].
  pose proof Hcf as (_ & _ & _ & Hu8).
  pose proof (fresh_loc_unused s) as Hfresh.
  set (replica := fresh (dom (heap s))) in *.
  assert (replica ≠ frame) as Hne by congruence.
  assert (draw_calls self replica PyDict.empty connections = []) as Hcalls.
  { unfold draw_calls, line_calls, connection_ends. simpl.
    induction connections as [|[a b] cs IH]; done. }
  pose proof (draw_mirrored_pose_spec self frame PyDict.empty connections
                s f Hf) as Hdraw.
  cbv zeta in Hdraw. fold replica in Hdraw.
  unfold rendering in Hdraw. rewrite Hcalls in Hdraw. simpl in Hdraw.
  set (s1 := store replica (zeros_like f) (record [] s)) in *.
  assert (heap s1 !! frame = Some f) as Hf1.
  { simpl. by rewrite lookup_insert_ne. }
  assert (heap s1 !! replica = Some (zeros_like f)) as Hr1
    by apply lookup_insert_eq.
  pose proof (fresh_loc_unused s1) as Hfresh1.
  eexists replica, s1, _, _. split; [exact Hdraw|]. split_and!.
  - simpl. by rewrite app_nil_r.
  - done.
  - done.
  - apply Forall_replicate. done.
  - apply (create_composite_spec self _ _ _ f (zeros_like f));
      [done|done|done|done|apply zeros_like_uint8].
  - simpl. rewrite lookup_insert_eq. f_equal. by apply add_images_zeros.
  - cbn [store heap]. rewrite lookup_insert_ne; [done|]. congruence.
Qed.

End CompositorClaims.

Lemma composite_is_saturating_add_witness :
  ∃ out s' o,
    create_composite (H := endpoint_rasterizer) default_visualizer
      1%positive 2%positive
      (state_with_frame_and_canvas bright_frame sample_canvas) = (Ok out, s')
    ∧ heap s' !! out = Some o
    ∧ img_data o !! 0%nat = Some 255
    ∧ img_data o !! 4%nat = Some 255
    ∧ img_data o !! 9%nat = Some 255
    ∧ img_data o !! 6%nat = Some 1.
Proof.
  destruct (composite_is_saturating_add (H := endpoint_rasterizer)
              default_visualizer 1%positive 2%positive
              (state_with_frame_and_canvas bright_frame sample_canvas)
              bright_frame sample_canvas)
    as (out & s' & o & Hrun & _ & Hheap & _ & _ & _ & _ & _ & Hch & _).
  - simpl. rewrite lookup_insert_ne by done. apply lookup_singleton_eq.
  - apply lookup_insert_eq.
  - reflexivity.
  - unfold color_frame. simpl. split_and!; try lia.
    split; [reflexivity|]. simpl. repeat constructor; lia.
  - split; [reflexivity|]. simpl. repeat constructor; lia.
  - exists out, s', o. split_and!.
    + exact Hrun.
    + rewrite Hheap. apply lookup_insert_eq.
    + apply (Hch 0%nat 200 100); reflexivity.
    + apply (Hch 4%nat 128 128); reflexivity.
    + apply (Hch 9%nat 250 5); reflexivity.
    + apply (Hch 6%nat 1 0); reflexivity.
Defined.

Lemma empty_keypoints_give_the_original_frame_witness :
  ∃ replica s1 out s2,
    draw_mirrored_pose (H := endpoint_rasterizer) default_visualizer
      1%positive PyDict.empty [(0, 1); (1, 2)] (state_with_frame bright_frame)
    = (Ok replica, s1)
    ∧ heap s1 !! replica = Some (zeros_like bright_frame)
    ∧ create_composite (H := endpoint_rasterizer) default_visualizer
        1%positive replica s1
      = (Ok out, s2)
    ∧ heap s2 !! out = Some bright_frame.
Proof.
  destruct (empty_keypoints_give_the_original_frame
              (H := endpoint_rasterizer) default_visualizer 1%positive
              [(0, 1); (1, 2)] (state_with_frame bright_frame) bright_frame)
    as (_ & replica & s1 & out & s2 & Hdraw & _ & Hcanvas & _ & _ & Hadd
        & Hout & _).
  - apply lookup_singleton_eq.
  - unfold color_frame. simpl. split_and!; try lia.
    split; [reflexivity|]. simpl. repeat constructor; lia.
  - exists replica, s1, out, s2.
    split_and!; [exact Hdraw|exact Hcanvas|exact Hadd|exact Hout].
Defined.

(** ** The orchestration loops *)

Section Orchestration.
Context `{OpenCV}.

Create HintDb quiet discriminated.

Lemma quiet_ret {A} (a : A) : quiet (mret a).
Proof. intros s. simpl. split; [done|]. exists []. by rewrite app_nil_r. Qed.

Lemma quiet_lift {A} (r : result A) : quiet (lift r).
Proof. intros s. simpl. split; [done|]. exists []. by rewrite app_nil_r. Qed.

Lemma quiet_log e : is_release e = false → quiet (log e).
Proof.
  intros He s. simpl. split; [done|]. exists [e]. split; [done|].
  by constructor.
Qed.

Lemma quiet_alloc img : quiet (alloc img).
Proof. intros s. simpl. split; [done|]. exists []. by rewrite app_nil_r. Qed.

Lemma quiet_load l : quiet (load l).
Proof.
  intros s. unfold load. destruct (heap s !! l); simpl;
    (split; [done|]); exists []; by rewrite app_nil_r.
Qed.

Lemma quiet_modify l f : quiet (modify l f).
Proof.
  intros s. unfold modify. destruct (heap s !! l); simpl;
    (split; [done|]); exists []; by rewrite app_nil_r.
Qed.

Lemma quiet_bind {A B} (m : M A) (f : A → M B) :
  quiet m → (∀ a, quiet (f a)) → quiet (m ≫= f).
Proof.
  intros Hm Hf s. unfold mbind, M_bind. specialize (Hm s).
  destruct (m s) as [[a|e] s1]; simpl in *; [|done].
  destruct Hm as (Hv1 & tr1 & Ht1 & Hq1).
  destruct (Hf a s1) as (Hv2 & tr2 & Ht2 & Hq2).
  split; [congruence|]. exists (tr1 ++ tr2).
  rewrite Ht2, Ht1, <- app_assoc. split; [done|]. by apply Forall_app.
Qed.

Lemma quiet_for_each {A} (f : A → M unit) l :
  (∀ a, quiet (f a)) → quiet (for_each f l).
Proof.
  intros Hf. induction l as [|a l IH]; simpl.
  - apply quiet_ret.
  - apply quiet_bind; [apply Hf|]. by intros _.
Qed.

#[local] Hint Resolve quiet_ret quiet_lift quiet_alloc quiet_load
  quiet_modify : quiet.

Ltac quiet_step :=
  first
    [ apply quiet_bind; [|intros ?]
    | apply quiet_for_each; intros ?
    | apply quiet_log; reflexivity
    | solve [auto with quiet]
    | case_match
    | case_decide ].

Lemma quiet_draw_mirrored_pose self frame ml connections :
  quiet (draw_mirrored_pose self frame ml connections).
Proof.
  unfold draw_mirrored_pose, np_zeros_like, cv2_circle, draw_connection,
    cv2_line.
  repeat quiet_step.
Qed.

Lemma quiet_create_composite self frame replica :
  quiet (create_composite self frame replica).
Proof. unfold create_composite, cv2_add. repeat quiet_step. Qed.

Lemma quiet_processing_loop self connections window_name its :
  quiet (processing_loop self connections window_name its).
Proof.
  induction its as [|it rest IH]; simpl.
  - by apply quiet_log.
  - repeat first
      [ apply IH
      | apply quiet_draw_mirrored_pose
      | apply quiet_create_composite
      | progress unfold imshow
      | quiet_step ].
Qed.

End Orchestration.

Lemma count_event_app P tr1 tr2 :
  count_event P (tr1 ++ tr2) = (count_event P tr1 + count_event P tr2)%nat.
Proof. unfold count_event. by rewrite filter_app, length_app. Qed.

Lemma count_event_none P tr :
  Forall (λ e, P e = false) tr → count_event P tr = 0%nat.
Proof.
  unfold count_event. induction 1 as [|e tr He _ IH]; [done|].
  rewrite filter_cons, decide_False by congruence. done.
Qed.

Lemma count_event_cons P e tr :
  count_event P (e :: tr)
  = ((if P e then 1 else 0) + count_event P tr)%nat.
Proof.
  unfold count_event. rewrite filter_cons.
  destruct (P e); [by rewrite decide_True|by rewrite decide_False].
Qed.

Lemma count_event_nil P : count_event P [] = 0%nat.
Proof. done. Qed.

(** Counts the occurrences in a trace built from known calls and a part
    [tr] known to hold none. *)
Ltac count_events Hnone :=
  repeat first
    [ rewrite count_event_app
    | rewrite count_event_cons
    | rewrite count_event_nil
    | rewrite (count_event_none _ _ Hnone) ];
  simpl; try lia.

Section OrchestrationClaims.
Context `{OpenCV}.

(** Once the capture is open the body of the [try] block keeps
    [video_source] bound and never releases it. *)
Lemma main_body_keeps_source args w s :
  source_opens w = true →
  video_source (main_body args w s).2 = true
  ∧ ∃ tr, trace (main_body args w s).2 = trace s ++ tr
          ∧ count_event is_release tr = 0%nat.
Proof.
  intros Hopen. unfold main_body.
  match goal with |- context [VideoSource_init w ≫= ?f] => set (rest := f) end.
  assert (quiet (rest ())) as Hq.
  { unfold rest, PoseDetector_init.
    repeat first
      [ apply quiet_processing_loop
      | apply quiet_bind; [|intros ?]
      | apply quiet_log; reflexivity
      | apply quiet_lift ]. }
  clearbody rest.
  unfold VideoSource_init. rewrite Hopen.
  unfold mbind, M_bind, log, bind_video_source. simpl.
  match goal with |- context [rest () ?s0] =>
    destruct (Hq s0) as (Hv & tr & Htr & Hnone)
  end.
  simpl in *. split; [by rewrite Hv|]. exists (EvVideoCapture :: tr).
  rewrite Htr. simpl. rewrite <- app_assoc. split; [done|].
  apply count_event_none. by constructor.
Qed.

Lemma PoseDetector_init_run w s :
  PoseDetector_init w s
  = (detector_init w,
     {| heap := heap s; trace := trace s ++ [EvPoseInit];
        video_source := video_source s |}).
Proof. done. Qed.

Lemma VideoSource_init_run w s :
  VideoSource_init w s
  = if source_opens w
    then (Ok (), {| heap := heap s; trace := trace s ++ [EvVideoCapture];
                    video_source := true |})
    else (Raise ValueError,
          {| heap := heap s; trace := trace s ++ [EvVideoCapture];
             video_source := video_source s |}).
Proof. unfold VideoSource_init. rewrite bind_run. by destruct (source_opens w). Qed.

Lemma release_run s :
  video_source s = true →
  release s = (Ok (), {| heap := heap s; trace := trace s ++ [EvRelease];
                         video_source := video_source s |}).
Proof. destruct s as [h t v]. simpl. by intros ->. Qed.

Lemma app_py_run w s :
  source_opens w = true → detector_init w = Ok () →
  app_py w s
  = (processing_loop default_visualizer (pose_connections w) app_window
       (stream w) ≫= λ _, release ≫= λ _, log EvDestroyAllWindows)
      {| heap := heap s;
         trace := (trace s ++ [EvPoseInit]) ++ [EvVideoCapture];
         video_source := true |}.
Proof.
  intros Hopen Hdet. unfold app_py.
  rewrite bind_run, PoseDetector_init_run, Hdet. cbv beta iota.
  rewrite bind_run, VideoSource_init_run, Hopen. done.
Qed.

(** C3 (as amended).  In [main], once the Frame Source has been opened,
    every exit path of the loop -- end of stream, cancellation, or an
    exception of any step -- runs the shutdown path, which releases the
    source: [release] is called exactly once.  An exception deriving from
    [Exception] is caught, logged and not propagated.  In [app.py], once
    the detector is constructed and the source opened, the loop releases
    nothing; when it ends by end of stream or cancellation the script
    then calls [release] and [destroyAllWindows] and returns, so [release]
    is called exactly once; when a step raises, the script ends there with
    that exception and [release] is not called. *)
Theorem main_releases_opened_source_on_every_exit args w :
  source_opens w = true →
  (∃ r s tr,
     main args w initial_state = (r, s)
     ∧ trace s = tr ++ shutdown_calls
     ∧ count_event is_release tr = 0%nat
     ∧ count_event is_release (trace s) = 1%nat
     ∧ match (main_body args w initial_state).1 with
       | Ok _ => r = Ok () ∧ tr = trace (main_body args w initial_state).2
       | Raise e =>
           if is_Exception e
           then r = Ok ()
                ∧ tr = trace (main_body args w initial_state).2
                         ++ [EvPrint (MsgError e)]
           else r = Raise e
                ∧ tr = trace (main_body args w initial_state).2
       end)
  ∧ (detector_init w = Ok () →
     let opened :=
       {| heap := ∅; trace := [EvPoseInit; EvVideoCapture];
          video_source := true |} in
     let loop :=
       processing_loop default_visualizer (pose_connections w) app_window
         (stream w) opened in
     count_event is_release (trace loop.2) = 0%nat
     ∧ match loop.1 with
       | Ok _ =>
           app_py w initial_state
           = (Ok (), record [EvRelease; EvDestroyAllWindows] loop.2)
           ∧ count_event is_release
               (trace (record [EvRelease; EvDestroyAllWindows] loop.2))
             = 1%nat
       | Raise e => app_py w initial_state = (Raise e, loop.2)
       end).
Proof.
  intros Hopen. split.
  - destruct (main_body_keeps_source args w initial_state Hopen)
      as (Hv & tr & Htr & Hnone).
    unfold main, try_finally, try_except.
    destruct (main_body args w initial_state) as [[[]|e] s1];
      cbn [fst snd trace video_source heap initial_state] in *;
      rewrite app_nil_l in Htr.
    + rewrite bind_run, release_run by done. simpl.
      eexists _, _, (trace s1). split; [reflexivity|].
      split_and!; simpl;
        rewrite <- ?app_assoc, ?count_event_app, ?Htr, ?Hnone; done.
    + destruct (is_Exception e) eqn:He.
      * simpl. rewrite bind_run, release_run by done. simpl.
        eexists _, _, (trace s1 ++ [EvPrint (MsgError e)]).
        split; [reflexivity|].
        split_and!; simpl;
          rewrite <- ?app_assoc, ?count_event_app, ?Htr, ?Hnone; done.
      * rewrite bind_run, release_run by done. simpl.
        eexists _, _, (trace s1). split; [reflexivity|].
        split_and!; simpl;
          rewrite <- ?app_assoc, ?count_event_app, ?Htr, ?Hnone; done.
  - intros Hdet opened loop.
    rewrite app_py_run by done. rewrite bind_run.
    change {| heap := heap initial_state;
              trace := (trace initial_state ++ [EvPoseInit])
                         ++ [EvVideoCapture];
              video_source := true |} with opened.
    fold loop.
    destruct (quiet_processing_loop default_visualizer (pose_connections w)
                app_window (stream w) opened) as (Hv & tr & Htr & Hnone).
    fold loop in Hv, Htr.
    assert (count_event is_release (trace loop.2) = 0%nat) as Hzero.
    { rewrite Htr. simpl. by count_events Hnone. }
    split; [exact Hzero|].
    destruct loop as [[[]|e] s1]; cbn [fst snd] in *; [|done].
    rewrite bind_run, release_run by done. cbv beta iota.
    split.
    + rewrite log_run. unfold record. simpl. by rewrite <- app_assoc.
    + cbn [record trace]. rewrite count_event_app, Hzero. done.
Qed.

(** C9.  When the first [read_frame] finds the source exhausted, both
    loops end without a single detection call and release the source
    exactly once. *)
Theorem exhausted_source_no_detection_one_release args w :
  source_opens w = true →
  detector_init w = Ok () → window_init w = Ok () →
  (stream w = [] ∨ ∃ it rest, stream w = it :: rest ∧ it_read it = Ok None) →
  ∃ s s',
    main args w initial_state = (Ok (), s)
    ∧ trace s = [EvVideoCapture; EvPoseInit;
                 EvNamedWindow "Dance Companion - Pose Mirroring"; EvRead;
                 EvRelease; EvDestroyAllWindows; EvPrint MsgClosed]
    ∧ count_event is_detect (trace s) = 0%nat
    ∧ count_event is_release (trace s) = 1%nat
    ∧ app_py w initial_state = (Ok (), s')
    ∧ trace s' = [EvPoseInit; EvVideoCapture; EvRead; EvRelease;
                  EvDestroyAllWindows]
    ∧ count_event is_detect (trace s') = 0%nat
    ∧ count_event is_release (trace s') = 1%nat.
Proof.
  intros Hopen Hdet Hwin Hfirst.
  unfold main, app_py, try_finally, try_except, main_body, PoseDetector_init,
    VideoSource_init.
  rewrite Hopen, Hdet, Hwin.
  destruct Hfirst as [->|(it & rest & -> & Hread)]; simpl.
  - eexists _, _. split_and!; reflexivity.
  - unfold mbind, M_bind. simpl. rewrite Hread. simpl.
    eexists _, _. split_and!; reflexivity.
Qed.

End OrchestrationClaims.

Lemma main_releases_opened_source_on_every_exit_witness :
  (∃ s, main (H := endpoint_rasterizer) default_arguments
          failing_detection_world initial_state = (Ok (), s)
        ∧ count_event is_release (trace s) = 1%nat
        ∧ EvPrint (MsgError RuntimeError) ∈ trace s)
  ∧ (∃ s, app_py (H := endpoint_rasterizer) q_world initial_state
          = (Ok (), s)
          ∧ count_event is_release (trace s) = 1%nat).
Proof.
  split.
  - destruct (main_releases_opened_source_on_every_exit
                (H := endpoint_rasterizer) default_arguments
                failing_detection_world)
      as [(r & s & tr & Hrun & Htr & _ & Hone & Hbody) _].
    + reflexivity.
    + assert ((main_body (H := endpoint_rasterizer) default_arguments
                 failing_detection_world initial_state).1
              = Raise RuntimeError) as Hraise by (vm_compute; reflexivity).
      rewrite Hraise in Hbody. simpl in Hbody. destruct Hbody as [-> ->].
      exists s. split_and!; [exact Hrun|exact Hone|].
      rewrite Htr. apply elem_of_app. left. simpl.
      repeat first [apply list_elem_of_here | apply list_elem_of_further].
  - destruct (main_releases_opened_source_on_every_exit
                (H := endpoint_rasterizer) default_arguments q_world)
      as [_ Happ].
    + reflexivity.
    + destruct (Happ eq_refl) as [_ Hrun].
      assert ((processing_loop (H := endpoint_rasterizer)
                 default_visualizer (pose_connections q_world) app_window
                 (stream q_world)
                 {| heap := ∅; trace := [EvPoseInit; EvVideoCapture];
                    video_source := true |}).1 = Ok ()) as Hok
        by (vm_compute; reflexivity).
      rewrite Hok in Hrun. destruct Hrun as [Hrun Hone].
      eexists. split; [exact Hrun|exact Hone].
Defined.

Lemma exhausted_source_no_detection_one_release_witness :
  ∃ s s',
    main (H := endpoint_rasterizer) default_arguments exhausted_world
      initial_state = (Ok (), s)
    ∧ count_event is_detect (trace s) = 0%nat
    ∧ count_event is_release (trace s) = 1%nat
    ∧ app_py (H := endpoint_rasterizer) exhausted_world initial_state
      = (Ok (), s')
    ∧ count_event is_detect (trace s') = 0%nat
    ∧ count_event is_release (trace s') = 1%nat.
Proof.
  destruct (exhausted_source_no_detection_one_release
              (H := endpoint_rasterizer) default_arguments exhausted_world)
    as (s & s' & Hmain & _ & Hd & Hr & Happ & _ & Hd' & Hr').
  - reflexivity.
  - reflexivity.
  - reflexivity.
  - left. reflexivity.
  - exists s, s'. split_and!; assumption.
Defined.

(** C3 (as stated) fails, in three ways.  In [app.py] an exception raised
    by the detector on the first frame leaves the loop and the script:
    [release] is not called and the exception propagates.  In [main] a
    [KeyboardInterrupt] raised while waiting for a key is not an
    [Exception]: the source is released, but the interrupt is neither
    logged nor caught.  And in [main] a source that cannot be opened
    leaves [video_source] unbound: the [ValueError] is caught and logged,
    the shutdown path then fails on [video_source.release()], and that
    second exception propagates without a release. *)
Lemma release_or_catch_fails_on_three_paths :
  (∃ s, app_py (H := endpoint_rasterizer) failing_detection_world
          initial_state = (Raise RuntimeError, s)
        ∧ count_event is_release (trace s) = 0%nat
        ∧ trace s = [EvPoseInit; EvVideoCapture; EvRead; EvDetect 1%positive])
  ∧ (∃ s, main (H := endpoint_rasterizer) default_arguments
            interrupted_world initial_state = (Raise KeyboardInterrupt, s)
          ∧ count_event is_release (trace s) = 1%nat
          ∧ EvPrint (MsgError KeyboardInterrupt) ∉ trace s)
  ∧ (∃ s, main (H := endpoint_rasterizer) default_arguments
            closed_source_world initial_state = (Raise UnboundLocalError, s)
          ∧ trace s = [EvVideoCapture; EvPrint (MsgError ValueError)]
          ∧ count_event is_release (trace s) = 0%nat).
Proof.
  split_and!.
  - eexists. split_and!; [vm_compute; reflexivity|reflexivity..].
  - eexists. split_and!; [vm_compute; reflexivity|reflexivity|].
    simpl. rewrite !not_elem_of_cons. split_and!; try done.
    apply not_elem_of_nil.
  - eexists. split_and!; [vm_compute; reflexivity|reflexivity..].
Qed.

(** * Further properties: errors, bounds and composition *)

(** ** The mirror transform: what it depends on, when it raises, where
    its positions lie *)

Lemma values_zip_seqZ {V} start (vs : list V) :
  PyDict.values (zip (seqZ start (Z.of_nat (length vs))) vs) = vs.
Proof.
  unfold PyDict.values. apply snd_zip. rewrite length_seqZ. lia.
Qed.

Lemma setitem_shift k idx p d :
  PyDict.setitem idx (p.1 + k, p.2) (shift_x k d)
  = shift_x k (PyDict.setitem idx p d).
Proof.
  unfold shift_x. induction d as [|[k' v'] d IH]; [done|].
  rewrite fmap_cons. cbn [PyDict.setitem fst snd].
  case_decide; [done|]. by rewrite fmap_cons, IH.
Qed.

Lemma mirror_point_shift self1 self2 h w lm1 lm2 :
  same_position lm1 lm2 →
  mirror_point self2 h w lm2
  = (λ p, (p.1 + (offset_x self2 - offset_x self1), p.2))
      <$> mirror_point self1 h w lm1.
Proof.
  intros [Hx Hy]. unfold mirror_point. rewrite Hx, Hy.
  destruct (to_pixel (lm_x lm2) w) as [px|]; simpl; [|done].
  destruct (to_pixel (lm_y lm2) h) as [py|]; simpl; [|done].
  do 2 f_equal. lia.
Qed.

Lemma mirror_loop_shift self1 self2 h w lms1 lms2 :
  Forall2 same_position lms1 lms2 →
  ∀ idx d,
    mirror_loop self2 h w idx lms2
      (shift_x (offset_x self2 - offset_x self1) d)
    = shift_x (offset_x self2 - offset_x self1)
        <$> mirror_loop self1 h w idx lms1 d.
Proof.
  induction 1 as [|lm1 lm2 lms1 lms2 Hlm _ IH]; intros idx d; simpl; [done|].
  rewrite (mirror_point_shift self1 self2 h w lm1 lm2 Hlm).
  destruct (mirror_point self1 h w lm1) as [p|]; simpl; [|done].
  rewrite setitem_shift. apply IH.
Qed.

(** X1.  The mirrored map is a function of the landmarks' [x] and [y], the
    frame's height and width and the offset alone: depth, visibility, the
    number of channels and the drawing attributes play no part, and a
    change of the offset moves every position horizontally by the
    difference, leaving [y], the keys and the order as they are; a call
    that raises keeps raising the same exception. *)
Theorem mirrored_map_depends_on_position_and_offset self1 self2 lms1 lms2
    h w c1 c2 :
  Forall2 same_position lms1 lms2 →
  create_mirrored_landmarks self2 lms2 (h, w, c2)
  = shift_x (offset_x self2 - offset_x self1)
      <$> create_mirrored_landmarks self1 lms1 (h, w, c1).
Proof.
  intros Hlms. unfold create_mirrored_landmarks.
  by rewrite <- (mirror_loop_shift self1 self2 h w lms1 lms2 Hlms).
Qed.

Lemma mirrored_map_depends_on_position_and_offset_witness :
  create_mirrored_landmarks zero_offset_visualizer
    [Landmark 0.5 0.25 7 0] (100, 200, 1)
  = shift_x (-150)
      <$> create_mirrored_landmarks default_visualizer
            [Landmark 0.5 0.25 0 1] (100, 200, 3).
Proof.
  apply (mirrored_map_depends_on_position_and_offset default_visualizer
           zero_offset_visualizer [Landmark 0.5 0.25 0 1]
           [Landmark 0.5 0.25 7 0] 100 200 3 1).
  repeat constructor.
Defined.

Lemma to_pixel_raise_kind x n e :
  to_pixel x n = Raise e → e = ValueError ∨ e = OverflowError.
Proof.
  unfold to_pixel, PyFloat.mul_int, PyFloat.float_of_int, PyFloat.py_int.
  destruct (binary_normalize prec emax n 0 false); simpl;
    try (intros [= <-]; by auto);
    match goal with |- PyFloat.trunc_sf ?f = _ → _ => destruct f end;
    simpl; intros [= <-]; auto.
Qed.

Lemma mirror_point_raise_kind self h w lm e :
  mirror_point self h w lm = Raise e → e = ValueError ∨ e = OverflowError.
Proof.
  unfold mirror_point.
  destruct (to_pixel (lm_x lm) w) as [px|e1] eqn:Hx; simpl.
  - destruct (to_pixel (lm_y lm) h) as [py|e2] eqn:Hy; simpl; [done|].
    intros [= <-]. by eapply to_pixel_raise_kind.
  - intros [= <-]. by eapply to_pixel_raise_kind.
Qed.

Lemma mirror_loop_raise_kind self h w lms e : ∀ idx d,
  mirror_loop self h w idx lms d = Raise e →
  e = ValueError ∨ e = OverflowError.
Proof.
  induction lms as [|lm lms IH]; intros idx d; simpl; [done|].
  destruct (mirror_point self h w lm) as [p|e1] eqn:Hp; simpl.
  - apply IH.
  - intros [= <-]. by eapply mirror_point_raise_kind.
Qed.

Lemma Prim2SF_nan : Prim2SF nan = S754_nan.
Proof. vm_compute. reflexivity. Qed.
Lemma Prim2SF_infinity : Prim2SF infinity = S754_infinity false.
Proof. vm_compute. reflexivity. Qed.
Lemma Prim2SF_neg_infinity : Prim2SF neg_infinity = S754_infinity true.
Proof. vm_compute. reflexivity. Qed.

Lemma to_pixel_non_finite x n :
  non_finite x → ∃ e, to_pixel x n = Raise e.
Proof.
  intros Hx. unfold to_pixel, PyFloat.mul_int.
  destruct (PyFloat.float_of_int n) as [nf|e]; simpl; [|by eauto].
  unfold PyFloat.py_int. rewrite mul_spec. unfold SF64mul.
  destruct Hx as [->|[->| ->]];
    rewrite ?Prim2SF_nan, ?Prim2SF_infinity, ?Prim2SF_neg_infinity;
    destruct (Prim2SF nf); simpl; eauto.
Qed.

(** A landmark with a coordinate that is not finite makes the transform
    raise. *)
Lemma create_mirrored_landmarks_non_finite self landmarks h w c lm :
  lm ∈ landmarks →
  non_finite (lm_x lm) ∨ non_finite (lm_y lm) →
  ∃ e, create_mirrored_landmarks self landmarks (h, w, c) = Raise e
       ∧ (e = ValueError ∨ e = OverflowError).
Proof.
  intros Hin Hbad.
  destruct (create_mirrored_landmarks self landmarks (h, w, c))
    as [d|e] eqn:Hd.
  - apply create_mirrored_landmarks_spec in Hd as (pts & Hpts & _).
    apply list_elem_of_lookup in Hin as [i Hi].
    destruct (Forall2_lookup_l _ _ _ _ _ Hpts Hi)
      as (pt & _ & px & py & Hpx & Hpy & _).
    destruct Hbad as [Hbad|Hbad].
    + destruct (to_pixel_non_finite _ w Hbad) as [e He]. congruence.
    + destruct (to_pixel_non_finite _ h Hbad) as [e He]. congruence.
  - exists e. split; [done|]. unfold create_mirrored_landmarks in Hd.
    by eapply mirror_loop_raise_kind.
Qed.

(** X2.  A landmark with a NaN or infinite coordinate makes the transform
    raise, whatever the other landmarks are: no partial map is returned.
    The only exceptions the transform raises are [ValueError] (a NaN
    product) and [OverflowError] (an infinite product or a frame dimension
    too large for a [float]). *)
Theorem non_finite_coordinate_makes_transform_raise self landmarks h w c :
  (∀ e, create_mirrored_landmarks self landmarks (h, w, c) = Raise e →
        e = ValueError ∨ e = OverflowError)
  ∧ (∀ lm, lm ∈ landmarks →
           non_finite (lm_x lm) ∨ non_finite (lm_y lm) →
           ∃ e, create_mirrored_landmarks self landmarks (h, w, c) = Raise e).
Proof.
  split.
  - intros e. unfold create_mirrored_landmarks. apply mirror_loop_raise_kind.
  - intros lm Hin Hbad.
    destruct (create_mirrored_landmarks_non_finite self landmarks h w c lm
                Hin Hbad) as (e & He & _).
    by exists e.
Qed.

Lemma non_finite_coordinate_makes_transform_raise_witness :
  ∃ e, create_mirrored_landmarks default_visualizer
         [Landmark 0.5 0.5 0 1; Landmark 0.25 nan 0 1] (480, 640, 3)
       = Raise e
       ∧ (e = ValueError ∨ e = OverflowError).
Proof.
  destruct (non_finite_coordinate_makes_transform_raise default_visualizer
              [Landmark 0.5 0.5 0 1; Landmark 0.25 nan 0 1] 480 640 3)
    as [Hkind Hraise].
  destruct (Hraise (Landmark 0.25 nan 0 1)) as [e He].
  - apply list_elem_of_further, list_elem_of_here.
  - right. left. reflexivity.
  - exists e. split; [exact He|]. exact (Hkind e He).
Defined.

(** X3.  With normalized keypoints and exact frame dimensions every position
    of the mirrored map lies in the frame's rectangle moved right by the
    offset, both borders included: [dx <= x <= w + dx] and [0 <= y <= h]. *)
Theorem mirrored_positions_lie_in_shifted_frame self landmarks h w c d :
  Forall normalized_landmark landmarks →
  exact_dimension h → exact_dimension w →
  create_mirrored_landmarks self landmarks (h, w, c) = Ok d →
  Forall (λ p, offset_x self ≤ p.1 ≤ w + offset_x self ∧ 0 ≤ p.2 ≤ h)
    (PyDict.values d).
Proof.
  intros Hn Hh Hw Hd.
  destruct (create_mirrored_landmarks_normalized self landmarks h w c Hn Hh Hw)
    as (pts & Hpts & Heq).
  rewrite Heq in Hd. injection Hd as <-. rewrite values_zip_seqZ.
  eapply Forall2_Forall_r; [exact Hpts|]. apply Forall_true.
  intros lm pt (px & py & _ & _ & Hpx & Hpy & ->). simpl. lia.
Qed.

Lemma mirrored_positions_lie_in_shifted_frame_witness :
  Forall (λ p, offset_x default_visualizer ≤ p.1
               ≤ 100 + offset_x default_visualizer ∧ 0 ≤ p.2 ≤ 100)
    (PyDict.values [(0, (200, 50)); (1, (225, 100))]).
Proof.
  apply (mirrored_positions_lie_in_shifted_frame default_visualizer
           [Landmark 0.5 0.5 0 1; Landmark 0.25 1 0 1] 100 100 3).
  - repeat constructor.
  - unfold exact_dimension. lia.
  - unfold exact_dimension. lia.
  - vm_compute. reflexivity.
Defined.

Lemma to_pixel_zero n : exact_dimension n → to_pixel 0 n = Ok 0.
Proof.
  intros Hn.
  destruct (Binary64.to_pixel_between 0 n 0 0) as (p & Hp & Hb);
    [done|lia|done| |].
  - rewrite Binary64.Prim2SF_zero. simpl. lia.
  - rewrite Hp. f_equal. lia.
Qed.

Lemma to_pixel_one n : exact_dimension n → to_pixel 1 n = Ok n.
Proof.
  intros Hn. unfold exact_dimension in Hn.
  destruct (Binary64.to_pixel_between 1 n n n) as (p & Hp & Hb);
    [done|lia|lia| |].
  - rewrite Binary64.Prim2SF_one. unfold sf_between.
    replace (2 ^ (- -52)) with (Z.pos 4503599627370496)
      by (vm_compute; reflexivity).
    split; [done|]. rewrite (Z.mul_comm n). split; apply Z.le_refl.
  - rewrite Hp. f_equal. lia.
Qed.

(** X4.  The reflection is about the frame's width, not about its last
    column: a keypoint on the left border, [x = 0.0], is stored at
    [w + dx], one column beyond the frame moved by the offset, and a
    keypoint on the right border, [x = 1.0], at [dx]. *)
Theorem border_keypoints_map_to_window_ends self landmarks h w c idx lm :
  Forall normalized_landmark landmarks →
  exact_dimension h → exact_dimension w →
  landmarks !! idx = Some lm →
  ∃ d py,
    create_mirrored_landmarks self landmarks (h, w, c) = Ok d
    ∧ (lm_x lm = 0%float →
       PyDict.get (Z.of_nat idx) d = Some (w + offset_x self, py))
    ∧ (lm_x lm = 1%float →
       PyDict.get (Z.of_nat idx) d = Some (offset_x self, py)).
Proof.
  intros Hn Hh Hw Hidx.
  destruct (create_mirrored_landmarks_normalized self landmarks h w c Hn Hh Hw)
    as (pts & Hpts & ->).
  destruct (Forall2_lookup_l _ _ _ _ _ Hpts Hidx)
    as (pt & Hpt & px & py & Hpx & Hpy & _ & _ & ->).
  pose proof (PyDictFacts.get_zip_seqZ pts 0 idx _ Hpt) as Hget.
  rewrite Z.add_0_l in Hget.
  eexists _, py. split; [done|]. rewrite Hget. split; intros H0.
  - rewrite H0, to_pixel_zero in Hpx by done. injection Hpx as <-.
    do 3 f_equal. lia.
  - rewrite H0, to_pixel_one in Hpx by done. injection Hpx as <-.
    do 3 f_equal. lia.
Qed.

Lemma border_keypoints_map_to_window_ends_witness :
  ∃ d py,
    create_mirrored_landmarks zero_offset_visualizer
      [Landmark 0 0.5 0 1; Landmark 1 0.5 0 1] (480, 640, 3) = Ok d
    ∧ PyDict.get 0 d = Some (640, py).
Proof.
  destruct (border_keypoints_map_to_window_ends zero_offset_visualizer
              [Landmark 0 0.5 0 1; Landmark 1 0.5 0 1] 480 640 3 0%nat
              (Landmark 0 0.5 0 1))
    as (d & py & Hd & Hleft & _).
  - repeat constructor.
  - unfold exact_dimension. lia.
  - unfold exact_dimension. lia.
  - reflexivity.
  - exists d, py. split; [exact Hd|]. apply Hleft. reflexivity.
Defined.

(** ** The renderer and the compositor together *)

Lemma count_event_all P tr :
  Forall (λ e, P e = true) tr → count_event P tr = length tr.
Proof.
  unfold count_event. induction 1 as [|e tr He _ IH]; [done|].
  rewrite filter_cons, decide_True by done. simpl. by rewrite IH.
Qed.

Lemma count_event_prefix P made calls :
  made `prefix_of` calls → (count_event P made ≤ count_event P calls)%nat.
Proof. intros [k ->]. rewrite count_event_app. lia. Qed.

Lemma count_draw_calls self replica ml connections :
  count_event is_circle (draw_calls self replica ml connections)
  = length (PyDict.values ml)
  ∧ count_event is_line (draw_calls self replica ml connections)
    = length (line_calls self replica ml connections).
Proof.
  unfold draw_calls.
  destruct (circle_calls_are_circles self replica ml) as [Hcc Hcl].
  destruct (line_calls_are_lines self replica ml connections) as [Hll Hlc].
  rewrite !count_event_app.
  rewrite (count_event_all _ _ Hcc), (count_event_none _ _ Hlc).
  rewrite (count_event_all _ _ Hll), (count_event_none _ _ Hcl).
  unfold circle_calls. rewrite length_fmap. lia.
Qed.

Section RenderingFacts.
Context `{OpenCV}.

(** X5.  Whether OpenCV accepts the drawing calls or rejects one, the
    renderer makes its calls in the order circles, then lines, and every
    line it asks for joins two positions for which it has asked a circle
    before, on the same canvas: once a line call is made, all circle
    calls have been made. *)
Theorem lines_join_drawn_keypoints self frame ml connections s f :
  heap s !! frame = Some f →
  let replica := fresh (dom (heap s)) in
  ∃ r s' made,
    draw_mirrored_pose self frame ml connections s = (r, s')
    ∧ trace s' = trace s ++ made
    ∧ made `prefix_of` circle_calls self replica ml
                         ++ line_calls self replica ml connections
    ∧ ∀ p q col t, EvLine replica p q col t ∈ made →
        circle_calls self replica ml `prefix_of` made
        ∧ EvCircle replica p (circle_radius self) (landmark_color self) (-1)
            ∈ made
        ∧ EvCircle replica q (circle_radius self) (landmark_color self) (-1)
            ∈ made.
Proof.
  intros Hf replica.
  destruct (draw_mirrored_pose_outcome self frame ml connections s f Hf)
    as (Hrun & Hprefix & _).
  fold replica in Hrun, Hprefix.
  set (p := rendering self f replica ml connections) in *.
  eexists _, _, (calls_made p). split; [exact Hrun|].
  split; [done|]. split; [done|].
  intros pt qt col t Hline.
  assert (circle_calls self replica ml `prefix_of` calls_made p) as Hall
    by (by eapply circles_precede_lines).
  split; [done|].
  assert (EvLine replica pt qt col t
            ∈ line_calls self replica ml connections) as Hl.
  { destruct Hprefix as [k Hk].
    assert (EvLine replica pt qt col t
              ∈ draw_calls self replica ml connections) as Hin
      by (rewrite Hk; apply elem_of_app; by left).
    unfold draw_calls in Hin. apply elem_of_app in Hin as [Hin|Hin]; [|done].
    destruct (circle_calls_are_circles self replica ml) as [_ Hnl].
    rewrite Forall_forall in Hnl. by specialize (Hnl _ Hin). }
  destruct (line_calls_spec self replica ml connections) as (_ & Hfrom & _).
  destruct (Hfrom _ Hl) as (a & b & p' & q' & _ & _ & _ & Hp & Hq & Heq).
  injection Heq as -> -> _ _.
  destruct Hall as [k Hk]. rewrite Hk.
  split; apply elem_of_app; left; unfold circle_calls;
    (eapply list_elem_of_fmap_2'; [|reflexivity]);
    by eapply get_Some_values.
Qed.

(** X6.  Rendering the map that the mirror transform made of [n]
    landmarks asks for [n] circles and for a line for exactly those
    connections whose two indices both lie in [0, n): an index of the
    topology beyond the landmarks, or a negative one, is skipped and never
    wraps around.  Whatever OpenCV answers, no more calls than these are
    made and no other call; when OpenCV accepts them, all are made. *)
Theorem rendering_draws_connections_within_range self self' landmarks h w c
    ml frame connections s f :
  create_mirrored_landmarks self landmarks (h, w, c) = Ok ml →
  heap s !! frame = Some f →
  let in_range :=
    filter (λ c, 0 ≤ c.1 < Z.of_nat (length landmarks)
                 ∧ 0 ≤ c.2 < Z.of_nat (length landmarks)) connections in
  ∃ r s' calls,
    draw_mirrored_pose self' frame ml connections s = (r, s')
    ∧ trace s' = trace s ++ calls
    ∧ (count_event is_circle calls ≤ length landmarks)%nat
    ∧ (count_event is_line calls ≤ length in_range)%nat
    ∧ length calls
      = (count_event is_circle calls + count_event is_line calls)%nat
    ∧ (drawable self' f ml connections →
       r = Ok (fresh (dom (heap s)))
       ∧ count_event is_circle calls = length landmarks
       ∧ count_event is_line calls = length in_range).
Proof.
  intros Hml Hf in_range.
  apply create_mirrored_landmarks_spec in Hml as (pts & Hpts & ->).
  pose proof (Forall2_length _ _ _ Hpts) as Hlen.
  set (ml := zip (seqZ 0 (Z.of_nat (length pts))) pts).
  set (replica := fresh (dom (heap s))).
  destruct (draw_mirrored_pose_outcome self' frame ml connections s f Hf)
    as (Hrun & Hprefix & _ & _ & _ & Hacc & Hok).
  fold replica in Hrun, Hprefix, Hacc, Hok.
  set (p := rendering self' f replica ml connections) in *.
  destruct (count_draw_calls self' replica ml connections) as [Hnc Hnl].
  assert (length (PyDict.values ml) = length landmarks) as Hvals.
  { unfold ml, PyDict.values.
    rewrite length_fmap, length_zip, length_seqZ. lia. }
  assert (length (line_calls self' replica ml connections)
          = length in_range) as Hlines.
  { destruct (line_calls_spec self' replica ml connections) as (_ & _ & ->).
    unfold in_range. f_equal. apply list_filter_iff. intros [a b]. simpl.
    rewrite andb_true_iff. unfold PyDict.contains.
    rewrite !bool_decide_eq_true.
    fold (PyDict.keys ml). unfold ml.
    rewrite PyDictFacts.keys_zip_seqZ, !elem_of_seqZ. lia. }
  eexists _, _, (calls_made p). split; [exact Hrun|].
  split; [done|].
  pose proof (count_event_prefix is_circle _ _ Hprefix) as Hc.
  pose proof (count_event_prefix is_line _ _ Hprefix) as Hl.
  split_and!; [lia|lia| |].
  - destruct Hprefix as [k Hk].
    pose proof (draw_calls_are_draws self' replica ml connections) as Hd.
    rewrite Hk, Forall_app in Hd. destruct Hd as [Hd _].
    clear -Hd. induction Hd as [|e made He _ IH]; [done|].
    rewrite !count_event_cons. simpl. rewrite IH.
    destruct e; simpl in *; try done; lia.
  - intros Hdr. rewrite (Hok Hdr), (Hacc (Hok Hdr)).
    split_and!; [done|lia|lia].
Qed.

(** X7.  Rendering a map over a colour frame and compositing the result
    with that frame never fails when OpenCV accepts the drawing calls: the
    canvas has the frame's shape and element type, so [cv2.add] returns
    the saturating sum.  The frame, the canvas and the composite are three
    distinct arrays, the frame is left as it was, and the compositor makes
    no call of its own. *)
Theorem render_then_composite_never_fails self frame ml connections s f :
  heap s !! frame = Some f →
  color_frame f → drawable self f ml connections →
  ∃ replica s1 out s2 canvas,
    draw_mirrored_pose self frame ml connections s = (Ok replica, s1)
    ∧ create_composite self frame replica s1 = (Ok out, s2)
    ∧ replica ≠ frame ∧ out ≠ frame ∧ out ≠ replica
    ∧ heap s !! replica = None ∧ heap s !! out = None
    ∧ heap s2 !! frame = Some f
    ∧ heap s2 !! replica = Some canvas
    ∧ shape canvas = shape f
    ∧ uint8_array canvas
    ∧ heap s2 !! out = Some (add_images f canvas)
    ∧ trace s2 = trace s1.
Proof.
  intros Hf Hcf Hdr. pose proof (fresh_loc_unused s) as Hfresh.
  set (replica := fresh (dom (heap s))) in *.
  assert (replica ≠ frame) as Hne by congruence.
  destruct (draw_mirrored_pose_outcome self frame ml connections s f Hf)
    as (Hrun & _ & Hshape & Hu8 & _ & _ & Hok).
  fold replica in Hrun, Hshape, Hu8, Hok.
  set (p := rendering self f replica ml connections) in *.
  rewrite (Hok Hdr) in Hrun. cbn [outcome_of] in Hrun.
  set (s1 := store replica (painted p) (record (calls_made p) s)) in *.
  assert (heap s1 !! frame = Some f) as Hf1.
  { simpl. by rewrite lookup_insert_ne. }
  assert (heap s1 !! replica = Some (painted p)) as Hc1
    by apply lookup_insert_eq.
  pose proof (create_composite_spec self frame replica s1 f (painted p)
                Hf1 Hc1 (eq_sym Hshape) Hcf Hu8) as Hadd.
  pose proof (fresh_loc_unused s1) as Hfresh1.
  set (out := fresh (dom (heap s1))) in *.
  assert (out ≠ frame) as Hof by congruence.
  assert (out ≠ replica) as Hor by congruence.
  eexists replica, s1, out, _, (painted p).
  split; [exact Hrun|]. split; [exact Hadd|]. simpl.
  split_and!; try done.
  - simpl in Hfresh1. rewrite lookup_insert_ne in Hfresh1 by done. done.
  - rewrite !lookup_insert_ne by done. done.
  - rewrite lookup_insert_ne by done. apply lookup_insert_eq.
  - apply lookup_insert_eq.
Qed.

(** X8.  Compositing never darkens: for a colour frame and a canvas of
    its shape, both [uint8], every channel of the composite is at least
    the frame's and the canvas's channel and at most their sum, and the
    composite is again a [uint8] array of that shape, so it can be
    composited further. *)
Theorem composite_never_darkens self frame canvas s f c :
  heap s !! frame = Some f → heap s !! canvas = Some c →
  shape f = shape c → color_frame f → uint8_array c →
  ∃ out s' o,
    create_composite self frame canvas s = (Ok out, s')
    ∧ heap s' !! out = Some o
    ∧ shape o = shape f
    ∧ color_frame o
    ∧ ∀ i x y v, img_data f !! i = Some x → img_data c !! i = Some y →
        img_data o !! i = Some v → x ≤ v ∧ y ≤ v ∧ v ≤ x + y.
Proof.
  intros Hf Hc Hshape Hcf Hcu.
  pose proof Hcf as (Hh & Hw & Hch & Hflen & Hfb).
  destruct Hcu as [Hclen Hcb].
  rewrite (create_composite_spec self frame canvas s f c) by done.
  eexists _, _, _. split; [done|]. simpl.
  split; [apply lookup_insert_eq|]. split; [done|]. split.
  - unfold color_frame, uint8_array. simpl. split_and!; try done; try lia.
    + rewrite length_zip_with_l_eq; [done|].
      rewrite Hflen, Hclen. unfold shape in Hshape.
      by injection Hshape as -> -> ->.
    + apply Forall_lookup_2. intros i v Hv.
      apply lookup_zip_with_Some in Hv as (x & y & -> & _ & _).
      apply saturate_cast_u8_range.
  - intros i x y v Hx Hy Hv. simpl in Hv.
    rewrite lookup_zip_with, Hx, Hy in Hv. simpl in Hv. injection Hv as <-.
    pose proof (Forall_lookup_1 _ _ _ _ Hfb Hx) as Hxb.
    pose proof (Forall_lookup_1 _ _ _ _ Hcb Hy) as Hyb. simpl in Hxb, Hyb.
    rewrite saturate_cast_u8_min by done. lia.
Qed.

(** X17.  A line thickness that is not positive.  When some pair of the
    topology has both end points in the map, the renderer does not return:
    either OpenCV rejects a circle, or all circles are drawn and OpenCV
    rejects the first line.  So at most one line call is made, the first,
    after all circles, and it ends the call with an exception deriving
    from [Exception]; the frame is left as it was. *)
Theorem non_positive_thickness_rejects_first_line self frame ml connections
    s f a b :
  heap s !! frame = Some f →
  line_thickness self ≤ 0 →
  (a, b) ∈ connections →
  PyDict.contains a ml = true → PyDict.contains b ml = true →
  let replica := fresh (dom (heap s)) in
  ∃ x s' made,
    draw_mirrored_pose self frame ml connections s = (Raise x, s')
    ∧ trace s' = trace s ++ made
    ∧ made `prefix_of` circle_calls self replica ml
                         ++ take 1 (line_calls self replica ml connections)
    ∧ (∀ e, e ∈ made → is_line e = true →
         is_Exception x = true
         ∧ made = circle_calls self replica ml
                    ++ take 1 (line_calls self replica ml connections))
    ∧ heap s' !! frame = Some f.
Proof.
  intros Hf Ht Hab Ha Hb replica.
  pose proof (fresh_loc_unused s) as Hfresh. fold replica in Hfresh.
  assert (replica ≠ frame) as Hne by congruence.
  rewrite (draw_mirrored_pose_spec self frame ml connections s f Hf).
  cbv zeta. fold replica. unfold rendering, draw_calls.
  set (circles := circle_calls self replica ml).
  set (lines := line_calls self replica ml connections).
  destruct (line_calls_spec self replica ml connections)
    as (Hin & Hfrom & _).
  fold replica lines in Hin, Hfrom.
  apply PyDictFacts.contains_get in Ha as [pa Hpa].
  apply PyDictFacts.contains_get in Hb as [pb Hpb].
  pose proof (Hin a b pa pb Hab Hpa Hpb) as Hline.
  destruct lines as [|e rest] eqn:Hlines; [by apply elem_of_nil in Hline|].
  destruct (Hfrom e (list_elem_of_here _ _))
    as (a' & b' & p & q & _ & _ & _ & _ & _ & ->).
  rewrite paint_app.
  pose proof (paint_prefix circles (zeros_like f)) as Hprefix.
  destruct (rejection (paint (zeros_like f) circles)) as [x|] eqn:Hrej.
  - rewrite Hrej. cbn [outcome_of].
    eexists x, _, _. split; [reflexivity|].
    cbn [store record trace heap]. split_and!.
    + done.
    + by apply prefix_app_r.
    + intros e He Hl. destruct Hprefix as [k Hk].
      destruct (circle_calls_are_circles self replica ml) as [_ Hnl].
      fold circles in Hnl. rewrite Forall_forall in Hnl.
      rewrite (Hnl e) in Hl; [done|].
      rewrite Hk. apply elem_of_app. by left.
    + by rewrite lookup_insert_ne.
  - cbv zeta. cbn [paint apply_draw].
    destruct (raster_line_thickness
                (painted (paint (zeros_like f) circles)) p q
                (connection_color self) (line_thickness self) Ht)
      as (x & -> & Hexc).
    cbn [rejection painted calls_made outcome_of].
    rewrite (paint_accepted circles _ Hrej).
    eexists x, _, _. split; [reflexivity|].
    cbn [store record trace heap take]. split_and!; try done.
    by rewrite lookup_insert_ne.
Qed.

End RenderingFacts.

Lemma lines_join_drawn_keypoints_witness :
  ∃ r s' made,
    draw_mirrored_pose (H := endpoint_rasterizer) default_visualizer
      1%positive [(0, (0, 0)); (1, (1, 1))] [(0, 1); (1, 5)]
      (state_with_frame blank_frame) = (r, s')
    ∧ trace s' = made
    ∧ length made = 3%nat.
Proof.
  destruct (lines_join_drawn_keypoints
              (H := endpoint_rasterizer) default_visualizer 1%positive
              [(0, (0, 0)); (1, (1, 1))] [(0, 1); (1, 5)]
              (state_with_frame blank_frame) blank_frame)
    as (r & s' & made & Hrun & Htr & _).
  - apply lookup_singleton_eq.
  - exists r, s', made. split_and!; [exact Hrun|exact Htr|].
    assert (s' = (draw_mirrored_pose (H := endpoint_rasterizer)
                    default_visualizer 1%positive
                    [(0, (0, 0)); (1, (1, 1))] [(0, 1); (1, 5)]
                    (state_with_frame blank_frame)).2) as Hs'
      by (rewrite Hrun; reflexivity).
    simpl in Htr. rewrite <- Htr, Hs'. reflexivity.
Defined.

Lemma rendering_draws_connections_within_range_witness :
  ∃ s' calls,
    draw_mirrored_pose (H := endpoint_rasterizer) default_visualizer
      1%positive [(0, (200, 50)); (1, (225, 100))]
      [(0, 1); (1, 2); (-1, 0)] (state_with_frame blank_frame)
    = (Ok (fresh (dom (heap (state_with_frame blank_frame)))), s')
    ∧ trace s' = calls
    ∧ count_event is_circle calls = 2%nat
    ∧ count_event is_line calls = 1%nat.
Proof.
  destruct (rendering_draws_connections_within_range
              (H := endpoint_rasterizer) default_visualizer
              default_visualizer [Landmark 0.5 0.5 0 1; Landmark 0.25 1 0 1]
              100 100 3 [(0, (200, 50)); (1, (225, 100))] 1%positive
              [(0, 1); (1, 2); (-1, 0)] (state_with_frame blank_frame)
              blank_frame)
    as (r & s' & calls & Hrun & Htr & _ & _ & _ & Hok).
  - vm_compute. reflexivity.
  - apply lookup_singleton_eq.
  - destruct Hok as (-> & Hc & Hl).
    + apply endpoint_rasterizer_drawable; [done|done|].
      repeat constructor; done.
    + exists s', calls.
      split_and!; [exact Hrun|exact Htr|exact Hc|exact Hl].
Defined.

Lemma render_then_composite_never_fails_witness :
  ∃ replica s1 out s2 canvas,
    draw_mirrored_pose (H := endpoint_rasterizer) default_visualizer
      1%positive [(0, (0, 0)); (1, (1, 1))] [(0, 1); (1, 5)]
      (state_with_frame bright_frame) = (Ok replica, s1)
    ∧ create_composite (H := endpoint_rasterizer) default_visualizer
        1%positive replica s1
      = (Ok out, s2)
    ∧ heap s2 !! 1%positive = Some bright_frame
    ∧ heap s2 !! out = Some (add_images bright_frame canvas).
Proof.
  destruct (render_then_composite_never_fails
              (H := endpoint_rasterizer) default_visualizer 1%positive
              [(0, (0, 0)); (1, (1, 1))] [(0, 1); (1, 5)]
              (state_with_frame bright_frame) bright_frame)
    as (replica & s1 & out & s2 & canvas & Hdraw & Hadd & _ & _ & _ & _ & _
        & Hframe & _ & _ & _ & Hout & _).
  - apply lookup_singleton_eq.
  - unfold color_frame. simpl. split_and!; try lia.
    split; [reflexivity|]. simpl. repeat constructor; lia.
  - apply endpoint_rasterizer_drawable; [done|done|].
    repeat constructor; done.
  - exists replica, s1, out, s2, canvas.
    split_and!; [exact Hdraw|exact Hadd|exact Hframe|exact Hout].
Defined.

Lemma composite_never_darkens_witness :
  ∃ out s' o,
    create_composite (H := endpoint_rasterizer) default_visualizer
      1%positive 2%positive
      (state_with_frame_and_canvas bright_frame sample_canvas) = (Ok out, s')
    ∧ heap s' !! out = Some o
    ∧ color_frame o.
Proof.
  destruct (composite_never_darkens (H := endpoint_rasterizer)
              default_visualizer 1%positive 2%positive
              (state_with_frame_and_canvas bright_frame sample_canvas)
              bright_frame sample_canvas)
    as (out & s' & o & Hrun & Hheap & _ & Hu8 & _).
  - simpl. rewrite lookup_insert_ne by done. apply lookup_singleton_eq.
  - apply lookup_insert_eq.
  - reflexivity.
  - unfold color_frame. simpl. split_and!; try lia.
    split; [reflexivity|]. simpl. repeat constructor; lia.
  - split; [reflexivity|]. simpl. repeat constructor; lia.
  - exists out, s', o. split_and!; [exact Hrun|exact Hheap|exact Hu8].
Defined.

Lemma non_positive_thickness_rejects_first_line_witness :
  ∃ x s',
    draw_mirrored_pose (H := endpoint_rasterizer)
      (visualizer_of_arguments zero_thickness_arguments) 1%positive
      [(0, (0, 0)); (1, (1, 1))] [(0, 1); (1, 0)]
      (state_with_frame blank_frame) = (Raise x, s')
    ∧ count_event is_circle (trace s') = 2%nat
    ∧ count_event is_line (trace s') = 1%nat.
Proof.
  destruct (non_positive_thickness_rejects_first_line
              (H := endpoint_rasterizer)
              (visualizer_of_arguments zero_thickness_arguments) 1%positive
              [(0, (0, 0)); (1, (1, 1))] [(0, 1); (1, 0)]
              (state_with_frame blank_frame) blank_frame 0 1)
    as (x & s' & made & Hrun & _).
  - apply lookup_singleton_eq.
  - simpl. lia.
  - apply list_elem_of_here.
  - reflexivity.
  - reflexivity.
  - exists x, s'. split; [exact Hrun|].
    assert (s' = (draw_mirrored_pose (H := endpoint_rasterizer)
                    (visualizer_of_arguments zero_thickness_arguments)
                    1%positive [(0, (0, 0)); (1, (1, 1))] [(0, 1); (1, 0)]
                    (state_with_frame blank_frame)).2) as ->
      by (rewrite Hrun; reflexivity).
    split; vm_compute; reflexivity.
Defined.
(** ** The loop, pass by pass *)

Lemma detected_arrays_app tr1 tr2 :
  detected_arrays (tr1 ++ tr2) = detected_arrays tr1 ++ detected_arrays tr2.
Proof. apply omap_app. Qed.

Lemma detected_arrays_draws draws :
  Forall (λ e, is_draw e = true) draws → detected_arrays draws = [].
Proof.
  induction 1 as [|e draws He _ IH]; [done|].
  unfold detected_arrays in *. cbn [omap list_omap]. rewrite IH.
  by destruct e.
Qed.

Section LoopRuns.
Context `{OpenCV}.

Lemma imshow_run name shown r s :
  imshow name shown r s = (r, record [EvImshow name shown] s).
Proof. unfold imshow. rewrite bind_run, log_run. done. Qed.

(** The end of a pass, from [cv2.waitKey] on, with [k] the rest of the
    loop. *)
Lemma waitKey_run it (k : M unit) s :
  (log (EvWaitKey 30) ≫= λ _,
   key ← lift (it_waitKey it);
   if decide (Z.land key 255 = ord_q) then mret () else k) s
  = match it_waitKey it with
    | Raise e => (Raise e, record [EvWaitKey 30] s)
    | Ok key =>
        if decide (Z.land key 255 = ord_q)
        then (Ok (), record [EvWaitKey 30] s)
        else k (record [EvWaitKey 30] s)
    end.
Proof.
  rewrite bind_run, log_run. cbv beta iota. rewrite bind_run. unfold lift.
  destruct (it_waitKey it) as [key|e]; [|done]. by case_decide.
Qed.

(** One pass of the loop in closed form, with the calls of the visualizer
    replaced by what they do. *)
Lemma processing_loop_pass v conns name it rest s :
  processing_loop v conns name (it :: rest) s
  = match it_read it with
    | Raise e => (Raise e, record [EvRead] s)
    | Ok None => (Ok (), record [EvRead] s)
    | Ok (Some img) =>
        let frame := fresh (dom (heap s)) in
        let s0 := record [EvDetect frame]
                    (store frame img (record [EvRead] s)) in
        match it_detect it with
        | Raise e => (Raise e, s0)
        | Ok None =>
            pass_end name it (processing_loop v conns name rest) frame s0
        | Ok (Some lms) =>
            match create_mirrored_landmarks v lms (shape img) with
            | Raise e => (Raise e, s0)
            | Ok ml =>
                let replica := fresh (dom (heap s0)) in
                let p := rendering v img replica ml conns in
                let s1 := store replica (painted p)
                            (record (calls_made p) s0) in
                match rejection p with
                | Some x => (Raise x, s1)
                | None =>
                    match cv_add img (painted p) with
                    | Raise x => (Raise x, s1)
                    | Ok sum =>
                        let composite := fresh (dom (heap s1)) in
                        pass_end name it (processing_loop v conns name rest)
                          composite (store composite sum s1)
                    end
                end
            end
        end
    end.
Proof.
  unfold pass_end. cbv zeta. cbn [processing_loop].
  rewrite bind_run, log_run. cbv beta iota.
  rewrite bind_run. unfold lift at 1.
  destruct (it_read it) as [[img|]|e]; [|done..].
  cbv beta iota. rewrite bind_run, alloc_run. cbv beta iota.
  change (heap (record [EvRead] s)) with (heap s).
  set (frame := fresh (dom (heap s))).
  rewrite bind_run, log_run. cbv beta iota.
  set (s0 := record [EvDetect frame] (store frame img (record [EvRead] s))).
  assert (heap s0 !! frame = Some img) as Hframe by apply lookup_insert_eq.
  rewrite bind_run. unfold lift at 1.
  destruct (it_detect it) as [[lms|]|e]; [| |done].
  - cbv beta iota. rewrite bind_run.
    rewrite (bind_run (load frame)). unfold load at 1. rewrite Hframe.
    cbv beta iota. rewrite bind_run. unfold lift at 1.
    destruct (create_mirrored_landmarks v lms (shape img)) as [ml|e];
      [|done].
    cbv beta iota. rewrite bind_run.
    rewrite (draw_mirrored_pose_spec v frame ml conns s0 img Hframe).
    cbv zeta.
    set (replica := fresh (dom (heap s0))).
    set (p := rendering v img replica ml conns).
    set (s1 := store replica (painted p) (record (calls_made p) s0)).
    destruct (rejection p) as [x|]; [done|]. cbn [outcome_of].
    rewrite bind_run.
    rewrite (create_composite_run v frame replica s1 img (painted p)).
    + destruct (cv_add img (painted p)) as [sum|x]; [|done].
      rewrite imshow_run.
      destruct (it_imshow it) as [[]|e]; [apply waitKey_run|done].
    + unfold s1. cbn [store record heap]. rewrite lookup_insert_ne; [done|].
      intros Heq. pose proof (fresh_loc_unused s0) as Hfr.
      fold replica in Hfr. congruence.
    + apply lookup_insert_eq.
  - cbv beta iota. rewrite bind_run, imshow_run.
    destruct (it_imshow it) as [[]|e]; [apply waitKey_run|done].
Qed.

(** What the end of a pass adds to the heap and to the trace, when the
    rest of the loop [k] only adds arrays and makes the calls of a loop. *)
Lemma pass_end_shape name it (k : M unit) shown s :
  (∀ s0, heap s0 ⊆ heap (k s0).2
         ∧ ∃ tr, trace (k s0).2 = trace s0 ++ tr ∧ loop_calls name tr) →
  heap s ⊆ heap (pass_end name it k shown s).2
  ∧ ∃ tail,
      trace (pass_end name it k shown s).2
      = trace s ++ [EvImshow name shown] ++ tail
      ∧ (tail = [] ∨ tail = [EvWaitKey 30]
         ∨ ∃ tr, tail = EvWaitKey 30 :: tr ∧ loop_calls name tr).
Proof.
  intros Hk. unfold pass_end.
  destruct (it_imshow it) as [[]|e].
  2:{ split; [done|]. exists []. split; [done|]. by left. }
  cbv zeta. destruct (it_waitKey it) as [key|e].
  2:{ split; [done|]. exists [EvWaitKey 30]. split; [|by right; left].
      simpl. by rewrite <- app_assoc. }
  case_decide.
  { split; [done|]. exists [EvWaitKey 30]. split; [|by right; left].
    simpl. by rewrite <- app_assoc. }
  match goal with |- context [k ?s0] =>
    destruct (Hk s0) as (Hheap & tr & Htr & Hcalls) end.
  split; [exact Hheap|]. exists (EvWaitKey 30 :: tr).
  split; [|right; right; by eauto].
  rewrite Htr. simpl. by rewrite <- !app_assoc.
Qed.

Lemma loop_calls_of_pass name frame draws shown tail :
  Forall (λ e, is_draw e = true) draws →
  tail = [] ∨ tail = [EvWaitKey 30]
  ∨ (∃ tr, tail = EvWaitKey 30 :: tr ∧ loop_calls name tr) →
  loop_calls name
    ([EvRead; EvDetect frame] ++ draws ++ [EvImshow name shown] ++ tail).
Proof.
  intros Hdraws [->|[->|(tr & -> & Htr)]].
  - by apply calls_until_imshow.
  - by apply calls_until_waitKey.
  - by apply calls_full_pass.
Qed.

(** The calls the renderer made are drawing calls. *)
Lemma rendering_calls_are_draws v f replica ml conns :
  Forall (λ e, is_draw e = true)
    (calls_made (rendering v f replica ml conns)).
Proof.
  destruct (paint_prefix (draw_calls v replica ml conns) (zeros_like f))
    as [k Hk].
  pose proof (draw_calls_are_draws v replica ml conns) as Hd.
  rewrite Hk, Forall_app in Hd. apply Hd.
Qed.

(** Every run of the loop only adds arrays to the heap, and its calls
    follow the order of the passes. *)
Lemma processing_loop_shape v conns name its : ∀ s,
  heap s ⊆ heap (processing_loop v conns name its s).2
  ∧ ∃ tr, trace (processing_loop v conns name its s).2 = trace s ++ tr
          ∧ loop_calls name tr.
Proof.
  induction its as [|it rest IH]; intros s.
  { split; [done|]. exists [EvRead]. split; [done|]. constructor. }
  rewrite processing_loop_pass.
  destruct (it_read it) as [[img|]|e].
  2,3: split; [done|]; exists [EvRead]; split; [done|]; constructor.
  cbv zeta. set (frame := fresh (dom (heap s))).
  set (s0 := record [EvDetect frame] (store frame img (record [EvRead] s))).
  assert (heap s ⊆ heap s0) as Hs0 by apply insert_fresh_subseteq.
  assert (trace s0 = trace s ++ [EvRead; EvDetect frame]) as Ht0.
  { simpl. by rewrite <- app_assoc. }
  assert (∀ r : result unit,
            heap s ⊆ heap (r, s0).2
            ∧ ∃ tr, trace (r, s0).2 = trace s ++ tr ∧ loop_calls name tr)
    as Hstop.
  { intros r. split; [done|]. exists ([EvRead; EvDetect frame] ++ []).
    split; [done|]. by apply calls_until_draw. }
  destruct (it_detect it) as [[lms|]|e]; [| |apply Hstop].
  - destruct (create_mirrored_landmarks v lms (shape img)) as [ml|e];
      [|apply Hstop].
    set (replica := fresh (dom (heap s0))).
    set (p := rendering v img replica ml conns).
    set (s1 := store replica (painted p) (record (calls_made p) s0)).
    assert (heap s ⊆ heap s1) as Hs1.
    { etrans; [exact Hs0|]. apply insert_fresh_subseteq. }
    assert (trace s1 = trace s ++ [EvRead; EvDetect frame] ++ calls_made p)
      as Ht1.
    { change (trace s1) with (trace s0 ++ calls_made p).
      rewrite Ht0. by rewrite <- app_assoc. }
    assert (∀ r : result unit,
              heap s ⊆ heap (r, s1).2
              ∧ ∃ tr, trace (r, s1).2 = trace s ++ tr ∧ loop_calls name tr)
      as Hstop1.
    { intros r. split; [done|]. eexists. split; [exact Ht1|].
      apply calls_until_draw, rendering_calls_are_draws. }
    destruct (rejection p) as [x|]; [apply Hstop1|].
    destruct (cv_add img (painted p)) as [sum|x]; [|apply Hstop1].
    set (composite := fresh (dom (heap s1))).
    set (s2 := store composite sum s1).
    assert (heap s ⊆ heap s2) as Hs2.
    { etrans; [exact Hs1|]. apply insert_fresh_subseteq. }
    destruct (pass_end_shape name it (processing_loop v conns name rest)
                composite s2 IH) as (Hheap & tail & Htr & Htail).
    split; [by etrans|].
    exists ([EvRead; EvDetect frame] ++ calls_made p
              ++ [EvImshow name composite] ++ tail).
    split.
    + rewrite Htr. change (trace s2) with (trace s1).
      rewrite Ht1. by rewrite <- !app_assoc.
    + apply loop_calls_of_pass; [apply rendering_calls_are_draws|done].
  - destruct (pass_end_shape name it (processing_loop v conns name rest)
                frame s0 IH) as (Hheap & tail & Htr & Htail).
    split; [by etrans|].
    exists ([EvRead; EvDetect frame] ++ [] ++ [EvImshow name frame] ++ tail).
    split.
    + rewrite Htr, Ht0. by rewrite <- !app_assoc.
    + by apply loop_calls_of_pass.
Qed.

Lemma count_event_draws P draws :
  (∀ e, is_draw e = true → P e = false) →
  Forall (λ e, is_draw e = true) draws → count_event P draws = 0%nat.
Proof.
  intros HP Hd. apply count_event_none. eapply Forall_impl; [exact Hd|].
  exact HP.
Qed.

Lemma loop_calls_keep_step name tr : loop_calls name tr → calls_keep_step tr.
Proof.
  unfold calls_keep_step.
  induction 1 as [|frame draws Hd|frame draws shown Hd|frame draws shown Hd
                  |frame draws shown tr Hd _ IH];
    rewrite ?count_event_app, ?count_event_cons, ?count_event_nil;
    rewrite ?(count_event_draws is_read draws),
      ?(count_event_draws is_detect draws),
      ?(count_event_draws is_imshow draws),
      ?(count_event_draws is_waitKey draws);
    try done; try (by intros []); simpl; lia.
Qed.

(** The end of a pass either stops the loop after [imshow] or [waitKey],
    or hands over to the rest of the loop after both. *)
Lemma pass_end_cases name it (k : M unit) shown s :
  (∃ r tail,
     pass_end name it k shown s
     = (r, record ([EvImshow name shown] ++ tail) s)
     ∧ (tail = [] ∨ tail = [EvWaitKey 30]))
  ∨ pass_end name it k shown s
    = k (record [EvWaitKey 30] (record [EvImshow name shown] s)).
Proof.
  unfold pass_end. destruct (it_imshow it) as [[]|e].
  2:{ left. exists (Raise e), []. split; [done|by left]. }
  cbv zeta.
  assert (record [EvWaitKey 30] (record [EvImshow name shown] s)
          = record ([EvImshow name shown] ++ [EvWaitKey 30]) s) as Hrec.
  { unfold record. simpl. by rewrite <- app_assoc. }
  destruct (it_waitKey it) as [key|e].
  2:{ left. exists (Raise e), [EvWaitKey 30]. rewrite Hrec.
      split; [done|by right]. }
  case_decide; [|by right].
  left. exists (Ok ()), [EvWaitKey 30]. rewrite Hrec. split; [done|by right].
Qed.

(** Each call of the detector is on the array that holds the frame read on
    its pass: the [k]-th detection of a run is on an array that did not
    exist before the run and that holds, when the run is over, the frame
    the [k]-th read delivered. *)
Lemma processing_loop_detections v conns name its : ∀ s tr,
  trace (processing_loop v conns name its s).2 = trace s ++ tr →
  ∀ k frame, detected_arrays tr !! k = Some frame →
    ∃ it img, its !! k = Some it ∧ it_read it = Ok (Some img)
      ∧ heap s !! frame = None
      ∧ heap (processing_loop v conns name its s).2 !! frame = Some img.
Proof.
  induction its as [|it rest IH]; intros s tr Htr k fr Hk.
  { apply app_inv_head in Htr as <-. by destruct k. }
  rewrite processing_loop_pass in Htr |- *.
  destruct (it_read it) as [[img|]|e] eqn:Hread.
  2,3: apply app_inv_head in Htr as <-; by destruct k.
  cbv zeta in Htr |- *. set (frame := fresh (dom (heap s))) in *.
  set (s0 := record [EvDetect frame] (store frame img (record [EvRead] s)))
    in *.
  assert (heap s ⊆ heap s0) as Hs0 by apply insert_fresh_subseteq.
  assert (heap s !! frame = None) as Hfresh by apply fresh_loc_unused.
  assert (heap s0 !! frame = Some img) as Hframe by apply lookup_insert_eq.
  assert (trace s0 = trace s ++ [EvRead; EvDetect frame]) as Ht0.
  { simpl. by rewrite <- app_assoc. }
  (* a pass that ends the run in a state [s1] that holds the frame, after
     drawing calls and calls that are no detections *)
  assert (∀ (r : result unit) s1 draws tail,
            heap s1 !! frame = Some img →
            trace s1 = trace s ++ [EvRead; EvDetect frame] ++ draws ++ tail →
            Forall (λ e, is_draw e = true) draws →
            detected_arrays tail = [] →
            trace (r, s1).2 = trace s ++ tr →
            ∃ it' img', (it :: rest) !! k = Some it'
              ∧ it_read it' = Ok (Some img')
              ∧ heap s !! fr = None ∧ heap (r, s1).2 !! fr = Some img')
    as Hstop.
  { intros r s1 draws tail Hh Ht Hd Htail Htr'. cbn [snd] in *.
    rewrite Ht in Htr'. apply app_inv_head in Htr' as <-.
    rewrite !detected_arrays_app, (detected_arrays_draws _ Hd), Htail in Hk.
    destruct k as [|k]; [|by destruct k].
    injection Hk as <-. by exists it, img. }
  (* a pass that hands over to the rest of the loop *)
  assert (∀ s1 draws shown,
            heap s0 ⊆ heap s1 →
            trace s1 = trace s ++ [EvRead; EvDetect frame] ++ draws →
            Forall (λ e, is_draw e = true) draws →
            trace (pass_end name it (processing_loop v conns name rest)
                     shown s1).2 = trace s ++ tr →
            ∃ it' img', (it :: rest) !! k = Some it'
              ∧ it_read it' = Ok (Some img')
              ∧ heap s !! fr = None
              ∧ heap (pass_end name it (processing_loop v conns name rest)
                        shown s1).2 !! fr = Some img')
    as Hend.
  { intros s1 draws shown Hh Ht Hd Htr'.
    destruct (pass_end_cases name it (processing_loop v conns name rest)
                shown s1) as [(r & tail & Heq & Htail)|Heq];
      rewrite Heq in Htr' |- *.
    - apply (Hstop r _ draws ([EvImshow name shown] ++ tail)); try done.
      + cbn [record heap]. by eapply lookup_weaken.
      + cbn [record trace]. rewrite Ht. by rewrite <- !app_assoc.
      + by destruct Htail as [->| ->].
    - set (s2 := record [EvWaitKey 30] (record [EvImshow name shown] s1))
        in *.
      destruct (processing_loop_shape v conns name rest s2)
        as (Hsub & tr' & Htr2 & _).
      assert (trace s2 = trace s ++ [EvRead; EvDetect frame] ++ draws
                ++ [EvImshow name shown; EvWaitKey 30]) as Ht2.
      { unfold s2. cbn [record trace]. rewrite Ht.
        by rewrite <- !app_assoc. }
      pose proof Htr2 as Htr3. rewrite Htr', Ht2 in Htr3.
      rewrite <- !app_assoc in Htr3. apply app_inv_head in Htr3 as ->.
      rewrite !detected_arrays_app, (detected_arrays_draws _ Hd) in Hk.
      destruct k as [|k].
      + injection Hk as <-. exists it, img. split_and!; try done.
        eapply lookup_weaken; [|exact Hsub]. by eapply lookup_weaken.
      + destruct (IH s2 tr' Htr2 k fr Hk)
          as (it' & img' & Hit & Hr & Hnone & Hsome).
        exists it', img'. split_and!; try done.
        destruct (heap s !! fr) as [x|] eqn:Hx; [|done].
        assert (heap s2 !! fr = Some x) as Hy.
        { eapply lookup_weaken; [exact Hx|]. by etrans. }
        cbn [s2 record heap] in Hnone. unfold s2 in Hy.
        cbn [record heap] in Hy. congruence. }
  destruct (it_detect it) as [[lms|]|e].
  - destruct (create_mirrored_landmarks v lms (shape img)) as [ml|e].
    2:{ apply (Hstop _ s0 [] []); try done. }
    set (replica := fresh (dom (heap s0))) in *.
    set (p := rendering v img replica ml conns) in *.
    set (s1 := store replica (painted p) (record (calls_made p) s0)) in *.
    assert (heap s0 ⊆ heap s1) as Hs1 by apply insert_fresh_subseteq.
    assert (trace s1 = trace s ++ [EvRead; EvDetect frame] ++ calls_made p)
      as Ht1.
    { change (trace s1) with (trace s0 ++ calls_made p).
      rewrite Ht0. by rewrite <- app_assoc. }
    pose proof (rendering_calls_are_draws v img replica ml conns) as Hd.
    fold p in Hd.
    assert (∀ r : result unit,
              trace (r, s1).2 = trace s ++ tr →
              ∃ it' img', (it :: rest) !! k = Some it'
                ∧ it_read it' = Ok (Some img')
                ∧ heap s !! fr = None ∧ heap (r, s1).2 !! fr = Some img')
      as Hstop1.
    { intros r Hr. apply (Hstop r s1 (calls_made p) []); try done.
      - by eapply lookup_weaken.
      - by rewrite app_nil_r. }
    destruct (rejection p) as [x|]; [by apply Hstop1|].
    destruct (cv_add img (painted p)) as [sum|x]; [|by apply Hstop1].
    set (composite := fresh (dom (heap s1))) in *.
    apply (Hend (store composite sum s1) (calls_made p)); try done.
    etrans; [exact Hs1|]. apply insert_fresh_subseteq.
  - apply (Hend s0 []); try done.
  - apply (Hstop _ s0 [] []); try done.
Qed.

(** X9.  In every run of the loop, whatever the outside world and OpenCV
    do, the calls come pass by pass: [read_frame], then the detector,
    then the drawing calls, then [imshow] in the loop's own window, then
    [waitKey(30)]; only the last pass may be cut short, after any of its
    calls, the drawing calls included.  So no key is awaited without a
    display, nothing is displayed without a detection, nothing is detected
    without a read, and at most one read is not followed by a detection.
    The detector is called on the frame just read: its [k]-th call is on
    an array that the run created and that holds the frame the [k]-th
    read delivered. *)
Theorem loop_calls_follow_the_passes v conns name its s :
  ∃ tr, trace (processing_loop v conns name its s).2 = trace s ++ tr
        ∧ loop_calls name tr
        ∧ calls_keep_step tr
        ∧ ∀ k frame, detected_arrays tr !! k = Some frame →
            ∃ it img, its !! k = Some it ∧ it_read it = Ok (Some img)
              ∧ heap s !! frame = None
              ∧ heap (processing_loop v conns name its s).2 !! frame
                = Some img.
Proof.
  destruct (processing_loop_shape v conns name its s) as (_ & tr & Htr & Hc).
  exists tr. split_and!; [done|done|by eapply loop_calls_keep_step|].
  by apply processing_loop_detections.
Qed.

(** X10.  The loop never modifies or drops an array that exists when it
    starts: it only adds arrays.  In particular the frames of earlier
    passes are still as they were read. *)
Theorem loop_keeps_existing_arrays v conns name its s l img :
  heap s !! l = Some img →
  heap (processing_loop v conns name its s).2 !! l = Some img.
Proof.
  intros Hl. eapply lookup_weaken; [exact Hl|].
  apply processing_loop_shape.
Qed.

(** The renderer and the compositor on a colour frame, when OpenCV accepts
    the drawing calls. *)
Lemma rendering_accepted v f replica ml conns :
  color_frame f → drawable v f ml conns →
  let p := rendering v f replica ml conns in
  rejection p = None
  ∧ calls_made p = draw_calls v replica ml conns
  ∧ cv_add f (painted p) = Ok (add_images f (painted p)).
Proof.
  intros Hcf Hdr p.
  assert (rejection p = None) as Hnone.
  { apply paint_all_accepted. intros img e Hs He.
    by apply (Hdr img replica e). }
  split_and!; [done|by apply paint_accepted|].
  apply cv_add_saturating; [|done|].
  - unfold p, rendering. by rewrite paint_shape.
  - apply paint_uint8, zeros_like_uint8.
Qed.

(** A pass on which nothing fails, in closed form. *)
Lemma smooth_pass_run v conns name it rest s :
  smooth_pass v conns it →
  ∃ img sb shown draws,
    it_read it = Ok (Some img)
    ∧ heap sb !! fresh (dom (heap s)) = Some img
    ∧ heap s ⊆ heap sb
    ∧ trace sb = trace s ++ [EvRead; EvDetect (fresh (dom (heap s)))]
                   ++ draws ++ [EvImshow name shown; EvWaitKey 30]
    ∧ Forall (λ e, is_draw e = true) draws
    ∧ processing_loop v conns name (it :: rest) s
      = processing_loop v conns name rest sb.
Proof.
  intros (img & key & Hread & Hdetect & Hshow & Hkey & Hq).
  rewrite processing_loop_pass, Hread. cbv zeta.
  set (frame := fresh (dom (heap s))).
  set (s0 := record [EvDetect frame] (store frame img (record [EvRead] s))).
  assert (heap s ⊆ heap s0) as Hs0 by apply insert_fresh_subseteq.
  assert (heap s0 !! frame = Some img) as Hframe by apply lookup_insert_eq.
  assert (trace s0 = trace s ++ [EvRead; EvDetect frame]) as Ht0.
  { simpl. by rewrite <- app_assoc. }
  unfold pass_end. rewrite Hshow, Hkey.
  destruct Hdetect as [->|(lms & ml & -> & -> & Hcf & Hdr)];
    cbv beta iota zeta.
  - rewrite decide_False by done.
    eexists img, _, frame, []. split_and!; [done| | | |done|done].
    + done.
    + done.
    + simpl. by rewrite <- !app_assoc.
  - set (replica := fresh (dom (heap s0))).
    destruct (rendering_accepted v img replica ml conns Hcf Hdr)
      as (Hnone & Hmade & Hadd).
    set (p := rendering v img replica ml conns) in *.
    rewrite Hnone, Hadd. cbv beta iota. rewrite decide_False by done.
    set (s1 := store replica (painted p) (record (calls_made p) s0)).
    set (composite := fresh (dom (heap s1))).
    assert (heap s0 ⊆ heap (store composite (add_images img (painted p)) s1))
      as Hs2.
    { etrans; [apply insert_fresh_subseteq|]. apply insert_fresh_subseteq. }
    eexists img, _, composite, (calls_made p).
    split_and!; [done| | | | |done].
    + eapply lookup_weaken; [exact Hframe|exact Hs2].
    + by etrans.
    + simpl. by rewrite <- !app_assoc.
    + apply rendering_calls_are_draws.
Qed.

Lemma filter_event_none P (tr : list event) :
  Forall (λ e, P e = false) tr → filter (λ e, P e = true) tr = [].
Proof.
  induction 1 as [|e tr He _ IH]; [done|].
  rewrite filter_cons, decide_False by congruence. done.
Qed.

(** A stream on which nothing fails is processed to its end. *)
Lemma processing_loop_smooth v conns name its : ∀ s,
  Forall (smooth_pass v conns) its →
  ∃ s' tr frames,
    processing_loop v conns name its s = (Ok (), s')
    ∧ trace s' = trace s ++ tr
    ∧ count_event is_read tr = S (length its)
    ∧ count_event is_detect tr = length its
    ∧ count_event is_imshow tr = length its
    ∧ count_event is_waitKey tr = length its
    ∧ filter (λ e, is_detect e = true) tr = EvDetect <$> frames
    ∧ NoDup frames
    ∧ Forall2 (λ it frame, ∃ img,
                 it_read it = Ok (Some img)
                 ∧ heap s !! frame = None
                 ∧ heap s' !! frame = Some img) its frames.
Proof.
  induction its as [|it rest IH]; intros s Hall.
  { exists (record [EvRead] s), [EvRead], []. split_and!; try done.
    constructor. }
  apply Forall_cons in Hall as [Hit Hrest].
  destruct (smooth_pass_run v conns name it rest s Hit)
    as (img & sb & shown & draws & Hread & Hframe & Hsub & Htr & Hdraws
        & Hrun).
  destruct (IH sb Hrest)
    as (s' & tr & frames & Hloop & Htr' & Hr & Hd & Hi & Hw & Hf & Hnd & Hfs).
  set (frame := fresh (dom (heap s))) in *.
  exists s', ([EvRead; EvDetect frame] ++ draws
                ++ [EvImshow name shown; EvWaitKey 30] ++ tr),
    (frame :: frames).
  assert (heap sb ⊆ heap s') as Hsub'.
  { replace s' with (processing_loop v conns name rest sb).2
      by (by rewrite Hloop).
    apply processing_loop_shape. }
  split_and!.
  - by rewrite Hrun.
  - rewrite Htr', Htr. by rewrite <- !app_assoc.
  - rewrite !count_event_app, !count_event_cons, count_event_nil.
    rewrite (count_event_draws is_read draws), Hr;
      [simpl; lia|by intros []|done].
  - rewrite !count_event_app, !count_event_cons, count_event_nil.
    rewrite (count_event_draws is_detect draws), Hd;
      [simpl; lia|by intros []|done].
  - rewrite !count_event_app, !count_event_cons.
    rewrite (count_event_draws is_imshow draws), Hi;
      [simpl; lia|by intros []|done].
  - rewrite !count_event_app, !count_event_cons.
    rewrite (count_event_draws is_waitKey draws), Hw;
      [simpl; lia|by intros []|done].
  - rewrite !filter_app, Hf.
    rewrite (filter_event_none is_detect draws).
    2:{ eapply Forall_impl; [exact Hdraws|]. by intros []. }
    done.
  - apply NoDup_cons. split; [|done]. intros Hin.
    apply list_elem_of_lookup in Hin as [i Hi'].
    destruct (Forall2_lookup_r _ _ _ _ _ Hfs Hi')
      as (it' & _ & img' & _ & Hnone & _).
    congruence.
  - constructor.
    + exists img. split_and!; [done|apply fresh_loc_unused|].
      by eapply lookup_weaken.
    + eapply Forall2_impl; [exact Hfs|]. simpl.
      intros it' l (img' & ? & Hnone & ?). exists img'.
      split_and!; [done| |done].
      by eapply lookup_weaken_None.
Qed.

(** X11.  When on every pass a frame is read, detection returns, the
    transform returns a map for the pose found, OpenCV accepts the drawing
    calls on the colour frame, [imshow] and [waitKey] return and no [q] is
    pressed, the loop runs to the end of the stream and returns normally:
    [read_frame] is called once more than there are frames, and the
    detector, [imshow] and [waitKey] once per frame.  The detector gets
    the frames in the order of the stream, each in an array of its own,
    and at the end every one of these arrays still holds the frame as it
    was read. *)
Theorem every_frame_is_detected_and_shown_once v conns name its s :
  Forall (smooth_pass v conns) its →
  ∃ s' tr frames,
    processing_loop v conns name its s = (Ok (), s')
    ∧ trace s' = trace s ++ tr
    ∧ count_event is_read tr = S (length its)
    ∧ count_event is_detect tr = length its
    ∧ count_event is_imshow tr = length its
    ∧ count_event is_waitKey tr = length its
    ∧ filter (λ e, is_detect e = true) tr = EvDetect <$> frames
    ∧ NoDup frames
    ∧ Forall2 (λ it frame, ∃ img,
                 it_read it = Ok (Some img)
                 ∧ heap s !! frame = None
                 ∧ heap s' !! frame = Some img) its frames.
Proof. apply processing_loop_smooth. Qed.

Lemma land_255_mod key : Z.land key 255 = key `mod` 256.
Proof. change 255 with (Z.ones 8). by rewrite Z.land_ones. Qed.

Lemma pass_end_q name it (k k' : M unit) shown s key :
  it_waitKey it = Ok key → Z.land key 255 = ord_q →
  pass_end name it k shown s = pass_end name it k' shown s
  ∧ ∃ tail, trace (pass_end name it k shown s).2 = trace s ++ tail
            ∧ count_event is_read tail = 0%nat
            ∧ (count_event is_waitKey tail ≤ 1)%nat.
Proof.
  intros Hkey Hq. unfold pass_end. rewrite Hkey.
  destruct (it_imshow it) as [[]|e]; cbv beta iota zeta.
  - rewrite !decide_True by done. split; [done|].
    exists [EvImshow name shown; EvWaitKey 30]. split_and!; [|done|done].
    simpl. by rewrite <- app_assoc.
  - split; [done|]. exists [EvImshow name shown]. split_and!; [done|done|].
    unfold count_event. simpl. lia.
Qed.

(** X12.  The loop ends at the first pass on which the key code has [q] in
    its low byte, whatever its higher bits are: what follows in the stream
    plays no part in the run, [read_frame] has been called once, and no
    further frame is read. *)
Theorem q_key_ends_the_loop v conns name it rest s key :
  it_waitKey it = Ok key → key `mod` 256 = 113 →
  (∀ rest', processing_loop v conns name (it :: rest') s
            = processing_loop v conns name (it :: rest) s)
  ∧ ∃ tr, trace (processing_loop v conns name (it :: rest) s).2
          = trace s ++ tr
          ∧ count_event is_read tr = 1%nat
          ∧ (count_event is_waitKey tr ≤ 1)%nat.
Proof.
  intros Hkey Hmod.
  assert (Z.land key 255 = ord_q) as Hq by (by rewrite land_255_mod).
  split.
  - intros rest'. rewrite !processing_loop_pass.
    destruct (it_read it) as [[img|]|e]; [|done..].
    destruct (it_detect it) as [[lms|]|e]; [| |done]; cbv zeta.
    + destruct (create_mirrored_landmarks v lms (shape img)); [|done].
      destruct (rejection _); [done|].
      destruct (cv_add _ _); [|done].
      by eapply pass_end_q.
    + by eapply pass_end_q.
  - rewrite processing_loop_pass.
    destruct (it_read it) as [[img|]|e];
      [|exists [EvRead]; split_and!;
          [done|done|unfold count_event; simpl; lia]..].
    cbv zeta. set (frame := fresh (dom (heap s))).
    set (s0 := record [EvDetect frame] (store frame img (record [EvRead] s))).
    assert (trace s0 = trace s ++ [EvRead; EvDetect frame]) as Ht0.
    { simpl. by rewrite <- app_assoc. }
    destruct (it_detect it) as [[lms|]|e];
      [| |exists [EvRead; EvDetect frame];
          split_and!; [done|done|unfold count_event; simpl; lia]].
    + destruct (create_mirrored_landmarks v lms (shape img)) as [ml|e];
        [|exists [EvRead; EvDetect frame];
          split_and!; [done|done|unfold count_event; simpl; lia]].
      set (replica := fresh (dom (heap s0))).
      set (p := rendering v img replica ml conns).
      set (s1 := store replica (painted p) (record (calls_made p) s0)).
      pose proof (rendering_calls_are_draws v img replica ml conns) as Hd.
      fold p in Hd.
      assert (trace s1 = trace s ++ [EvRead; EvDetect frame] ++ calls_made p)
        as Ht1.
      { change (trace s1) with (trace s0 ++ calls_made p).
        rewrite Ht0. by rewrite <- app_assoc. }
      assert (∀ r : result unit,
                ∃ tr, trace (r, s1).2 = trace s ++ tr
                      ∧ count_event is_read tr = 1%nat
                      ∧ (count_event is_waitKey tr ≤ 1)%nat) as Hstop.
      { intros r. eexists. split; [exact Ht1|]. split.
        - rewrite !count_event_app, !count_event_cons, count_event_nil.
          rewrite (count_event_draws is_read (calls_made p));
            [done|by intros []|done].
        - rewrite !count_event_app, !count_event_cons, count_event_nil.
          rewrite (count_event_draws is_waitKey (calls_made p));
            [simpl; lia|by intros []|done]. }
      destruct (rejection p) as [x|]; [apply Hstop|].
      destruct (cv_add img (painted p)) as [sum|x]; [|apply Hstop].
      set (composite := fresh (dom (heap s1))).
      set (s2 := store composite sum s1).
      destruct (pass_end_q name it (processing_loop v conns name rest)
                  (processing_loop v conns name rest) composite s2 key
                  Hkey Hq) as (_ & tail & Htr & Hr & Hw).
      exists ([EvRead; EvDetect frame] ++ calls_made p ++ tail). split_and!.
      * rewrite Htr. change (trace s2) with (trace s1).
        rewrite Ht1. by rewrite <- !app_assoc.
      * rewrite !count_event_app, !count_event_cons, count_event_nil.
        rewrite (count_event_draws is_read (calls_made p)), Hr;
          [done|by intros []|done].
      * rewrite !count_event_app, !count_event_cons, count_event_nil.
        rewrite (count_event_draws is_waitKey (calls_made p));
          [simpl; lia|by intros []|done].
    + destruct (pass_end_q name it (processing_loop v conns name rest)
                  (processing_loop v conns name rest) frame s0 key
                  Hkey Hq) as (_ & tail & Htr & Hr & Hw).
      exists ([EvRead; EvDetect frame] ++ tail). split_and!.
      * rewrite Htr, Ht0. by rewrite <- !app_assoc.
      * rewrite !count_event_app, !count_event_cons, count_event_nil, Hr.
        done.
      * rewrite !count_event_app, !count_event_cons, count_event_nil.
        simpl. lia.
Qed.

(** X13.  What a pass displays.  When the detector finds no pose, [imshow]
    gets the very array [read_frame] delivered, and no drawing call is
    made.  When it finds one on a colour frame, the transform returns a
    map and OpenCV accepts the drawing calls, [imshow] gets a third array,
    distinct from the frame and from the canvas, which holds the
    saturating sum of the frame and the canvas the renderer drew.  When
    OpenCV rejects a drawing call, the loop ends with that exception after
    the rejected call, and nothing is displayed.  In each case the frame's
    array still holds the frame as read when the loop is over. *)
Theorem pass_displays_frame_or_composite v conns name it rest s img :
  it_read it = Ok (Some img) →
  let frame := fresh (dom (heap s)) in
  let run := processing_loop v conns name (it :: rest) s in
  heap run.2 !! frame = Some img
  ∧ (it_detect it = Ok None →
     ∃ tl, trace run.2
           = trace s ++ [EvRead; EvDetect frame; EvImshow name frame] ++ tl)
  ∧ (∀ lms ml,
       it_detect it = Ok (Some lms) →
       create_mirrored_landmarks v lms (shape img) = Ok ml →
       ∃ replica,
         NoDup [frame; replica]
         ∧ (color_frame img → drawable v img ml conns →
            ∃ composite tl canvas,
              trace run.2
              = trace s ++ [EvRead; EvDetect frame]
                  ++ circle_calls v replica ml
                  ++ line_calls v replica ml conns
                  ++ [EvImshow name composite] ++ tl
              ∧ NoDup [frame; replica; composite]
              ∧ canvas = painted (rendering v img replica ml conns)
              ∧ heap run.2 !! replica = Some canvas
              ∧ heap run.2 !! composite = Some (add_images img canvas))
         ∧ (∀ x, rejection (rendering v img replica ml conns) = Some x →
              run.1 = Raise x
              ∧ trace run.2
                = trace s ++ [EvRead; EvDetect frame]
                    ++ calls_made (rendering v img replica ml conns)
              ∧ count_event is_imshow
                  (drop (length (trace s)) (trace run.2)) = 0%nat)).
Proof.
  intros Hread frame run.
  assert (heap run.2 !! frame = Some img) as Hkept.
  { unfold run. rewrite processing_loop_pass, Hread. cbv zeta. fold frame.
    set (s0 := record [EvDetect frame]
                 (store frame img (record [EvRead] s))).
    assert (heap s0 !! frame = Some img) as Hframe
      by apply lookup_insert_eq.
    destruct (it_detect it) as [[lms|]|e]; [| |done].
    - destruct (create_mirrored_landmarks v lms (shape img)) as [ml|e];
        [|done].
      set (replica := fresh (dom (heap s0))).
      set (p := rendering v img replica ml conns).
      set (s1 := store replica (painted p) (record (calls_made p) s0)).
      assert (heap s1 !! frame = Some img) as Hframe1.
      { eapply lookup_weaken; [exact Hframe|apply insert_fresh_subseteq]. }
      destruct (rejection p) as [x|]; [done|].
      destruct (cv_add img (painted p)) as [sum|x]; [|done].
      set (composite := fresh (dom (heap s1))).
      destruct (pass_end_shape name it (processing_loop v conns name rest)
                  composite (store composite sum s1)
                  (processing_loop_shape v conns name rest))
        as (Hheap & _).
      eapply lookup_weaken; [|exact Hheap].
      eapply lookup_weaken; [exact Hframe1|apply insert_fresh_subseteq].
    - destruct (pass_end_shape name it (processing_loop v conns name rest)
                  frame s0 (processing_loop_shape v conns name rest))
        as (Hheap & _).
      by eapply lookup_weaken. }
  split; [exact Hkept|]. clear Hkept.
  unfold run. rewrite processing_loop_pass, Hread. cbv zeta. fold frame.
  set (s0 := record [EvDetect frame] (store frame img (record [EvRead] s))).
  assert (heap s0 !! frame = Some img) as Hframe by apply lookup_insert_eq.
  assert (trace s0 = trace s ++ [EvRead; EvDetect frame]) as Ht0.
  { simpl. by rewrite <- app_assoc. }
  split.
  - intros ->.
    destruct (pass_end_shape name it (processing_loop v conns name rest)
                frame s0 (processing_loop_shape v conns name rest))
      as (_ & tail & Htr & _).
    exists tail. rewrite Htr, Ht0. by rewrite <- !app_assoc.
  - intros lms ml -> ->.
    set (replica := fresh (dom (heap s0))).
    pose proof (fresh_loc_unused s0) as Hfr0. fold replica in Hfr0.
    assert (frame ≠ replica) as Hne by congruence.
    exists replica. split.
    { rewrite !NoDup_cons, !not_elem_of_cons.
      split_and!; try done; try apply not_elem_of_nil. apply NoDup_nil_2. }
    set (p := rendering v img replica ml conns).
    set (s1 := store replica (painted p) (record (calls_made p) s0)).
    assert (trace s1 = trace s ++ [EvRead; EvDetect frame] ++ calls_made p)
      as Ht1.
    { change (trace s1) with (trace s0 ++ calls_made p).
      rewrite Ht0. by rewrite <- app_assoc. }
    split.
    + intros Hcf Hdr.
      destruct (rendering_accepted v img replica ml conns Hcf Hdr)
        as (Hnone & Hmade & Hadd).
      fold p in Hnone, Hmade, Hadd. rewrite Hnone, Hadd.
      set (composite := fresh (dom (heap s1))).
      set (s2 := store composite (add_images img (painted p)) s1).
      pose proof (fresh_loc_unused s1) as Hfr1. fold composite in Hfr1.
      assert (heap s1 !! frame = Some img) as Hframe1.
      { eapply lookup_weaken; [exact Hframe|apply insert_fresh_subseteq]. }
      assert (heap s1 !! replica = Some (painted p)) as Hreplica1
        by apply lookup_insert_eq.
      assert (heap s1 ⊆ heap s2) as Hs12 by apply insert_fresh_subseteq.
      destruct (pass_end_shape name it (processing_loop v conns name rest)
                  composite s2 (processing_loop_shape v conns name rest))
        as (Hheap & tail & Htr & _).
      exists composite, tail, (painted p). split_and!.
      * rewrite Htr. change (trace s2) with (trace s1).
        rewrite Ht1, Hmade. unfold draw_calls. by rewrite <- !app_assoc.
      * rewrite !NoDup_cons, !not_elem_of_cons.
        split_and!; try congruence; try apply not_elem_of_nil.
        apply NoDup_nil_2.
      * done.
      * eapply lookup_weaken; [|exact Hheap].
        by eapply lookup_weaken.
      * eapply lookup_weaken; [|exact Hheap]. apply lookup_insert_eq.
    + intros x Hx. fold p in Hx. rewrite Hx. cbn [fst snd].
      split_and!; [done|exact Ht1|].
      rewrite Ht1, drop_app_length.
      rewrite !count_event_app, !count_event_cons, count_event_nil.
      rewrite (count_event_draws is_imshow (calls_made p));
        [done|by intros []|apply rendering_calls_are_draws].
Qed.

(** X14.  A source that cannot be opened.  [main] prints the [ValueError]
    of the constructor and then fails in its [finally] block, because
    [video_source] was never assigned: the run ends with
    [UnboundLocalError], without [destroyAllWindows] and without the
    closing message, and the detector is never constructed.  [app.py]
    constructs the detector first and then ends with the [ValueError]. *)
Theorem unopened_source_ends_both_scripts args w :
  source_opens w = false →
  (∃ s, main args w initial_state = (Raise UnboundLocalError, s)
        ∧ trace s = [EvVideoCapture; EvPrint (MsgError ValueError)])
  ∧ (detector_init w = Ok () →
     ∃ s, app_py w initial_state = (Raise ValueError, s)
          ∧ trace s = [EvPoseInit; EvVideoCapture]).
Proof.
  intros Hopen. split.
  - unfold main, try_finally, try_except, main_body.
    rewrite bind_run, VideoSource_init_run, Hopen. simpl.
    by eexists.
  - intros Hdet. unfold app_py.
    rewrite bind_run, PoseDetector_init_run, Hdet. cbv beta iota.
    rewrite bind_run, VideoSource_init_run, Hopen. simpl.
    by eexists.
Qed.

End LoopRuns.

(** The passes of [two_frame_stream] are smooth for the instance. *)
Lemma two_frame_stream_smooth :
  Forall (smooth_pass (H := endpoint_rasterizer) default_visualizer [(0, 1)])
    two_frame_stream.
Proof.
  repeat constructor.
  - exists blank_frame, (-1). split_and!; try reflexivity; [|done].
    right. exists [Landmark 0.5 0.5 0 1], [(0, (151, 1))].
    split_and!; [reflexivity|vm_compute; reflexivity| |].
    + unfold color_frame. simpl. split_and!; try lia.
      split; [reflexivity|]. simpl. repeat constructor; lia.
    + apply endpoint_rasterizer_drawable; [done|done|].
      repeat constructor; done.
  - exists bright_frame, (-1). split_and!; try reflexivity; [|done].
    by left.
Qed.

Lemma loop_calls_follow_the_passes_witness :
  ∃ tr frame,
    trace (processing_loop (H := endpoint_rasterizer) default_visualizer
             [(0, 1)] "w" two_frame_stream initial_state).2 = tr
    ∧ loop_calls "w" tr
    ∧ detected_arrays tr !! 1%nat = Some frame
    ∧ heap (processing_loop (H := endpoint_rasterizer) default_visualizer
              [(0, 1)] "w" two_frame_stream initial_state).2 !! frame
      = Some bright_frame.
Proof.
  destruct (loop_calls_follow_the_passes (H := endpoint_rasterizer)
              default_visualizer [(0, 1)] "w" two_frame_stream
              initial_state) as (tr & Htr & Hcalls & _ & Hdet).
  simpl in Htr.
  assert (∃ frame, detected_arrays tr !! 1%nat = Some frame)
    as [frame Hframe].
  { rewrite <- Htr. eexists. vm_compute. reflexivity. }
  exists tr, frame. split_and!; [exact Htr|exact Hcalls|exact Hframe|].
  destruct (Hdet 1%nat frame Hframe) as (it & img & Hit & Hread & _ & Hheap).
  injection Hit as <-. injection Hread as <-. exact Hheap.
Defined.

Lemma loop_keeps_existing_arrays_witness :
  heap (processing_loop (H := endpoint_rasterizer) default_visualizer
          [(0, 1)] "w" two_frame_stream (state_with_frame bright_frame)).2
    !! 1%positive = Some bright_frame.
Proof.
  apply (loop_keeps_existing_arrays (H := endpoint_rasterizer)).
  apply lookup_singleton_eq.
Defined.

Lemma every_frame_is_detected_and_shown_once_witness :
  ∃ s' tr,
    processing_loop (H := endpoint_rasterizer) default_visualizer [(0, 1)]
      "w" two_frame_stream initial_state = (Ok (), s')
    ∧ trace s' = tr
    ∧ count_event is_read tr = 3%nat
    ∧ count_event is_detect tr = 2%nat.
Proof.
  destruct (every_frame_is_detected_and_shown_once
              (H := endpoint_rasterizer) default_visualizer [(0, 1)] "w"
              two_frame_stream initial_state two_frame_stream_smooth)
    as (s' & tr & frames & Hrun & Htr & Hr & Hd & _).
  exists s', tr. split_and!; [exact Hrun|exact Htr|exact Hr|exact Hd].
Defined.

Lemma q_key_ends_the_loop_witness :
  processing_loop (H := endpoint_rasterizer) default_visualizer [(0, 1)]
    "w" (q_pass :: two_frame_stream) initial_state
  = processing_loop (H := endpoint_rasterizer) default_visualizer [(0, 1)]
      "w" [q_pass] initial_state.
Proof.
  apply (proj1 (q_key_ends_the_loop (H := endpoint_rasterizer)
                  default_visualizer [(0, 1)] "w" q_pass [] initial_state
                  (113 + 256) eq_refl eq_refl)).
Defined.

Lemma pass_displays_frame_or_composite_witness :
  ∃ tl,
    trace (processing_loop (H := endpoint_rasterizer) default_visualizer
             [(0, 1)] "w" [q_pass] initial_state).2
    = [EvRead; EvDetect 1%positive; EvImshow "w" 1%positive] ++ tl.
Proof.
  destruct (pass_displays_frame_or_composite (H := endpoint_rasterizer)
              default_visualizer [(0, 1)] "w" q_pass [] initial_state
              blank_frame eq_refl) as (_ & Hnone & _).
  destruct (Hnone eq_refl) as (tl & Htr).
  exists tl. exact Htr.
Defined.

Lemma unopened_source_ends_both_scripts_witness :
  ∃ s, main (H := endpoint_rasterizer) default_arguments closed_source_world
         initial_state = (Raise UnboundLocalError, s)
       ∧ trace s = [EvVideoCapture; EvPrint (MsgError ValueError)].
Proof.
  apply (proj1 (unopened_source_ends_both_scripts (H := endpoint_rasterizer)
                  default_arguments closed_source_world eq_refl)).
Defined.
(** ** The two scripts, end to end *)

Lemma create_mirrored_landmarks_any_visualizer self1 self2 lms shp :
  create_mirrored_landmarks self2 lms shp
  = shift_x (offset_x self2 - offset_x self1)
      <$> create_mirrored_landmarks self1 lms shp.
Proof.
  destruct shp as [[h w] c]. unfold create_mirrored_landmarks.
  rewrite <- (mirror_loop_shift self1 self2 h w lms lms); [done|].
  apply Forall2_same_length_lookup_2; [done|].
  intros i a b Ha Hb. rewrite Ha in Hb. by injection Hb as <-.
Qed.

Section ScriptRuns.
Context `{OpenCV}.

Lemma main_body_run args w s :
  source_opens w = true → detector_init w = Ok () → window_init w = Ok () →
  main_body args w s
  = processing_loop (visualizer_of_arguments args) (pose_connections w)
      main_window (stream w)
      (record [EvNamedWindow main_window]
         (record [EvPoseInit]
            {| heap := heap s; trace := trace s ++ [EvVideoCapture];
               video_source := true |})).
Proof.
  intros Hopen Hdet Hwin. unfold main_body.
  rewrite bind_run, VideoSource_init_run, Hopen. cbv beta iota.
  rewrite bind_run, PoseDetector_init_run, Hdet. cbv beta iota zeta.
  rewrite bind_run, log_run. cbv beta iota.
  rewrite bind_run. unfold lift at 1. rewrite Hwin. done.
Qed.

(** X15.  A stream on which nothing fails, end to end: on every pass a
    frame is read, detection returns, and for a pose found the frame is a
    colour frame, the transform returns a map and OpenCV accepts the
    drawing calls; [imshow] and [waitKey] return and no [q] is pressed.
    Then [main] returns normally after the calls [VideoCapture], the
    detector's constructor, [namedWindow], the passes of the loop and the
    shutdown path, in this order; [app.py] constructs the detector first,
    creates no window, and ends with [release] and [destroyAllWindows].
    In both every frame of the stream is detected and displayed once. *)
Theorem smooth_stream_runs_both_scripts_to_the_end args w :
  source_opens w = true → detector_init w = Ok () → window_init w = Ok () →
  (Forall (smooth_pass (visualizer_of_arguments args) (pose_connections w))
     (stream w) →
   ∃ s tr,
     main args w initial_state = (Ok (), s)
     ∧ trace s = [EvVideoCapture; EvPoseInit; EvNamedWindow main_window]
                   ++ tr ++ shutdown_calls
     ∧ loop_calls main_window tr
     ∧ count_event is_detect tr = length (stream w)
     ∧ count_event is_imshow tr = length (stream w))
  ∧ (Forall (smooth_pass default_visualizer (pose_connections w))
       (stream w) →
     ∃ s tr,
       app_py w initial_state = (Ok (), s)
       ∧ trace s = [EvPoseInit; EvVideoCapture]
                     ++ tr ++ [EvRelease; EvDestroyAllWindows]
       ∧ loop_calls app_window tr
       ∧ count_event is_detect tr = length (stream w)
       ∧ count_event is_imshow tr = length (stream w)).
Proof.
  intros Hopen Hdet Hwin. split; intros Hall.
  - unfold main, try_finally, try_except.
    rewrite main_body_run by done.
    match goal with |- context [processing_loop ?v ?c ?n ?i ?s0] =>
      destruct (processing_loop_smooth v c n i s0 Hall)
        as (s' & tr & frames & Hrun & Htr & _ & Hd & Hi & _);
      destruct (processing_loop_shape v c n i s0) as (_ & tr' & Htr' & Hc);
      destruct (quiet_processing_loop v c n i s0) as (Hv & _)
    end.
    rewrite Hrun in *. cbn [fst snd] in *.
    rewrite Htr in Htr'. apply app_inv_head in Htr' as <-.
    rewrite bind_run, release_run by done. cbv beta iota.
    eexists _, tr. split; [reflexivity|]. split_and!; try done.
    cbn [log snd trace]. rewrite Htr. simpl. by rewrite <- !app_assoc.
  - rewrite app_py_run by done. rewrite bind_run.
    match goal with |- context [processing_loop ?v ?c ?n ?i ?s0] =>
      destruct (processing_loop_smooth v c n i s0 Hall)
        as (s' & tr & frames & Hrun & Htr & _ & Hd & Hi & _);
      destruct (processing_loop_shape v c n i s0) as (_ & tr' & Htr' & Hc);
      destruct (quiet_processing_loop v c n i s0) as (Hv & _)
    end.
    rewrite Hrun in *. cbn [fst snd] in *.
    rewrite Htr in Htr'. apply app_inv_head in Htr' as <-.
    rewrite bind_run, release_run by done. cbv beta iota.
    eexists _, tr. split; [reflexivity|]. split_and!; try done.
    cbn [log snd trace]. rewrite Htr. simpl. by rewrite <- !app_assoc.
Qed.

(** X16.  A landmark with a NaN or infinite coordinate on the first frame.
    Both scripts stop at the mirror transform, before anything is drawn or
    displayed.  [main] catches the [ValueError] or [OverflowError], prints
    it, runs the shutdown path and returns normally; [app.py] ends with
    the same exception, and the source is not released. *)
Theorem non_finite_landmark_stops_both_scripts args w it rest img lms lm :
  source_opens w = true → detector_init w = Ok () → window_init w = Ok () →
  stream w = it :: rest →
  it_read it = Ok (Some img) → it_detect it = Ok (Some lms) →
  lm ∈ lms → non_finite (lm_x lm) ∨ non_finite (lm_y lm) →
  ∃ e frame s s',
    (e = ValueError ∨ e = OverflowError)
    ∧ main args w initial_state = (Ok (), s)
    ∧ trace s = [EvVideoCapture; EvPoseInit; EvNamedWindow main_window;
                 EvRead; EvDetect frame; EvPrint (MsgError e)]
                  ++ shutdown_calls
    ∧ app_py w initial_state = (Raise e, s')
    ∧ trace s' = [EvPoseInit; EvVideoCapture; EvRead; EvDetect frame].
Proof.
  intros Hopen Hdet Hwin Hstream Hread Hdetect Hin Hbad.
  destruct img as [h wd c dat].
  destruct (create_mirrored_landmarks_non_finite default_visualizer lms
              h wd c lm Hin Hbad) as (e & He & Hkind).
  assert (∀ v, create_mirrored_landmarks v lms (h, wd, c) = Raise e) as Hv.
  { intros v.
    rewrite (create_mirrored_landmarks_any_visualizer default_visualizer v).
    by rewrite He. }
  exists e, (fresh (dom (∅ : gmap loc image))).
  assert (is_Exception e = true) as Hexc by (by destruct Hkind as [->| ->]).
  eexists _, _. split; [exact Hkind|].
  unfold main, try_finally, try_except.
  rewrite main_body_run, app_py_run by done. rewrite bind_run.
  rewrite Hstream, !processing_loop_pass, Hread, Hdetect.
  cbv zeta. unfold shape. cbn [img_h img_w img_c]. rewrite !Hv, Hexc.
  split_and!; reflexivity.
Qed.


End ScriptRuns.

Lemma smooth_stream_runs_both_scripts_to_the_end_witness :
  ∃ s tr,
    main (H := endpoint_rasterizer) default_arguments two_frame_world
      initial_state = (Ok (), s)
    ∧ trace s = [EvVideoCapture; EvPoseInit; EvNamedWindow main_window]
                  ++ tr ++ shutdown_calls
    ∧ count_event is_detect tr = 2%nat.
Proof.
  destruct (smooth_stream_runs_both_scripts_to_the_end
              (H := endpoint_rasterizer) default_arguments two_frame_world)
    as [Hmain _].
  - reflexivity.
  - reflexivity.
  - reflexivity.
  - destruct (Hmain two_frame_stream_smooth)
      as (s & tr & Hrun & Htr & _ & Hd & _).
    exists s, tr. split_and!; [exact Hrun|exact Htr|exact Hd].
Defined.

Lemma non_finite_landmark_stops_both_scripts_witness :
  ∃ e s s',
    main (H := endpoint_rasterizer) default_arguments nan_landmark_world
      initial_state = (Ok (), s)
    ∧ EvPrint (MsgError e) ∈ trace s
    ∧ app_py (H := endpoint_rasterizer) nan_landmark_world initial_state
      = (Raise e, s').
Proof.
  destruct (non_finite_landmark_stops_both_scripts
              (H := endpoint_rasterizer) default_arguments
              nan_landmark_world
              {| it_read := Ok (Some blank_frame);
                 it_detect := Ok (Some [Landmark 0.5 nan 0 1]);
                 it_imshow := Ok ();
                 it_waitKey := Ok (-1) |} [] blank_frame
              [Landmark 0.5 nan 0 1] (Landmark 0.5 nan 0 1))
    as (e & frame & s & s' & _ & Hmain & Htr & Happ & _).
  - reflexivity.
  - reflexivity.
  - reflexivity.
  - reflexivity.
  - reflexivity.
  - reflexivity.
  - apply list_elem_of_here.
  - right. left. reflexivity.
  - exists e, s, s'. split_and!; [exact Hmain| |exact Happ].
    rewrite Htr. simpl.
    repeat first [apply list_elem_of_here | apply list_elem_of_further].
Defined.

